(** * Conlang generator (src/app.js): the generative core

    A shallow embedding of the three logic modules of [src/app.js]
    ([Phonology], [Lexicon], [MorphoSyntax]) and of the part of
    [languageState] they read, followed by the properties of the
    specification that concern them.

    Conventions of the embedding.
    - A JavaScript string is the list of its code points ([jsstring]).  All
      literals of the source are in the Basic Multilingual Plane, where code
      points and UTF-16 code units coincide.
    - [undefined] is [None] in an [option]; [ToString] of it is the text
      "undefined", as in JavaScript.
    - [Math.random()] is an explicit stream [rnd : nat -> Q], the state of
      the monad [M]: a call returns its head and leaves its tail.  Its
      contract (a value in [0,1)) is the predicate [unit_draws].  Arithmetic
      on draws is exact rational arithmetic, where the host rounds to
      binary64 (see [floor_random_times]).
    - A JavaScript number that holds a count is a [Z]; [NaN] is not
      modelled.
    - An exception is the [Throw] completion of the monad [M]; a loop that
      has no bound in the source takes a number of turns (fuel) and ends in
      [OutOfFuel] when they are used up. *)

From Stdlib Require Import ZArith QArith Qround String Ascii.
From stdpp Require Import base option list gmap strings.

Close Scope Q_scope.
Local Open Scope Z_scope.

(** ** JavaScript strings and arrays *)

Module JS.

Definition jsstring : Type := list Z.

(** An ASCII literal of the source as a [jsstring]. *)
Definition str (s : string) : jsstring :=
  (fun a => Z.of_nat (nat_of_ascii a)) <$> list_ascii_of_string s.

(** The code point of a one-character ASCII literal. *)
Definition code (s : string) : Z :=
  match str s with
  | c :: _ => c
  | [] => 0
  end.

(** A string is truthy when it is not empty. *)
Definition truthy (s : jsstring) : bool :=
  match s with
  | [] => false
  | _ :: _ => true
  end.

(** [ToString] of a value that is a string or [undefined]. *)
Definition ToString (v : option jsstring) : jsstring :=
  match v with
  | Some s => s
  | None => str "undefined"
  end.

(** [arr[i]] for a number [i]: [undefined] outside the array. *)
Definition at_ {A : Type} (arr : list A) (i : Z) : option A :=
  if i <? 0 then None else arr !! Z.to_nat i.

(** [arr.length] as a number. *)
Definition len {A : Type} (arr : list A) : Z := Z.of_nat (length arr).

(** [arr.join("")] on an array of strings. *)
Definition join_empty (arr : list jsstring) : jsstring := concat arr.

(** [arr.join(" ")]; an [undefined] element contributes the empty string. *)
Fixpoint join_space (arr : list (option jsstring)) : jsstring :=
  match arr with
  | [] => []
  | [x] => default [] x
  | x :: rest => default [] x ++ 32 :: join_space rest
  end.

(** [s.split(sep)] for a one-character separator: the first piece and the
    pieces after it (the array is never empty). *)
Fixpoint split (sep : Z) (s : jsstring) : jsstring * list jsstring :=
  match s with
  | [] => ([], [])
  | c :: rest =>
      let '(piece, pieces) := split sep rest in
      if c =? sep then ([], piece :: pieces) else (c :: piece, pieces)
  end.

(** [s.includes(c)] for a one-character needle. *)
Definition includes (c : Z) (s : jsstring) : bool := existsb (Z.eqb c) s.

(** WhiteSpace and LineTerminator code points of ECMAScript, the ones
    [trim] strips. *)
Definition is_whitespace (c : Z) : bool :=
  ((9 <=? c) && (c <=? 13)) || (c =? 32) || (c =? 160) || (c =? 5760)
  || ((8192 <=? c) && (c <=? 8202)) || (c =? 8232) || (c =? 8233)
  || (c =? 8239) || (c =? 8287) || (c =? 12288) || (c =? 65279).

Fixpoint trimStart (s : jsstring) : jsstring :=
  match s with
  | [] => []
  | c :: rest => if is_whitespace c then trimStart rest else s
  end.

Definition trim (s : jsstring) : jsstring :=
  reverse (trimStart (reverse (trimStart s))).

(** [GetSubstitution] of ECMAScript when the match has no capture group:
    in the replacement text, [$$] is a dollar sign, [$&] the matched text,
    [$`] the text before the match and [$'] the text after it; every other
    character, a lone [$] included, stands for itself. *)
Fixpoint GetSubstitution (matched before after template : jsstring) : jsstring :=
  match template with
  | [] => []
  | c :: rest =>
      if c =? 36 then
        match rest with
        | [] => [c]
        | d :: rest' =>
            if d =? 36 then 36 :: GetSubstitution matched before after rest'
            else if d =? 38 then matched ++ GetSubstitution matched before after rest'
            else if d =? 96 then before ++ GetSubstitution matched before after rest'
            else if d =? 39 then after ++ GetSubstitution matched before after rest'
            else c :: GetSubstitution matched before after rest
        end
      else c :: GetSubstitution matched before after rest
  end.

(** [s.replace(c, template)] for a one-character string pattern [c]: only
    the first occurrence is replaced. *)
Fixpoint replace_first_from (c : Z) (template : jsstring) (seen s : jsstring) : jsstring :=
  match s with
  | [] => []
  | d :: rest =>
      if d =? c then GetSubstitution [c] (reverse seen) rest template ++ rest
      else d :: replace_first_from c template (d :: seen) rest
  end.

Definition replace_first (c : Z) (template : jsstring) (s : jsstring) : jsstring :=
  replace_first_from c template [] s.

(** [String.fromCodePoint(n)]: [None] is the RangeError outside
    0..0x10FFFF. *)
Definition fromCodePoint (n : Z) : option jsstring :=
  if (0 <=? n) && (n <=? 1114111) then Some [n] else None.

(** [s.toLowerCase()], exact on ASCII and on the two other code points
    whose lower case contains an ASCII letter (U+212A, U+0130); any other
    code point is kept, and neither it nor its lower case is an ASCII
    letter. *)
Definition lower_char (c : Z) : jsstring :=
  if (65 <=? c) && (c <=? 90) then [c + 32]
  else if c =? 8490 then [107]
  else if c =? 304 then [105; 775]
  else [c].

Definition toLowerCase (s : jsstring) : jsstring := s ≫= lower_char.

(** [s.slice(1, -1)]. *)
Definition slice_1_m1 (s : jsstring) : jsstring :=
  match s with
  | [] => []
  | _ :: rest => take (length rest - 1)%nat rest
  end.

End JS.
Export JS.

(** ** Completions and the random source *)

Module Effects.

(** The state of [Math.random]: the values its next calls return. *)
Definition Rng : Type := nat -> Q.

(** The contract of [Math.random]: every value is in [0,1). *)
Definition unit_draws (rnd : Rng) : Prop :=
  ∀ n, (0 <= rnd n)%Q ∧ (rnd n < 1)%Q.

(** The stream that returns the values of [l] and then 0. *)
Definition draws (l : list Q) : Rng := fun n => nth n l 0%Q.

(** The stream after its first [n] values were consumed. *)
Definition advance (n : nat) (rnd : Rng) : Rng := fun k => rnd (n + k)%nat.

(** How a call ends: with a value, with an exception, or not within the
    number of loop turns it was given. *)
Inductive completion (A : Type) : Type :=
  | Normal (a : A)
  | Throw
  | OutOfFuel.
Arguments Normal {A} a.
Arguments Throw {A}.
Arguments OutOfFuel {A}.

(** A computation that may call [Math.random], may throw and may loop. *)
Definition M (A : Type) : Type := Rng -> completion (A * Rng).

Definition ret {A : Type} (a : A) : M A := fun rnd => Normal (a, rnd).

Definition bind {A B : Type} (c : M A) (k : A -> M B) : M B :=
  fun rnd =>
    match c rnd with
    | Normal (a, rnd') => k a rnd'
    | Throw => Throw
    | OutOfFuel => OutOfFuel
    end.

Definition throw {A : Type} : M A := fun _ => Throw.

Definition out_of_fuel {A : Type} : M A := fun _ => OutOfFuel.

(** What a run returns, without the state it leaves. *)
Definition outcome {A : Type} (c : completion (A * Rng)) : completion A :=
  match c with
  | Normal (a, _) => Normal a
  | Throw => Throw
  | OutOfFuel => OutOfFuel
  end.

Definition Math_random : M Q := fun rnd => Normal (rnd 0%nat, advance 1 rnd).

(** [Math.floor(Math.random() * n)].  The product is taken exactly; the
    host rounds it to binary64, which keeps an index below [n] for a draw
    below 1 and an [n] below 2 ^ 53, and can move a draw that lies within
    the rounding error of the boundary of two indices to the upper one. *)
Definition floor_random_times (n : Z) : M Z :=
  bind Math_random (fun r => ret (Qfloor (r * inject_Z n))).

(** [arr[Math.floor(Math.random() * arr.length)]]. *)
Definition random_element {A : Type} (arr : list A) : M (option A) :=
  bind (floor_random_times (len arr)) (fun i => ret (at_ arr i)).

(** [for (const x of arr) acc = body(acc, x)] in [M]. *)
Fixpoint for_of {A S : Type} (body : S -> A -> M S) (arr : list A) (acc : S) : M S :=
  match arr with
  | [] => ret acc
  | x :: rest => bind (body acc x) (for_of body rest)
  end.

End Effects.
Export Effects.

Notation "'let*' x ':=' c 'in' k" := (bind c (fun x => k))
  (at level 10, x pattern, c at level 200, k at level 200).

(** ** languageState *)

Module State.

(** A phonological rule as the UI stores it: [{ from, to }]. *)
Record Rule : Type := { from : jsstring; to : jsstring }.

Record Tones : Type := { tones_enabled : bool; tones_count : Z }.

Record PhonologyState : Type := {
  consonants : list jsstring;
  vowels : list jsstring;
  syllableStructures : list jsstring;
  phonologicalRules : list Rule;
  tones : Tones
}.

Record LexiconState : Type := {
  semanticFields : list jsstring;
  rootCount : Z;
  loanwords_enabled : bool
}.

(** A derivational morpheme: [{ type, form, func }]. *)
Record Morpheme : Type := { type : jsstring; form : jsstring; func : jsstring }.

Record MorphoSyntaxState : Type := {
  wordOrder : jsstring;
  adjectiveOrder : jsstring;
  caseMarking : jsstring;
  irregularityRate : Q;
  derivationalMorphemes : list Morpheme;
  grammaticalGender : jsstring;
  genderAgreement : bool
}.

(** The value of a [gender] property: [null], absent, or a string. *)
Inductive GenderValue : Type :=
  | gender_null
  | gender_undefined
  | gender_string (s : jsstring).

(** A dictionary entry.  A property that is absent is [None]: the entries
    [Lexicon.generate] builds have all of [ipa], [roman], [pos], and the
    copy of an [undefined] array element has none. *)
Record LexicalEntry : Type := {
  ipa : option jsstring;
  roman : option jsstring;
  pos : option jsstring;
  meaning : option jsstring;
  gender : GenderValue
}.

(** [languageState.generated.grammar]; [tenses] lists the properties of
    the object in the order [Object.keys] returns them. *)
Record Grammar : Type := {
  subjectMarker : jsstring;
  objectMarker : jsstring;
  pluralMarker : jsstring;
  tenses : list (jsstring * jsstring)
}.

Record LanguageState : Type := {
  phonology : PhonologyState;
  lexicon : LexiconState;
  morphoSyntax : MorphoSyntaxState;
  dictionary : list LexicalEntry;
  grammar : Grammar
}.

(** The grammar table of the source (lines 52-61). *)
Definition initial_grammar : Grammar := {|
  subjectMarker := str "ga";
  objectMarker := str "wo";
  pluralMarker := str "t";
  tenses := [(str "past", str "ta"); (str "present", str "ru"); (str "future", str "lu")]
|}.

Definition with_grammar (st : LanguageState) (g : Grammar) : LanguageState := {|
  phonology := phonology st;
  lexicon := lexicon st;
  morphoSyntax := morphoSyntax st;
  dictionary := dictionary st;
  grammar := g
|}.

Definition with_rules (p : PhonologyState) (rules : list Rule) : PhonologyState := {|
  consonants := consonants p;
  vowels := vowels p;
  syllableStructures := syllableStructures p;
  phonologicalRules := rules;
  tones := tones p
|}.

End State.
Export State.

(** ** Regular expressions *)

Module RegExp.

(** What [Phonology.applyPhonologicalRules] uses of the regular
    expressions of the host: [new RegExp(source, "g")], which throws a
    SyntaxError ([None]) on a malformed source, and
    [word.replace(regex, replacement)]. *)
Class Engine : Type := {
  regex : Type;
  compile : jsstring -> option regex;
  replace : jsstring -> regex -> jsstring -> jsstring
}.

(** *** A fragment of the pattern language

    Enough of it for rules like the one the UI suggests ("n > m" in the
    context "_p") and for the class the shorthand V expands to: a sequence
    of literal characters and bracket classes, with lookbehind and
    lookahead assertions over such sequences.  Every other source is
    refused by [parse]; this agrees with the host on the sources the host
    refuses as well (an unclosed class or group, a quantifier with
    nothing to repeat) and is a limit of the fragment elsewhere: anchors,
    the dot, quantifiers, alternation, escapes, braces and ranged or
    negated classes are sources that the host compiles and [parse]
    refuses, so what is proved on [Fragment] is about literal, class and
    lookaround sources. *)

Inductive atom : Type :=
  | Chr (c : Z)
  | Cls (cs : list Z).

Inductive item : Type :=
  | Atom (a : atom)
  | LookBehind (atoms : list atom)
  | LookAhead (atoms : list atom).

(** SyntaxCharacter of ECMAScript: [^ $ \ . * + ? ( ) [ ] { } |]. *)
Definition is_syntax_char (c : Z) : bool :=
  bool_decide (c ∈ [94; 36; 92; 46; 42; 43; 63; 40; 41; 91; 93; 123; 125; 124]).

(** The members of a class up to its closing bracket; a backslash, a
    caret and a hyphen are outside the fragment. *)
Fixpoint parse_class (s : jsstring) : option (list Z * jsstring) :=
  match s with
  | [] => None
  | c :: rest =>
      if c =? 93 then Some ([], rest)
      else if (c =? 92) || (c =? 94) || (c =? 45) then None
      else '(cs, rest') ← parse_class rest; Some (c :: cs, rest')
  end.

(** Atoms up to the closing parenthesis of a group. *)
Fixpoint parse_group (fuel : nat) (s : jsstring) : option (list atom * jsstring) :=
  match fuel with
  | O => None
  | S fuel' =>
      match s with
      | [] => None
      | c :: rest =>
          if c =? 41 then Some ([], rest)
          else if c =? 91 then
            '(cs, rest') ← parse_class rest;
            '(atoms, rest'') ← parse_group fuel' rest';
            Some (Cls cs :: atoms, rest'')
          else if is_syntax_char c then None
          else '(atoms, rest') ← parse_group fuel' rest; Some (Chr c :: atoms, rest')
      end
  end.

Fixpoint parse_items (fuel : nat) (s : jsstring) : option (list item) :=
  match fuel with
  | O => None
  | S fuel' =>
      match s with
      | [] => Some []
      | c :: rest =>
          if c =? 91 then
            '(cs, rest') ← parse_class rest;
            items ← parse_items fuel' rest';
            Some (Atom (Cls cs) :: items)
          else if c =? 40 then
            match rest with
            | 63 :: 61 :: body =>
                '(atoms, rest') ← parse_group fuel' body;
                items ← parse_items fuel' rest';
                Some (LookAhead atoms :: items)
            | 63 :: 60 :: 61 :: body =>
                '(atoms, rest') ← parse_group fuel' body;
                items ← parse_items fuel' rest';
                Some (LookBehind atoms :: items)
            | _ => None
            end
          else if is_syntax_char c then None
          else items ← parse_items fuel' rest; Some (Atom (Chr c) :: items)
      end
  end.

Definition parse (source : jsstring) : option (list item) :=
  parse_items (S (length source)) source.

Definition atom_matches (a : atom) (c : Z) : bool :=
  match a with
  | Chr d => c =? d
  | Cls cs => bool_decide (c ∈ cs)
  end.

(** The atoms match a prefix of [s]: what is left of [s]. *)
Fixpoint match_atoms (atoms : list atom) (s : jsstring) : option jsstring :=
  match atoms, s with
  | [], _ => Some s
  | a :: atoms', c :: rest => if atom_matches a c then match_atoms atoms' rest else None
  | _ :: _, [] => None
  end.

(** A match at the position between [before] (the text to the left,
    nearest character first) and [after]: the matched text, last
    character first, and the text left after it. *)
Fixpoint match_items (items : list item) (matched before after : jsstring)
  : option (jsstring * jsstring) :=
  match items with
  | [] => Some (matched, after)
  | Atom a :: items' =>
      match after with
      | c :: rest =>
          if atom_matches a c then match_items items' (c :: matched) (c :: before) rest
          else None
      | [] => None
      end
  | LookBehind atoms :: items' =>
      match match_atoms (reverse atoms) before with
      | Some _ => match_items items' matched before after
      | None => None
      end
  | LookAhead atoms :: items' =>
      match match_atoms atoms after with
      | Some _ => match_items items' matched before after
      | None => None
      end
  end.

(** [RegExp.prototype[Symbol.replace]] with the global flag, from the
    position between [before] and [s]; [skip] characters of [s] belong to
    the match just replaced.  After an empty match the search resumes one
    character further. *)
Fixpoint replace_from (items : list item) (replacement : jsstring)
    (before s : jsstring) (skip : nat) : jsstring :=
  match skip with
  | S skip' =>
      match s with
      | [] => []
      | c :: rest => replace_from items replacement (c :: before) rest skip'
      end
  | O =>
      match match_items items [] before s with
      | Some (matched, after) =>
          GetSubstitution (reverse matched) (reverse before) after replacement ++
          match s with
          | [] => []
          | c :: rest =>
              match length matched with
              | O => c :: replace_from items replacement (c :: before) rest O
              | S k => replace_from items replacement (c :: before) rest k
              end
          end
      | None =>
          match s with
          | [] => []
          | c :: rest => c :: replace_from items replacement (c :: before) rest O
          end
      end
  end.

#[export] Instance Fragment : Engine := {|
  regex := list item;
  compile := parse;
  replace := fun word items replacement => replace_from items replacement [] word O
|}.

End RegExp.

(** ** Phonology (lines 74-194) *)

Module Phonology.
Import RegExp.

(** The properties of [ipaToRomanMap] (lines 75-81), in source order. *)
Definition ipaToRomanTable : list (Z * jsstring) := [
  (code "p", str "p"); (code "t", str "t"); (code "k", str "k"); (code "b", str "b");
  (code "d", str "d"); (code "g", str "g"); (code "m", str "m"); (code "n", str "n");
  (code "s", str "s"); (code "z", str "z"); (code "h", str "h"); (code "r", str "r");
  (code "j", str "y"); (code "w", str "w"); (code "a", str "a"); (code "i", str "i");
  (code "u", str "u"); (code "e", str "e"); (code "o", str "o");
  (0x283, str "sh"); (0x2a7, str "ch"); (0x2a4, str "j"); (0x14b, str "ng");
  (0x3b8, str "th"); (0xf0, str "dh");
  (0xb9, [0xb9]); (0xb2, [0xb2]); (0xb3, [0xb3]); (0x2074, [0x2074]); (0x2075, [0x2075]);
  (0x2076, [0x2076]); (0x2077, [0x2077]); (0x2078, [0x2078]); (0x2079, [0x2079])
].

Definition ipaToRomanMap : gmap Z jsstring := list_to_map ipaToRomanTable.

(** [this.ipaToRomanMap[char] || char]. *)
Definition romanize_char (char : Z) : jsstring :=
  match ipaToRomanMap !! char with
  | Some roman => if truthy roman then roman else [char]
  | None => [char]
  end.

Definition romanize (ipaStr : jsstring) : jsstring :=
  join_empty (romanize_char <$> ipaStr).

(** The source text handed to [new RegExp] for a rule (lines 126-136),
    with the replacement ([undefined] when [from] has no [>]). *)
Definition rule_source (vowels : list jsstring) (rule : Rule) : jsstring * option jsstring :=
  let '(piece, pieces) := split (code ">") (from rule) in
  let match_ := trim piece in
  let replacement := trim <$> (pieces !! 0%nat) in
  let context := to rule in
  if includes (code "_") context then
    let '(before, afters) := split (code "_") context in
    let class := str "[" ++ join_empty vowels ++ str "]" in
    let regexBefore :=
      if truthy before
      then str "(?<=" ++ replace_first (code "V") class before ++ str ")"
      else [] in
    let regexAfter :=
      match afters with
      | after :: _ =>
          if truthy after
          then str "(?=" ++ replace_first (code "V") class after ++ str ")"
          else []
      | [] => []
      end in
    (regexBefore ++ match_ ++ regexAfter, replacement)
  else (match_, replacement).

(** The body of the [forEach] callback (lines 125-140): a rule whose
    source does not compile is caught, and the word is left as it is. *)
Definition applyRule {E : Engine} (vowels : list jsstring) (newWord : jsstring) (rule : Rule)
  : jsstring :=
  let '(source, replacement) := rule_source vowels rule in
  match compile source with
  | Some regex => replace newWord regex (ToString replacement)
  | None => newWord
  end.

Definition applyPhonologicalRules {E : Engine} (p : PhonologyState) (word : jsstring) : jsstring :=
  foldl (applyRule (vowels p)) word (phonologicalRules p).

(** One turn of the loop over the template (lines 104-110). *)
Definition slot (p : PhonologyState) (word : jsstring) (char : Z) : M jsstring :=
  if char =? code "C" then
    let* consonant := random_element (consonants p) in
    ret (word ++ ToString consonant)
  else if char =? code "V" then
    let* vowel := random_element (vowels p) in
    ret (word ++ ToString vowel)
  else ret word.

(** The word of lines 103-110, before rules and tone. *)
Definition buildWord (p : PhonologyState) (structure : jsstring) : M jsstring :=
  for_of (slot p) structure [].

(** Lines 114-118. *)
Definition addTone (t : Tones) (finalWord : jsstring) : M jsstring :=
  if tones_enabled t then
    let* r := floor_random_times (tones_count t) in
    let tone := r + 1 in
    match fromCodePoint (0x2070 + tone) with
    | Some toneMarker => ret (finalWord ++ toneMarker)
    | None => throw
    end
  else ret finalWord.

(** Lines 99-110: the template drawn and the word built on it.  Iterating
    an [undefined] template is a TypeError. *)
Definition synthesize (p : PhonologyState) : M (jsstring * jsstring) :=
  let* structure := random_element (syllableStructures p) in
  match structure with
  | None => throw
  | Some structure =>
      let* word := buildWord p structure in
      ret (structure, word)
  end.

(** [generateWord()]; [None] is [null]. *)
Definition generateWord {E : Engine} (p : PhonologyState) : M (option jsstring) :=
  if (len (consonants p) =? 0) || (len (vowels p) =? 0) || (len (syllableStructures p) =? 0)
  then ret None
  else
    let* (structure, word) := synthesize p in
    let* finalWord := addTone (tones p) (applyPhonologicalRules p word) in
    ret (Some finalWord).

Definition sourceLoanwords : list jsstring :=
  str <$> ["computer"; "internet"; "phone"; "radio"; "television"; "music"; "art";
           "game"; "food"; "water"]%string.

Definition _findClosestSound (sound : jsstring) (candidates inventory : list jsstring) : jsstring :=
  match List.find (fun candidate => bool_decide (candidate ∈ inventory)) candidates with
  | Some candidate => candidate
  | None =>
      match inventory with
      | first :: _ => first
      | [] => []
      end
  end.

Definition soundMap (consonants vowels : list jsstring) : gmap Z jsstring :=
  let c := consonants in
  let cv := consonants ++ vowels in
  list_to_map [
    (code "p", _findClosestSound (str "p") [str "p"; str "b"; str "f"] c);
    (code "b", _findClosestSound (str "b") [str "b"; str "p"; str "v"] c);
    (code "t", _findClosestSound (str "t") [str "t"; str "d"; str "s"] c);
    (code "d", _findClosestSound (str "d") [str "d"; str "t"; str "z"] c);
    (code "k", _findClosestSound (str "k") [str "k"; str "g"; str "h"; str "x"] c);
    (code "c", _findClosestSound (str "k") [str "k"; str "g"; str "s"] c);
    (code "g", _findClosestSound (str "g") [str "g"; str "k"; [0x2a4]] c);
    (code "f", _findClosestSound (str "f") [str "f"; str "p"; str "v"] c);
    (code "v", _findClosestSound (str "v") [str "v"; str "b"; str "f"] c);
    (code "s", _findClosestSound (str "s") [str "s"; str "z"; str "t"; [0x283]] c);
    (code "z", _findClosestSound (str "z") [str "z"; str "s"; str "d"] c);
    (code "m", _findClosestSound (str "m") [str "m"; str "n"] c);
    (code "n", _findClosestSound (str "n") [str "n"; str "m"; [0x14b]] c);
    (code "l", _findClosestSound (str "l") [str "l"; str "r"; str "j"] c);
    (code "r", _findClosestSound (str "r") [str "r"; str "l"; str "d"] c);
    (code "h", _findClosestSound (str "h") [str "h"] c);
    (code "j", _findClosestSound [0x2a4] [[0x2a4]; str "g"; str "z"] c);
    (code "y", _findClosestSound (str "j") [str "j"; str "i"] cv);
    (code "w", _findClosestSound (str "w") [str "w"; str "u"] cv);
    (code "q", _findClosestSound (str "k") [str "k"; str "g"] c);
    (code "x", _findClosestSound (str "s") [str "s"; str "z"] c);
    (code "a", _findClosestSound (str "a") [str "a"; str "e"; str "o"] vowels);
    (code "e", _findClosestSound (str "e") [str "e"; str "i"; str "a"] vowels);
    (code "i", _findClosestSound (str "i") [str "i"; str "e"; str "u"] vowels);
    (code "o", _findClosestSound (str "o") [str "o"; str "u"; str "a"] vowels);
    (code "u", _findClosestSound (str "u") [str "u"; str "o"; str "i"] vowels)
  ].

Definition assimilate (p : PhonologyState) (word : jsstring) : jsstring :=
  if (len (consonants p) =? 0) || (len (vowels p) =? 0) then word
  else
    let soundMap := soundMap (consonants p) (vowels p) in
    join_empty ((fun char => default [] (soundMap !! char)) <$> toLowerCase word).

End Phonology.

(** ** MorphoSyntax (lines 371-457) *)

Module MorphoSyntax.

(** [applyDerivation(word, morpheme)]; [None] is the TypeError of
    [word.ipa.slice] on an entry without [ipa]. *)
Definition applyDerivation (word : LexicalEntry) (morpheme : Morpheme) : option LexicalEntry :=
  ipa ← ipa word;
  let baseIpa := slice_1_m1 ipa in
  let '(newIpa, newRoman) :=
    if bool_decide (type morpheme = str "prefix")
    then (form morpheme ++ baseIpa, Phonology.romanize (form morpheme) ++ ToString (roman word))
    else (baseIpa ++ form morpheme, ToString (roman word) ++ Phonology.romanize (form morpheme)) in
  Some {|
    ipa := Some (str "/" ++ newIpa ++ str "/");
    roman := Some newRoman;
    pos := Some (func morpheme);
    meaning := Some (ToString (meaning word) ++ str " (" ++ func morpheme ++ str ")");
    gender := gender_undefined
  |}.

(** The object [{}]. *)
Definition empty_object : LexicalEntry :=
  {| ipa := None; roman := None; pos := None; meaning := None; gender := gender_undefined |}.

(** [{ ...x }] for an array element [x]. *)
Definition spread (x : option LexicalEntry) : LexicalEntry := default empty_object x.

Definition has_pos (p : string) (w : LexicalEntry) : bool :=
  bool_decide (pos w = Some (str p)).

(** The sentinel of line 396. *)
Definition insufficient : jsstring :=
  [0x8f9e; 0x66f8; 0x306b; 0x5358; 0x8a9e; 0x304c; 0x4e0d; 0x8db3; 0x3057; 0x3066; 0x3044;
   0x307e; 0x3059; 0x3002].

(** The loop of lines 400-402; it has no bound in the source. *)
Fixpoint redraw_object (fuel : nat) (nouns : list LexicalEntry) (subject object : LexicalEntry)
  : M LexicalEntry :=
  if bool_decide (roman object = roman subject) then
    match fuel with
    | O => out_of_fuel
    | S fuel' =>
        let* drawn := random_element nouns in
        redraw_object fuel' nouns subject (spread drawn)
    end
  else ret object.

(** Lines 412-418. *)
Definition agree (ms : MorphoSyntaxState) (subject : LexicalEntry) (adjectiveForm : option jsstring)
  : option jsstring :=
  match gender subject with
  | gender_string g =>
      if genderAgreement ms && negb (bool_decide (grammaticalGender ms = str "none")) && truthy g
      then
        let suffix :=
          if bool_decide (g = str "masculine") then str "o"
          else if bool_decide (g = str "feminine") then str "a"
          else if bool_decide (g = str "neuter") then str "e"
          else [] in
        if truthy suffix then Some (ToString adjectiveForm ++ str "-" ++ suffix)
        else adjectiveForm
      else adjectiveForm
  | _ => adjectiveForm
  end.

(** Lines 405-426: the subject phrase and its gloss. *)
Definition subject_phrase (ms : MorphoSyntaxState) (adjectives : list LexicalEntry)
    (subject : LexicalEntry) : M (option jsstring * option jsstring) :=
  let plain := ret (roman subject, meaning subject) in
  if 0 <? len adjectives then
    let* r := Math_random in
    if Qlt_le_dec (1 # 2) r then
      let* drawn := random_element adjectives in
      let adjective := spread drawn in
      let adjectiveForm := agree ms subject (roman adjective) in
      let subjectPhrase :=
        if bool_decide (adjectiveOrder ms = str "AN")
        then ToString adjectiveForm ++ str " " ++ ToString (roman subject)
        else ToString (roman subject) ++ str " " ++ ToString adjectiveForm in
      ret (Some subjectPhrase,
           Some (ToString (meaning adjective) ++ str " " ++ ToString (meaning subject)))
    else plain
  else plain.

(** The [switch] of lines 432-445 on one constituent. *)
Definition mark (caseMarking : jsstring) (marker : jsstring) (x : option jsstring)
  : option jsstring :=
  if bool_decide (caseMarking = str "suffix") then Some (ToString x ++ str "-" ++ marker)
  else if bool_decide (caseMarking = str "prefix") then Some (marker ++ str "-" ++ ToString x)
  else if bool_decide (caseMarking = str "postposition") then Some (ToString x ++ str " " ++ marker)
  else x.

(** [tenses[key]]. *)
Definition tense_marker (tenses : list (jsstring * jsstring)) (key : option jsstring)
  : option jsstring :=
  snd <$> List.find (fun kv => bool_decide (fst kv = ToString key)) tenses.

(** [components[c]] of lines 452-453. *)
Definition component (s_final o_final v_final : option jsstring) (c : Z) : option jsstring :=
  if c =? code "S" then s_final
  else if c =? code "O" then o_final
  else if c =? code "V" then v_final
  else None.

(** [dictionary.filter((w) => w.pos === p)]. *)
Definition by_pos (p : string) (dictionary : list LexicalEntry) : list LexicalEntry :=
  filter (fun w => has_pos p w) dictionary.

(** Lines 403-455: the sentence for the subject and the object drawn. *)
Definition compose (st : LanguageState) (subject object : LexicalEntry) : M jsstring :=
  let ms := morphoSyntax st in
  let verbs := by_pos "verb" (dictionary st) in
  let adjectives := by_pos "adjective" (dictionary st) in
  let* drawn := random_element verbs in
  let verb := spread drawn in
  let* (subjectPhrase, humanReadableSubject) := subject_phrase ms adjectives subject in
  let g := grammar st in
  let s_final := mark (caseMarking ms) (subjectMarker g) subjectPhrase in
  let o_final := mark (caseMarking ms) (objectMarker g) (roman object) in
  let tenseKeys := fst <$> tenses g in
  let* randomTenseKey := random_element tenseKeys in
  let tenseMarker := tense_marker (tenses g) randomTenseKey in
  let v_final := Some (ToString (roman verb) ++ str "-" ++ ToString tenseMarker) in
  let orderedSentence := join_space (component s_final o_final v_final <$> wordOrder ms) in
  ret (orderedSentence ++ str ". ('The " ++ ToString humanReadableSubject ++ str " " ++
       ToString (meaning verb) ++ str " (" ++ ToString randomTenseKey ++ str ") the " ++
       ToString (meaning object) ++ str "')").

(** [generateSentence()], reading the dictionary, [morphoSyntax] and the
    grammar table of [st]; [fuel] bounds the turns of the loop of lines
    400-402. *)
Definition generateSentence (fuel : nat) (st : LanguageState) : M jsstring :=
  let nouns := by_pos "noun" (dictionary st) in
  let verbs := by_pos "verb" (dictionary st) in
  if (len nouns <? 2) || (len verbs <? 1) then ret insufficient
  else
    let* drawn := random_element nouns in
    let subject := spread drawn in
    let* drawn := random_element nouns in
    let* object := redraw_object fuel nouns subject (spread drawn) in
    compose st subject object.

End MorphoSyntax.

(** ** Lexicon (lines 199-366) *)

Module Lexicon.
Import RegExp.

Definition semanticFieldMap : gmap jsstring jsstring :=
  list_to_map [
    ([0x81ea; 0x7136], str "nature"); ([0x52d5; 0x7269], str "animals");
    ([0x611f; 0x60c5], str "emotions"); ([0x884c; 0x52d5], str "actions");
    ([0x9053; 0x5177], str "tools"); ([0x793e; 0x4f1a], str "society");
    ([0x601d; 0x8003], str "concepts"); ([0x8eab; 0x4f53], str "body");
    ([0x98df; 0x7269], str "food"); ([0x5834; 0x6240], str "places")
  ].

Definition SemanticDictionary : gmap jsstring (list jsstring) :=
  list_to_map [
    (str "nature", str <$> [
      "sun"; "moon"; "star"; "sky"; "earth"; "sea"; "river"; "mountain"; "tree";
      "flower"; "rain"; "wind"; "snow"; "fire"; "water"; "stone"; "cloud";
      "forest"; "desert"; "island"; "valley"; "lightning"; "sand"]%string);
    (str "animals", str <$> [
      "dog"; "cat"; "bird"; "fish"; "horse"; "bear"; "wolf"; "lion"; "tiger";
      "snake"; "insect"; "spider"; "eagle"; "mouse"; "cow"; "sheep";
      "monkey"; "deer"; "fox"; "rabbit"; "bee"; "butterfly"]%string);
    (str "emotions", str <$> [
      "love"; "hate"; "joy"; "sadness"; "anger"; "fear"; "surprise"; "hope";
      "pride"; "shame"; "calm"; "anxiety"; "courage"; "desire"; "trust";
      "pity"; "envy"; "gratitude"; "guilt"; "curiosity"]%string);
    (str "actions", str <$> [
      "go"; "come"; "eat"; "drink"; "sleep"; "see"; "hear"; "speak"; "run";
      "walk"; "give"; "take"; "make"; "do"; "know"; "think"; "love"; "work";
      "play"; "sing"; "die"; "live"; "fight"; "read"; "write"]%string);
    (str "tools", str <$> [
      "knife"; "hammer"; "axe"; "rope"; "wheel"; "boat"; "net"; "needle";
      "sword"; "shield"; "bow"; "arrow"; "pen"; "book"; "cup"; "pot"; "key";
      "clock"; "mirror"; "lamp"; "plow"; "cart"; "bridge"; "road"]%string);
    (str "society", str <$> [
      "person"; "man"; "woman"; "child"; "family"; "king"; "queen"; "law";
      "war"; "peace"; "city"; "house"; "village"; "god"; "money"; "art";
      "music"; "story"; "name"; "word"; "language"; "friend"; "enemy"; "chief"]%string);
    (str "concepts", str <$> [
      "time"; "space"; "life"; "death"; "good"; "evil"; "truth"; "lie";
      "beauty"; "power"; "knowledge"; "freedom"; "justice"; "luck"; "dream";
      "soul"; "mind"; "idea"; "change"; "order"; "chaos"; "number"]%string);
    (str "body", str <$> [
      "head"; "face"; "eye"; "ear"; "nose"; "mouth"; "hand"; "foot"; "heart";
      "blood"; "bone"; "skin"; "hair"; "voice"; "leg"; "arm"; "finger"; "tooth"]%string);
    (str "food", str <$> [
      "bread"; "meat"; "fruit"; "seed"; "salt"; "honey"; "milk"; "egg";
      "root"; "leaf"; "berry"; "grain"; "wine"; "oil"; "cheese"; "herb"]%string);
    (str "places", str <$> [
      "home"; "market"; "temple"; "field"; "cave"; "port"; "castle";
      "tower"; "wall"; "gate"; "tomb"; "throne"; "garden"; "lake"; "shore"]%string)
  ].

(** The state of the loop of lines 265-284. *)
Record Selection : Type := {
  meaningsToGenerate : list (option jsstring);
  usedMeanings : gset (option jsstring);
  fieldIndex : Z
}.

(** [semanticFields[fieldIndex % semanticFields.length]]; the remainder by
    zero is [NaN], which indexes nothing. *)
Definition field_name (semanticFields : list jsstring) (fieldIndex : Z) : option jsstring :=
  if len semanticFields =? 0 then None
  else at_ semanticFields (fieldIndex `mod` len semanticFields).

(** The word list of a recognised field (lines 267-269). *)
Definition field_words (fieldName : option jsstring) : option (list jsstring) :=
  fieldKey ← semanticFieldMap !! ToString fieldName;
  if truthy fieldKey then SemanticDictionary !! fieldKey else None.

(** One turn of the loop, up to [fieldIndex++]. *)
Definition select_one (semanticFields : list jsstring) (s : Selection) : M Selection :=
  let fieldName := field_name semanticFields (fieldIndex s) in
  let* chosen :=
    match field_words fieldName with
    | Some words =>
        let availableWords := filter (fun w => Some w ∉ usedMeanings s) words in
        if 0 <? len availableWords then
          let* chosenMeaning := random_element availableWords in
          ret (Some chosenMeaning)
        else ret None
    | None =>
        if bool_decide (fieldName ∉ usedMeanings s) then ret (Some fieldName) else ret None
    end in
  let '(meanings, used) :=
    match chosen with
    | Some m => (meaningsToGenerate s ++ [m], {[ m ]} ∪ usedMeanings s)
    | None => (meaningsToGenerate s, usedMeanings s)
    end in
  ret {| meaningsToGenerate := meanings; usedMeanings := used; fieldIndex := fieldIndex s + 1 |}.

(** The loop of lines 265-284. *)
Fixpoint select (fuel : nat) (semanticFields : list jsstring) (rootCount : Z) (s : Selection)
  : M (list (option jsstring)) :=
  if len (meaningsToGenerate s) <? rootCount then
    match fuel with
    | O => out_of_fuel
    | S fuel' =>
        let* s' := select_one semanticFields s in
        if (rootCount * 2 <? fieldIndex s') && (len (meaningsToGenerate s') <? rootCount)
        then ret (meaningsToGenerate s')
        else select fuel' semanticFields rootCount s'
    end
  else ret (meaningsToGenerate s).

(** The [do ... while] of lines 289-296: the pair kept for the meaning, or
    [None] when the meaning is dropped. *)
Fixpoint mint {E : Engine} (fuel : nat) (p : PhonologyState) (generatedRomans : gset jsstring)
    (attempts : Z) : M (option (jsstring * jsstring)) :=
  let* ipa := Phonology.generateWord p in
  match ipa with
  | None => ret None
  | Some ipa =>
      if truthy ipa then
        let roman := Phonology.romanize ipa in
        let attempts := attempts + 1 in
        if bool_decide (roman ∈ generatedRomans) && (attempts <? 10) then
          match fuel with
          | O => out_of_fuel
          | S fuel' => mint fuel' p generatedRomans attempts
          end
        else if bool_decide (roman ∈ generatedRomans) then ret None
        else ret (Some (ipa, roman))
      else ret None
  end.

Definition pos_tags : list jsstring := [str "noun"; str "verb"; str "adjective"].

Definition gender_of (g : option jsstring) : GenderValue :=
  match g with
  | Some s => gender_string s
  | None => gender_undefined
  end.

(** The body of the loop of lines 286-311 on [newDictionary] and
    [generatedRomans]. *)
Definition add_root {E : Engine} (st : LanguageState)
    (acc : list LexicalEntry * gset jsstring) (meaning : option jsstring)
  : M (list LexicalEntry * gset jsstring) :=
  let '(newDictionary, generatedRomans) := acc in
  let* minted := mint 10 (phonology st) generatedRomans 0 in
  match minted with
  | None => ret acc
  | Some (ipa, roman) =>
      let* wordPos := random_element pos_tags in
      let* gender :=
        if bool_decide (wordPos = Some (str "noun"))
           && negb (bool_decide (grammaticalGender (morphoSyntax st) = str "none"))
        then
          let genders :=
            if bool_decide (grammaticalGender (morphoSyntax st) = str "mf")
            then [str "masculine"; str "feminine"]
            else [str "masculine"; str "feminine"; str "neuter"] in
          let* g := random_element genders in
          ret (gender_of g)
        else ret gender_null in
      let word := {|
        ipa := Some (str "/" ++ ipa ++ str "/");
        roman := Some roman;
        pos := wordPos;
        meaning := meaning;
        gender := gender
      |} in
      ret (newDictionary ++ [word], {[ roman ]} ∪ generatedRomans)
  end.

(** Line 323: the index of the last character of [baseIpa] that is a
    vowel of the inventory. *)
Definition lastVowelIndex (vowels : list jsstring) (baseIpa : jsstring) : option nat :=
  last (omap (fun ci => if bool_decide ([ci.2] ∈ vowels) then Some ci.1 else None)
             (imap (fun i c => (i, c)) baseIpa)).

(** Lines 319-336: the irregular variant of [word], when there is one. *)
Definition irregular (vowels : list jsstring) (word : LexicalEntry) (morpheme : Morpheme)
  : M (option LexicalEntry) :=
  if 0 <? len vowels then
    match ipa word with
    | None => throw
    | Some ipa =>
        let baseIpa := slice_1_m1 ipa in
        let* randomVowel := random_element vowels in
        match lastVowelIndex vowels baseIpa with
        | Some index =>
            let chars : list (option jsstring) := (fun c => Some [c]) <$> baseIpa in
            let newIpa := join_empty (default [] <$> <[index := randomVowel]> chars) in
            ret (Some {|
              ipa := Some (str "/" ++ newIpa ++ str "/");
              roman := Some (Phonology.romanize newIpa);
              pos := Some (func morpheme);
              meaning := Some (ToString (meaning word) ++ str " (irregular " ++
                               func morpheme ++ str ")");
              gender := gender word
            |})
        | None => ret None
        end
    end
  else ret None.

(** The body of the inner [forEach] of lines 316-342 on [derivedWords]. *)
Definition derive (st : LanguageState) (morpheme : Morpheme)
    (derivedWords : list LexicalEntry) (word : LexicalEntry) : M (list LexicalEntry) :=
  let* r := Math_random in
  if Qlt_le_dec r (1 # 2) then
    let* r' := Math_random in
    if Qlt_le_dec r' (irregularityRate (morphoSyntax st)) then
      let* derived := irregular (vowels (phonology st)) word morpheme in
      ret (derivedWords ++ option_list derived)
    else
      match MorphoSyntax.applyDerivation word morpheme with
      | Some newWord => ret (derivedWords ++ [newWord])
      | None => throw
      end
  else ret derivedWords.

(** The body of the loop of lines 349-363 on the dictionary. *)
Definition add_loanword (st : LanguageState) (dictionary : list LexicalEntry) (i : nat)
  : M (list LexicalEntry) :=
  let* sourceWord := random_element Phonology.sourceLoanwords in
  match sourceWord with
  | None => throw
  | Some sourceWord =>
      let assimilatedIpa := Phonology.assimilate (phonology st) sourceWord in
      let assimilatedRoman := Phonology.romanize assimilatedIpa in
      if truthy assimilatedRoman
         && negb (existsb (fun w => bool_decide (roman w = Some assimilatedRoman)) dictionary)
      then ret (dictionary ++ [{|
             ipa := Some (str "/" ++ assimilatedIpa ++ str "/");
             roman := Some assimilatedRoman;
             pos := Some (str "noun");
             meaning := Some (sourceWord ++ str " (loanword)");
             gender := gender_null
           |}])
      else ret dictionary
  end.

(** [generate()]: the value [languageState.generated.dictionary] has when
    the call returns.  The loop of lines 265-284 stops by its own test
    within the turns given here, and the [do ... while] within ten. *)
Definition generate {E : Engine} (st : LanguageState) : M (list LexicalEntry) :=
  let rootCount := rootCount (lexicon st) in
  let* meaningsToGenerate :=
    select (Z.to_nat (rootCount * 2 + 2)) (semanticFields (lexicon st)) rootCount
      {| meaningsToGenerate := []; usedMeanings := ∅; fieldIndex := 0 |} in
  let* (newDictionary, _) := for_of (add_root st) meaningsToGenerate ([], ∅) in
  let* derivedWords :=
    for_of (fun derivedWords morpheme => for_of (derive st morpheme) newDictionary derivedWords)
      (derivationalMorphemes (morphoSyntax st)) [] in
  let dictionary := newDictionary ++ derivedWords in
  if loanwords_enabled (lexicon st) then
    let loanwordCount := Z.max 1 (Qfloor (inject_Z rootCount * (5 # 100))) in
    for_of (add_loanword st) (seq 0 (Z.to_nat loanwordCount)) dictionary
  else ret dictionary.

End Lexicon.

(** ** UIManager: the parts that do not touch the document (lines 460-745) *)

Module UIManager.

(** [s.split(/\s+/)]: the pieces between the maximal runs of white space;
    [in_separator] says that the character before was white space, and
    [current] is the piece being read, last character first. *)
Fixpoint split_whitespace_from (in_separator : bool) (current s : jsstring) : list jsstring :=
  match s with
  | [] => [reverse current]
  | c :: rest =>
      if is_whitespace c then
        if in_separator then split_whitespace_from true current rest
        else reverse current :: split_whitespace_from true [] rest
      else split_whitespace_from false (c :: current) rest
  end.

Definition split_whitespace (s : jsstring) : list jsstring :=
  split_whitespace_from false [] s.

(** [value.trim().split(/\s+/)], how lines 517-518 read the consonants and
    the vowels from their text fields. *)
Definition parse_inventory (value : jsstring) : list jsstring :=
  split_whitespace (trim value).

(** The object [{ type, desc }] that [getMorphologicalTypology] returns. *)
Record Typology : Type := { typology_type : jsstring; typology_desc : jsstring }.

(** The value returned on line 557. *)
Definition isolating : Typology := {|
  typology_type :=
    [0x5b64; 0x7acb; 0x8a9e; 0x20; 0x28; 0x49; 0x73; 0x6f; 0x6c; 0x61; 0x74; 0x69;
     0x6e; 0x67; 0x29];
  typology_desc :=
    [0x5404; 0x5358; 0x8a9e; 0x304c; 0x4e0d; 0x5909; 0x3067; 0x3001; 0x6587; 0x6cd5;
     0x95a2; 0x4fc2; 0x306f; 0x8a9e; 0x9806; 0x306b; 0x3088; 0x3063; 0x3066; 0x793a;
     0x3055; 0x308c; 0x308b; 0x50be; 0x5411; 0x304c; 0x3042; 0x308a; 0x307e; 0x3059;
     0x3002; 0xff08; 0x4f8b; 0x3a; 0x20; 0x4e2d; 0x56fd; 0x8a9e; 0x3001; 0x30d9;
     0x30c8; 0x30ca; 0x30e0; 0x8a9e; 0xff09]
|}.

(** The value returned on line 558. *)
Definition agglutinative : Typology := {|
  typology_type :=
    [0x81a0; 0x7740; 0x8a9e; 0x20; 0x28; 0x41; 0x67; 0x67; 0x6c; 0x75; 0x74; 0x69;
     0x6e; 0x61; 0x74; 0x69; 0x76; 0x65; 0x29];
  typology_desc :=
    [0x8a9e; 0x6839; 0x306b; 0x63a5; 0x8f9e; 0x304c; 0x6b21; 0x3005; 0x3068; 0x4ed8;
     0x52a0; 0x3055; 0x308c; 0x3001; 0x5404; 0x63a5; 0x8f9e; 0x304c; 0x5358; 0x4e00;
     0x306e; 0x6587; 0x6cd5; 0x6a5f; 0x80fd; 0x3092; 0x6301; 0x3064; 0x50be; 0x5411;
     0x304c; 0x3042; 0x308a; 0x307e; 0x3059; 0x3002; 0xff08; 0x4f8b; 0x3a; 0x20;
     0x65e5; 0x672c; 0x8a9e; 0x3001; 0x30c8; 0x30eb; 0x30b3; 0x8a9e; 0xff09]
|}.

(** The value returned on line 559. *)
Definition fusional : Typology := {|
  typology_type :=
    [0x5c48; 0x6298; 0x8a9e; 0x20; 0x28; 0x46; 0x75; 0x73; 0x69; 0x6f; 0x6e; 0x61;
     0x6c; 0x29];
  typology_desc :=
    [0x63a5; 0x8f9e; 0x304c; 0x8907; 0x6570; 0x306e; 0x6587; 0x6cd5; 0x6a5f; 0x80fd;
     0x3092; 0x540c; 0x6642; 0x306b; 0x62c5; 0x3044; 0x3001; 0x4e0d; 0x898f; 0x5247;
     0x306a; 0x5909; 0x5316; 0x304c; 0x591a; 0x3044; 0x50be; 0x5411; 0x304c; 0x3042;
     0x308a; 0x307e; 0x3059; 0x3002; 0xff08; 0x4f8b; 0x3a; 0x20; 0x30e9; 0x30c6;
     0x30f3; 0x8a9e; 0x3001; 0x30ed; 0x30b7; 0x30a2; 0x8a9e; 0xff09]
|}.

(** The value returned on line 560. *)
Definition analytic : Typology := {|
  typology_type :=
    [0x5206; 0x6790; 0x8a9e; 0x20; 0x28; 0x41; 0x6e; 0x61; 0x6c; 0x79; 0x74; 0x69;
     0x63; 0x29];
  typology_desc :=
    [0x6587; 0x6cd5; 0x6a5f; 0x80fd; 0x306e; 0x591a; 0x304f; 0x3092; 0x72ec; 0x7acb;
     0x3057; 0x305f; 0x5358; 0x8a9e; 0xff08; 0x52a9; 0x8a5e; 0x306a; 0x3069; 0xff09;
     0x3084; 0x8a9e; 0x9806; 0x3067; 0x793a; 0x3059; 0x50be; 0x5411; 0x304c; 0x3042;
     0x308a; 0x307e; 0x3059; 0x3002]
|}.

(** [a < b] on numbers. *)
Definition Qltb (a b : Q) : bool := if Qlt_le_dec a b then true else false.

(** [getMorphologicalTypology()] (lines 554-561). *)
Definition getMorphologicalTypology (ms : MorphoSyntaxState) : Typology :=
  let morphemeCount := len (derivationalMorphemes ms) in
  if morphemeCount =? 0 then isolating
  else if (2 <? morphemeCount) && Qltb (irregularityRate ms) (8 # 100) then agglutinative
  else if (0 <? morphemeCount) && negb (Qltb (irregularityRate ms) (8 # 100)) then fusional
  else analytic.

(** The template of line 741: [String(val)] between two quotation marks
    (code 34), each quotation mark of it doubled by the [replace]. *)
Definition csv_quote (val : jsstring) : jsstring :=
  [34] ++ (val ≫= fun c => if c =? 34 then [34; 34] else [c]) ++ [34].

(** [arr.join(",")] on an array of strings. *)
Fixpoint join_comma (arr : list jsstring) : jsstring :=
  match arr with
  | [] => []
  | [x] => x
  | x :: rest => x ++ 44 :: join_comma rest
  end.

(** [word.gender] or, when that is falsy, the empty string (line 740). *)
Definition gender_or_empty (g : GenderValue) : jsstring :=
  match g with
  | gender_string s => s
  | _ => []
  end.

(** The array [row] of line 740, each value through [String]. *)
Definition csv_values (word : LexicalEntry) : list jsstring :=
  [ToString (ipa word); ToString (roman word); ToString (pos word); ToString (meaning word);
   gender_or_empty (gender word)].

(** What one turn of the loop of lines 739-742 appends. *)
Definition csv_row (word : LexicalEntry) : jsstring :=
  join_comma (csv_quote <$> csv_values word) ++ [10].

Definition csv_header : jsstring := str "ipa,roman,pos,meaning,gender" ++ [10].

(** [exportCSV()]: the text handed to [download] (lines 736-744). *)
Definition exportCSV (dictionary : list LexicalEntry) : jsstring :=
  csv_header ++ concat (csv_row <$> dictionary).

End UIManager.

(** * Notions of the statements *)

Section Notions.
Import MorphoSyntax.

(** The templates of [p] are strings over C and V. *)
Definition templates_over_CV (p : PhonologyState) : Prop :=
  ∀ structure c, structure ∈ syllableStructures p → c ∈ structure →
                 c = code "C" ∨ c = code "V".

(** Every symbol of the two inventories of [p] is one character. *)
Definition single_characters (p : PhonologyState) : Prop :=
  ∀ x, x ∈ consonants p ++ vowels p → length x = 1%nat.

(** The guard of line 396 lets the call through. *)
Definition enough_vocabulary (st : LanguageState) : Prop :=
  (2 ≤ length (by_pos "noun" (dictionary st)))%nat ∧
  (1 ≤ length (by_pos "verb" (dictionary st)))%nat.

(** The copy of the noun that [nouns[Math.floor(r * nouns.length)]] is. *)
Definition noun_drawn (st : LanguageState) (r : Q) : LexicalEntry :=
  let nouns := by_pos "noun" (dictionary st) in
  spread (at_ nouns (Qfloor (r * inject_Z (len nouns)))).

(** In a call of [generateSentence] on the stream [rnd], the first draw
    gives the subject and the draw after it the first object; [k] counts
    the redraws.  The object after [k] redraws differs from the subject. *)
Definition object_differs (st : LanguageState) (rnd : Rng) (k : nat) : Prop :=
  roman (noun_drawn st (rnd (S k))) ≠ roman (noun_drawn st (rnd 0%nat)).

(** The draws [r] whose exact product with [n] has the floor [i]. *)
Definition in_window (n i : Z) (r : Q) : Prop :=
  (inject_Z i <= r * inject_Z n)%Q ∧ (r * inject_Z n < inject_Z (i + 1))%Q.

(** Two nouns of the dictionary have different romanized forms. *)
Definition distinct_nouns (st : LanguageState) : Prop :=
  ∃ n1 n2, n1 ∈ by_pos "noun" (dictionary st) ∧ n2 ∈ by_pos "noun" (dictionary st) ∧
           roman n1 ≠ roman n2.

(** The objects the loop of lines 400-402 looks at, in turn: the one it
    starts with, then one per draw. *)
Definition candidate (nouns : list LexicalEntry) (object : LexicalEntry) (rnd : Rng)
    (i : nat) : LexicalEntry :=
  match i with
  | O => object
  | S i' => spread (at_ nouns (Qfloor (rnd i' * inject_Z (len nouns))))
  end.

(** The subject phrases lines 405-426 can build for [subject]: its
    romanized form alone, or with the form of an adjective on the side
    [adjectiveOrder] says. *)
Definition is_subject_phrase (st : LanguageState) (subject : LexicalEntry)
    (phrase : jsstring) : Prop :=
  phrase = ToString (roman subject) ∨
  ∃ adjective, adjective ∈ by_pos "adjective" (dictionary st) ∧
    let form := ToString (agree (morphoSyntax st) subject (roman adjective)) in
    phrase = if bool_decide (adjectiveOrder (morphoSyntax st) = str "AN")
             then form ++ str " " ++ ToString (roman subject)
             else ToString (roman subject) ++ str " " ++ form.

(** The sentence of the scenario: the three constituents in the order
    subject, object, verb, each with its suffix, and the period. *)
Definition sentence_SOV_suffix (phrase objectRoman verbRoman tenseMarker : jsstring)
  : jsstring :=
  phrase ++ str "-ga" ++ str " " ++ objectRoman ++ str "-wo" ++ str " " ++
  verbRoman ++ str "-" ++ tenseMarker ++ str ".".

(** The gloss that follows the sentence (line 455). *)
Definition gloss (humanReadableSubject verbMeaning tenseKey objectMeaning : jsstring)
  : jsstring :=
  str " ('The " ++ humanReadableSubject ++ str " " ++ verbMeaning ++ str " (" ++
  tenseKey ++ str ") the " ++ objectMeaning ++ str "')".

Definition scenario_SOV_suffix (st : LanguageState) : Prop :=
  caseMarking (morphoSyntax st) = str "suffix" ∧
  wordOrder (morphoSyntax st) = str "SOV" ∧
  subjectMarker (grammar st) = str "ga" ∧
  objectMarker (grammar st) = str "wo" ∧
  tenses (grammar st) ≠ [].

(** The test of line 400 on the copy of the [i]-th noun: it has the
    romanized form of [subject], and the loop draws again. *)
Definition shares_roman (st : LanguageState) (subject : LexicalEntry) (i : nat) : Prop :=
  roman (spread (by_pos "noun" (dictionary st) !! i)) = roman subject.

#[global] Instance shares_roman_dec st subject i : Decision (shares_roman st subject i) :=
  decide (roman (spread (by_pos "noun" (dictionary st) !! i)) = roman subject).

(** The sequences of [k] indices below [n]: the nouns that [k] successive
    draws can pick among [n]. *)
Fixpoint index_tuples (n k : nat) : list (list nat) :=
  match k with
  | O => [[]]
  | S k' => i ← seq 0 n; (cons i) <$> index_tuples n k'
  end.

(** The invariant of the loop of lines 286-311 on [newDictionary] and
    [generatedRomans]: the entries built so far have distinct romanized
    forms, all recorded in the set. *)
Definition roots_invariant (acc : list LexicalEntry * gset jsstring) : Prop :=
  NoDup (roman <$> acc.1) ∧ ∀ r, r ∈ roman <$> acc.1 → ∃ s, r = Some s ∧ s ∈ acc.2.

(** The invariant of the loop of lines 349-363 on a dictionary that
    started as [before]: the loanwords added have distinct romanized
    forms, none of them a form of [before]. *)
Definition loanwords_invariant (before dictionary : list LexicalEntry) : Prop :=
  ∃ loans, dictionary = before ++ loans ∧ NoDup (roman <$> (loans : list LexicalEntry)) ∧
           ∀ r, r ∈ roman <$> loans → r ∉ roman <$> before.

(** A computation that no stream of draws leaves without fuel. *)
Definition has_fuel {A : Type} (c : M A) : Prop := ∀ rnd, c rnd ≠ OutOfFuel.

End Notions.

(** * Notions of the further properties *)

Section SoundNotions.
Import Phonology.

(** What the loop of lines 104-110 may append for the template character
    [c]: a consonant for C, a vowel for V. *)
Definition slot_symbol (p : PhonologyState) (c : Z) (symbol : jsstring) : Prop :=
  (c = code "C" ∧ symbol ∈ consonants p) ∨ (c = code "V" ∧ symbol ∈ vowels p).

(** The characters of a template that the loop has a branch for. *)
Definition is_slot (c : Z) : Prop := c = code "C" ∨ c = code "V".

(** The tone counts for which U+2070 plus a tone index is a code point,
    whatever the draw. *)
Definition tone_in_range (t : Tones) : Prop :=
  tones_enabled t = true → -0x2071 ≤ tones_count t ≤ 0x10FFFF - 0x2070.

(** The random source whose every draw is [r]. *)
Definition constant_draws (r : Q) : Rng := fun _ => r.

(** A draw in [0,1) that gives the last tone index of a positive count,
    and the lowest one of a negative count. *)
Definition extreme_draw (count : Z) : Q :=
  if 0 <? count then (count - 1) # Z.to_pos count
  else (- 2 * count - 1) # Z.to_pos (- 2 * count).

(** The letters a to z, the keys of [soundMap]. *)
Definition is_letter (c : Z) : Prop := code "a" ≤ c ≤ code "z".

(** The inventory in which [assimilate] looks for the sound of the letter
    [c] (lines 162-189): the vowels for a, e, i, o and u, both inventories
    for y and w, the consonants for the other letters. *)
Definition inventory_of (p : PhonologyState) (c : Z) : list jsstring :=
  if bool_decide (c ∈ str "aeiou") then vowels p
  else if bool_decide (c ∈ str "yw") then consonants p ++ vowels p
  else consonants p.

(** The letters whose first candidate in [soundMap] is the letter itself. *)
Definition own_sound : jsstring := str "pbtdkgfvszmnlrhwaeiou".

End SoundNotions.

Section RuleNotions.

(** A character that stands for itself in a pattern, in a replacement and
    in the two fields of a rule: no syntax character of patterns, no
    white space, none of [>], [_], [V] and [$]. *)
Definition plain (c : Z) : Prop :=
  RegExp.is_syntax_char c = false ∧ is_whitespace c = false ∧
  c ≠ code ">" ∧ c ≠ code "_" ∧ c ≠ code "V" ∧ c ≠ code "$".

(** The word in which every [c] that stands before an [e] is replaced by
    [d]. *)
Fixpoint replace_before (c d e : Z) (word : jsstring) : jsstring :=
  match word with
  | [] => []
  | x :: rest =>
      (if (x =? c) && bool_decide (head rest = Some e) then d else x)
      :: replace_before c d e rest
  end.

End RuleNotions.

Section GenerationNotions.
Import Phonology MorphoSyntax Lexicon.







(** The entry has its word between slashes as [ipa], and the romanized
    form of that word as [roman]. *)
Definition romanized (w : LexicalEntry) : Prop :=
  ∃ x, ipa w = Some (str "/" ++ x ++ str "/") ∧ roman w = Some (romanize x).

End GenerationNotions.

Section PassNotions.
Import RegExp Phonology MorphoSyntax Lexicon.
Context {E : Engine}.

(** Lines 265-311 of [generate]: the meanings, then [newDictionary] with
    [generatedRomans]. *)
Definition generate_roots (st : LanguageState) : M (list LexicalEntry * gset jsstring) :=
  let rootCount := rootCount (lexicon st) in
  let* meaningsToGenerate :=
    select (Z.to_nat (rootCount * 2 + 2)) (semanticFields (lexicon st)) rootCount
      {| meaningsToGenerate := []; usedMeanings := ∅; fieldIndex := 0 |} in
  for_of (add_root st) meaningsToGenerate ([], ∅).

(** Lines 313-343: [derivedWords] for the roots [newDictionary]. *)
Definition generate_derivedWords (st : LanguageState) (newDictionary : list LexicalEntry)
  : M (list LexicalEntry) :=
  for_of (fun derivedWords morpheme => for_of (derive st morpheme) newDictionary derivedWords)
    (derivationalMorphemes (morphoSyntax st)) [].

(** Lines 347-364: the dictionary after the loanwords. *)
Definition generate_loanwords (st : LanguageState) (dictionary : list LexicalEntry)
  : M (list LexicalEntry) :=
  if loanwords_enabled (lexicon st) then
    let loanwordCount := Z.max 1 (Qfloor (inject_Z (rootCount (lexicon st)) * (5 # 100))) in
    for_of (add_loanword st) (seq 0 (Z.to_nat loanwordCount)) dictionary
  else ret dictionary.

(** In the call of [generate] on [rnd], the first loop built [roots], the
    second [derived] from them, and the third added [loans]. *)
Definition generate_passes (st : LanguageState) (rnd : Rng)
    (roots derived loans : list LexicalEntry) : Prop :=
  ∃ generatedRomans rnd1 rnd2 rnd3,
    generate_roots st rnd = Normal ((roots, generatedRomans), rnd1) ∧
    generate_derivedWords st roots rnd1 = Normal (derived, rnd2) ∧
    generate_loanwords st (roots ++ derived) rnd2 = Normal ((roots ++ derived) ++ loans, rnd3).

(** The entries that one morpheme derived from [roots]: at most one per
    root, each with the function of the morpheme as part of speech. *)
Definition derived_group (roots : list LexicalEntry) (morpheme : Morpheme)
    (group : list LexicalEntry) : Prop :=
  (length group ≤ length roots)%nat ∧ Forall (fun w => pos w = Some (func morpheme)) group.

End PassNotions.

Section SentenceNotions.
Import MorphoSyntax.

(** What lines 405-426 make of [subject]: its romanized form and its
    meaning; or, with an adjective of the dictionary, the form of the
    adjective and the form of the subject, on the side [adjectiveOrder]
    says, and the meaning of the adjective before the meaning of the
    subject. *)
Definition subject_and_gloss (st : LanguageState) (subject : LexicalEntry)
    (phrase human : jsstring) : Prop :=
  (phrase = ToString (roman subject) ∧ human = ToString (meaning subject)) ∨
  ∃ adjective, adjective ∈ by_pos "adjective" (dictionary st) ∧
    let form := ToString (agree (morphoSyntax st) subject (roman adjective)) in
    phrase = (if bool_decide (adjectiveOrder (morphoSyntax st) = str "AN")
              then form ++ str " " ++ ToString (roman subject)
              else ToString (roman subject) ++ str " " ++ form) ∧
    human = ToString (meaning adjective) ++ str " " ++ ToString (meaning subject).

(** The constituent [x] with its marker: after a hyphen for the suffix,
    before a hyphen for the prefix, after a space for the postposition. *)
Definition case_marked (caseMarking marker x marked : jsstring) : Prop :=
  (caseMarking = str "suffix" → marked = x ++ str "-" ++ marker) ∧
  (caseMarking = str "prefix" → marked = marker ++ str "-" ++ x) ∧
  (caseMarking = str "postposition" → marked = x ++ str " " ++ marker).

(** The three constituents in the order the three letters of [wordOrder]
    give, with a space between them. *)
Definition arranged (wordOrder s o v sentence : jsstring) : Prop :=
  (wordOrder = str "SOV" → sentence = s ++ str " " ++ o ++ str " " ++ v) ∧
  (wordOrder = str "SVO" → sentence = s ++ str " " ++ v ++ str " " ++ o) ∧
  (wordOrder = str "OSV" → sentence = o ++ str " " ++ s ++ str " " ++ v) ∧
  (wordOrder = str "OVS" → sentence = o ++ str " " ++ v ++ str " " ++ s) ∧
  (wordOrder = str "VSO" → sentence = v ++ str " " ++ s ++ str " " ++ o) ∧
  (wordOrder = str "VOS" → sentence = v ++ str " " ++ o ++ str " " ++ s).

End SentenceNotions.

Section InterfaceNotions.

(** A character that is not white space. *)
Definition black (c : Z) : Prop := is_whitespace c = false.

(** The string is empty, or its first and its last character are not
    white space. *)
Definition trimmed (s : jsstring) : Prop :=
  s = [] ∨ ∃ c d, head s = Some c ∧ last s = Some d ∧ black c ∧ black d.

(** Where a reader of comma-separated values (RFC 4180) is in a record:
    before a field, in a field without quotation marks, inside quotation
    marks, or after a quotation mark met inside them. *)
Inductive csv_mode : Type := field_start | bare | quoted | quote_seen.

(** The records read so far, the fields of the record being read and the
    characters of its field, each last first. *)
Record csv_reader : Type := {
  csv_records : list (list jsstring);
  csv_fields : list jsstring;
  csv_field : jsstring
}.

Definition push_char (c : Z) (r : csv_reader) : csv_reader :=
  {| csv_records := csv_records r; csv_fields := csv_fields r; csv_field := c :: csv_field r |}.

Definition end_field (r : csv_reader) : csv_reader :=
  {| csv_records := csv_records r;
     csv_fields := reverse (csv_field r) :: csv_fields r;
     csv_field := [] |}.

Definition end_record (r : csv_reader) : csv_reader :=
  {| csv_records := reverse (reverse (csv_field r) :: csv_fields r) :: csv_records r;
     csv_fields := [];
     csv_field := [] |}.

(** The records of a text: fields are separated by commas and records
    ended by line feeds; a field in quotation marks holds any character,
    a quotation mark written twice.  [None] is a text that is not well
    formed. *)
Fixpoint read_csv (mode : csv_mode) (r : csv_reader) (text : jsstring)
  : option (list (list jsstring)) :=
  match text with
  | [] =>
      match mode with
      | quoted => None
      | field_start =>
          if bool_decide (csv_fields r = []) then Some (reverse (csv_records r))
          else Some (reverse (csv_records (end_record r)))
      | _ => Some (reverse (csv_records (end_record r)))
      end
  | c :: rest =>
      match mode with
      | field_start =>
          if c =? 34 then read_csv quoted r rest
          else if c =? 44 then read_csv field_start (end_field r) rest
          else if c =? 10 then read_csv field_start (end_record r) rest
          else read_csv bare (push_char c r) rest
      | bare =>
          if c =? 34 then None
          else if c =? 44 then read_csv field_start (end_field r) rest
          else if c =? 10 then read_csv field_start (end_record r) rest
          else read_csv bare (push_char c r) rest
      | quoted =>
          if c =? 34 then read_csv quote_seen r rest
          else read_csv quoted (push_char c r) rest
      | quote_seen =>
          if c =? 34 then read_csv quoted (push_char c r) rest
          else if c =? 44 then read_csv field_start (end_field r) rest
          else if c =? 10 then read_csv field_start (end_record r) rest
          else None
      end
  end.

Definition parse_csv (text : jsstring) : option (list (list jsstring)) :=
  read_csv field_start {| csv_records := []; csv_fields := []; csv_field := [] |} text.

End InterfaceNotions.

(** * Concrete inputs *)

Section Inputs.

Definition example_phonology (consonants vowels syllableStructures : list string)
    (rules : list Rule) (tones : Tones) : PhonologyState := {|
  consonants := str <$> consonants;
  vowels := str <$> vowels;
  syllableStructures := str <$> syllableStructures;
  phonologicalRules := rules;
  tones := tones
|}.

Definition no_tones : Tones := {| tones_enabled := false; tones_count := 3 |}.

(** The tone settings of line 29-32, switched on. *)
Definition three_tones : Tones := {| tones_enabled := true; tones_count := 3 |}.

Definition ptk_aiu (syllableStructures : list string) (rules : list Rule) (tones : Tones)
  : PhonologyState :=
  example_phonology ["p"; "t"; "k"]%string ["a"; "i"; "u"]%string syllableStructures rules tones.

(** The rule of the scenario: n becomes m before p. *)
Definition n_to_m_before_p : Rule := {| from := str "n>m"; to := str "_p" |}.

(** A rule whose source, an opening parenthesis, does not compile. *)
Definition unclosed_group : Rule := {| from := str "(>x"; to := str "_" |}.

Definition default_morphoSyntax (morphemes : list Morpheme) : MorphoSyntaxState := {|
  wordOrder := str "SOV";
  adjectiveOrder := str "AN";
  caseMarking := str "suffix";
  irregularityRate := (5 # 100)%Q;
  derivationalMorphemes := morphemes;
  grammaticalGender := str "none";
  genderAgreement := false
|}.

Definition entry (ipa roman pos meaning : string) : LexicalEntry := {|
  ipa := Some (str ipa);
  roman := Some (str roman);
  pos := Some (str pos);
  meaning := Some (str meaning);
  gender := gender_null
|}.

Definition state_of (p : PhonologyState) (fields : list jsstring) (rootCount : Z)
    (morphemes : list Morpheme) (dictionary : list LexicalEntry) : LanguageState := {|
  phonology := p;
  lexicon := {| semanticFields := fields; rootCount := rootCount; loanwords_enabled := false |};
  morphoSyntax := default_morphoSyntax morphemes;
  dictionary := dictionary;
  grammar := initial_grammar
|}.

(** Two roots from the field "nature" on the templates CV and CVCV, and
    the suffix -ka. *)
Definition suffix_ka_state : LanguageState :=
  state_of (ptk_aiu ["CV"; "CVCV"]%string [] no_tones) [[0x81ea; 0x7136]] 2
    [{| type := str "suffix"; form := str "ka"; func := str "pl" |}] [].

Definition suffix_ka_draws : Rng :=
  draws [0; 0; 0; 0; 0; 0; 1 # 2; 0; 0; 7 # 10; 0; 4 # 10; 2 # 10; 9 # 10; 8 # 10]%Q.

(** A dictionary with two nouns and a verb. *)
Definition small_dictionary : list LexicalEntry :=
  [entry "/ta/" "ta" "noun" "sun"; entry "/ti/" "ti" "noun" "moon";
   entry "/pa/" "pa" "verb" "see"].

Definition small_state : LanguageState :=
  state_of (ptk_aiu ["CV"]%string [] no_tones) [] 0 [] small_dictionary.

Definition small_draws : Rng := draws [1 # 10; 6 # 10; 3 # 10; 5 # 10]%Q.

(** Two roots on the template CV with the single vowel a, and a morpheme
    that derives nouns. *)
Definition homophone_source : LanguageState :=
  state_of (example_phonology ["p"; "t"]%string ["a"]%string ["CV"]%string [] no_tones)
    [[0x81ea; 0x7136]] 2 [{| type := str "suffix"; form := str "x"; func := str "noun" |}] [].

Definition homophone_draws : Rng :=
  draws [0; 0; 0; 0; 0; 0; 0; 1 # 2; 0; 4 # 10; 2 # 10; 1 # 100; 0; 8 # 10]%Q.

(** A dictionary whose two nouns share one romanized form: the one
    [Lexicon.generate] returns on [homophone_source] and [homophone_draws]. *)
Definition homophone_dictionary : list LexicalEntry :=
  [entry "/pa/" "pa" "noun" "sun"; entry "/ta/" "ta" "verb" "moon";
   entry "/pa/" "pa" "noun" "sun (irregular noun)"].

Definition homophone_state : LanguageState :=
  state_of (phonology homophone_source) [[0x81ea; 0x7136]] 2
    (derivationalMorphemes (morphoSyntax homophone_source)) homophone_dictionary.

(** A dictionary with one noun and no verb. *)
Definition poor_state : LanguageState :=
  state_of (ptk_aiu ["CV"]%string [] no_tones) [] 0 [] [entry "/ta/" "ta" "noun" "sun"].

End Inputs.

Section FurtherInputs.

(** The inventories r d t / a i o, in which every letter of "radio" is a
    sound. *)
Definition rdt_aio : PhonologyState :=
  example_phonology ["r"; "d"; "t"]%string ["a"; "i"; "o"]%string ["CV"]%string [] no_tones.


(** The suffix -ka of [suffix_ka_state]. *)
Definition suffix_ka : Morpheme := {| type := str "suffix"; form := str "ka"; func := str "pl" |}.

(** [suffix_ka_state] with the loanwords on. *)
Definition loanwords_state : LanguageState := {|
  phonology := phonology suffix_ka_state;
  lexicon := {| semanticFields := semanticFields (lexicon suffix_ka_state);
                rootCount := 2;
                loanwords_enabled := true |};
  morphoSyntax := morphoSyntax suffix_ka_state;
  dictionary := [];
  grammar := initial_grammar
|}.

(** [small_state] with an adjective, the object first and postpositions. *)
Definition postposition_OVS_state : LanguageState := {|
  phonology := phonology small_state;
  lexicon := lexicon small_state;
  morphoSyntax := {|
    wordOrder := str "OVS";
    adjectiveOrder := str "NA";
    caseMarking := str "postposition";
    irregularityRate := (5 # 100)%Q;
    derivationalMorphemes := [];
    grammaticalGender := str "none";
    genderAgreement := false
  |};
  dictionary := small_dictionary ++ [entry "/ku/" "ku" "adjective" "big"];
  grammar := initial_grammar
|}.

(** Draws that take the second noun as subject, the first as object, and
    the adjective. *)
Definition adjective_draws : Rng := draws [6 # 10; 1 # 10; 0; 7 # 10; 0; 5 # 10]%Q.

End FurtherInputs.

(** Evaluate the literals of a goal on strings and flatten its
    concatenations. *)
Ltac literals :=
  repeat match goal with
         | |- context [str ?s] =>
             let v := eval vm_compute in (str s) in change (str s) with v
         end;
  cbn [fmap list_fmap join_space default MorphoSyntax.component Z.eqb Pos.eqb code ToString];
  repeat (rewrite <- app_assoc; cbn [app]).

(** * Properties *)

(** ** Romanization *)

Section Romanize.
Import Phonology.

Lemma romanize_cons c s : romanize (c :: s) = romanize_char c ++ romanize s.
Proof. reflexivity. Qed.

Lemma romanize_app s1 s2 : romanize (s1 ++ s2) = romanize s1 ++ romanize s2.
Proof. unfold romanize, join_empty. by rewrite fmap_app, concat_app. Qed.

Lemma ipaToRomanMap_Some c v :
  ipaToRomanMap !! c = Some v → (c, v) ∈ ipaToRomanTable.
Proof. apply elem_of_list_to_map_2. Qed.

(** Every value of the table but the one of U+02A4 is a non-empty string
    that romanizes to itself. *)
Lemma table_values_fixed :
  Forall (fun kv => kv.1 ≠ 0x2a4 → truthy kv.2 = true ∧ romanize kv.2 = kv.2) ipaToRomanTable.
Proof. apply (bool_decide_unpack _). vm_compute. exact I. Qed.

(** No value of the table romanizes to a text with the letter j. *)
Lemma table_values_no_j :
  Forall (fun kv => truthy kv.2 = true ∧ code "j" ∉ romanize kv.2) ipaToRomanTable.
Proof. apply (bool_decide_unpack _). vm_compute. exact I. Qed.

Lemma romanize_char_absent c : ipaToRomanMap !! c = None → romanize_char c = [c].
Proof. intros H. unfold romanize_char. by rewrite H. Qed.

Lemma romanize_char_fixed c :
  c ≠ 0x2a4 → romanize (romanize_char c) = romanize_char c.
Proof.
  intros Hc. destruct (ipaToRomanMap !! c) as [v|] eqn:Hv.
  - unfold romanize_char at 1 2. rewrite Hv.
    apply ipaToRomanMap_Some in Hv.
    destruct (proj1 (Forall_forall _ _) table_values_fixed _ Hv Hc) as [Ht Hr].
    simpl in Ht, Hr. by rewrite Ht.
  - rewrite (romanize_char_absent c Hv), romanize_cons, (romanize_char_absent c Hv).
    reflexivity.
Qed.

Lemma romanize_char_twice_no_j c : code "j" ∉ romanize (romanize_char c).
Proof.
  destruct (ipaToRomanMap !! c) as [v|] eqn:Hv.
  - unfold romanize_char. rewrite Hv.
    apply ipaToRomanMap_Some in Hv.
    destruct (proj1 (Forall_forall _ _) table_values_no_j _ Hv) as [Ht Hr].
    simpl in Ht, Hr. by rewrite Ht.
  - rewrite (romanize_char_absent c Hv), romanize_cons, (romanize_char_absent c Hv).
    simpl. intros Hin. apply list_elem_of_singleton in Hin. subst c.
    vm_compute in Hv. discriminate.
Qed.

Lemma romanize_twice_no_j s : code "j" ∉ romanize (romanize s).
Proof.
  induction s as [|c s IH]; [by apply not_elem_of_nil|].
  rewrite romanize_cons, romanize_app, elem_of_app.
  intros [H|H]; [by apply (romanize_char_twice_no_j c)|done].
Qed.

Lemma romanize_has_j s : 0x2a4 ∈ s → code "j" ∈ romanize s.
Proof.
  induction s as [|c s IH]; [by intros ?%elem_of_nil|].
  rewrite elem_of_cons, romanize_cons, elem_of_app. intros [<-|H].
  - left. vm_compute. apply list_elem_of_here.
  - right. by apply IH.
Qed.

Lemma romanize_idempotent_iff s :
  romanize (romanize s) = romanize s ↔ 0x2a4 ∉ s.
Proof.
  split.
  - intros Heq Hin. apply (romanize_twice_no_j s). rewrite Heq.
    by apply romanize_has_j.
  - induction s as [|c s IH]; [done|].
    rewrite not_elem_of_cons. intros [Hc Hs].
    rewrite romanize_cons, romanize_app, (romanize_char_fixed c) by done.
    by rewrite IH.
Qed.

Lemma romanize_absent s :
  (∀ c, c ∈ s → ipaToRomanMap !! c = None) → romanize s = s.
Proof.
  induction s as [|c s IH]; [done|]. intros H.
  rewrite romanize_cons, romanize_char_absent by (apply H; left).
  simpl. f_equal. apply IH. intros d Hd. apply H. by right.
Qed.

End Romanize.

(** C9, as stated, fails: U+02A4 romanizes to "j", and "j" romanizes to
    "y", so romanizing twice is not romanizing once on the one-character
    string U+02A4. *)
Lemma romanize_twice_counterexample :
  Phonology.romanize (Phonology.romanize [0x2a4]) = str "y" ∧
  Phonology.romanize [0x2a4] = str "j" ∧
  Phonology.romanize (Phonology.romanize [0x2a4]) ≠ Phonology.romanize [0x2a4].
Proof. split; [|split]; vm_compute; [reflexivity | reflexivity | discriminate]. Qed.

(** C9 (amended). [romanize] is a function of its argument alone; it
    returns unchanged every string whose characters are all absent from the
    table, so it is idempotent on them; and romanize(romanize(s)) =
    romanize(s) holds exactly for the strings [s] without the character
    U+02A4. *)
Theorem romanize_idempotent_without_dezh (s : jsstring) :
  (∀ s', s' = s → Phonology.romanize s' = Phonology.romanize s) ∧
  ((∀ c, c ∈ s → Phonology.ipaToRomanMap !! c = None) →
   Phonology.romanize s = s ∧
   Phonology.romanize (Phonology.romanize s) = Phonology.romanize s) ∧
  (0x2a4 ∉ s ↔ Phonology.romanize (Phonology.romanize s) = Phonology.romanize s).
Proof.
  split; [by intros s' ->|]. split.
  - intros Habsent. rewrite !(romanize_absent s Habsent). done.
  - symmetry. apply romanize_idempotent_iff.
Qed.

Lemma romanize_idempotent_without_dezh_witness :
  (0x2a4 ∉ [0x283; 97; 106; 0x14b]) ∧
  (Phonology.romanize (Phonology.romanize [0x283; 97; 106; 0x14b]) =
   Phonology.romanize [0x283; 97; 106; 0x14b]).
Proof.
  assert (0x2a4 ∉ [0x283; 97; 106; 0x14b]) as Hno.
  { apply (bool_decide_unpack _). vm_compute. exact I. }
  split; [exact Hno|].
  exact (proj1 (proj2 (proj2 (romanize_idempotent_without_dezh [0x283; 97; 106; 0x14b]))) Hno).
Defined.

(** ** The random source *)

Section Draws.

Lemma unit_draws_advance n rnd : unit_draws rnd → unit_draws (advance n rnd).
Proof. intros H k. apply H. Qed.

Lemma unit_draws_draws l :
  Forall (fun q => (0 <= q)%Q ∧ (q < 1)%Q) l → unit_draws (draws l).
Proof.
  intros Hl n. unfold draws. revert n.
  induction Hl as [|q l Hq _ IH]; intros [|n]; simpl; done.
Qed.

(** With a draw in [0,1), [Math.floor(Math.random() * n)] is an index below
    a positive [n]. *)
Lemma Qfloor_unit_range (r : Q) (n : Z) :
  (0 <= r)%Q → (r < 1)%Q → 0 < n → 0 ≤ Qfloor (r * inject_Z n) < n.
Proof.
  intros H0 H1 Hn. split.
  - change 0 with (Qfloor 0). apply Qfloor_resp_le.
    apply Qmult_le_0_compat; [done|]. change 0%Q with (inject_Z 0). rewrite <- Zle_Qle. lia.
  - rewrite Zlt_Qlt. eapply Qle_lt_trans; [apply Qfloor_le|].
    rewrite <- (Qmult_1_l (inject_Z n)) at 2.
    apply Qmult_lt_compat_r; [|done].
    change 0%Q with (inject_Z 0). rewrite <- Zlt_Qlt. lia.
Qed.

Lemma random_element_run {A} (arr : list A) rnd :
  random_element arr rnd =
  Normal (at_ arr (Qfloor (rnd 0%nat * inject_Z (len arr))), advance 1 rnd).
Proof. reflexivity. Qed.

Lemma at_in_range {A} (arr : list A) i :
  0 ≤ i < len arr → ∃ x, at_ arr i = Some x ∧ x ∈ arr.
Proof.
  intros [Hi Hl]. unfold at_, len in *.
  destruct (Z.ltb_spec i 0); [lia|].
  destruct (lookup_lt_is_Some_2 arr (Z.to_nat i)) as [x Hx]; [lia|].
  exists x. split; [done|]. by eapply list_elem_of_lookup_2.
Qed.

(** A draw in [0,1) picks an element of a non-empty array. *)
Lemma random_element_unit {A} (arr : list A) rnd :
  unit_draws rnd → arr ≠ [] →
  ∃ x, x ∈ arr ∧ random_element arr rnd = Normal (Some x, advance 1 rnd).
Proof.
  intros Hr Harr. rewrite random_element_run.
  destruct (at_in_range arr (Qfloor (rnd 0%nat * inject_Z (len arr)))) as (x & -> & Hx).
  - apply Qfloor_unit_range; [apply Hr..|]. unfold len. destruct arr; [done|simpl; lia].
  - by exists x.
Qed.

End Draws.

(** Close [unit_draws (draws l)] for a list [l] of literals. *)
Ltac unit_draws_literals :=
  apply unit_draws_draws;
  repeat (apply Forall_cons_2; [split; [unfold Qle | unfold Qlt]; simpl; lia|]);
  apply Forall_nil_2.

(** ** Word synthesis *)

Section Synthesis.
Import RegExp Phonology.

Lemma slot_length p word c rnd :
  unit_draws rnd → consonants p ≠ [] → vowels p ≠ [] → single_characters p →
  c = code "C" ∨ c = code "V" →
  ∃ word', slot p word c rnd = Normal (word', advance 1 rnd) ∧
           length word' = S (length word).
Proof.
  intros Hr Hc Hv Hone [-> | ->]; unfold slot.
  - rewrite Z.eqb_refl. unfold bind at 1.
    destruct (random_element_unit (consonants p) rnd Hr Hc) as (x & Hx & ->).
    eexists; split; [reflexivity|].
    rewrite length_app. simpl. rewrite (Hone x); [lia|]. apply elem_of_app; by left.
  - change (code "V" =? code "C") with false. rewrite Z.eqb_refl. unfold bind at 1.
    destruct (random_element_unit (vowels p) rnd Hr Hv) as (x & Hx & ->).
    eexists; split; [reflexivity|].
    rewrite length_app. simpl. rewrite (Hone x); [lia|]. apply elem_of_app; by right.
Qed.

Lemma for_of_slot_length p structure : ∀ word rnd,
  unit_draws rnd → consonants p ≠ [] → vowels p ≠ [] → single_characters p →
  (∀ c, c ∈ structure → c = code "C" ∨ c = code "V") →
  ∃ word' rnd', for_of (slot p) structure word rnd = Normal (word', rnd') ∧
                unit_draws rnd' ∧
                length word' = (length word + length structure)%nat.
Proof.
  induction structure as [|c structure IH]; intros word rnd Hr Hc Hv Hone Hcv.
  - exists word, rnd. simpl. split; [done|]. split; [done|lia].
  - destruct (slot_length p word c rnd Hr Hc Hv Hone) as (w1 & Hrun & Hlen).
    { apply Hcv. by left. }
    destruct (IH w1 (advance 1 rnd)) as (w2 & rnd2 & Hrun2 & Hr2 & Hlen2); try done.
    { by apply unit_draws_advance. }
    { intros d Hd. apply Hcv. by right. }
    exists w2, rnd2. split; [|split; [done|]].
    + simpl. unfold bind at 1. by rewrite Hrun.
    + rewrite Hlen2, Hlen. simpl. lia.
Qed.

Lemma buildWord_length p structure rnd :
  unit_draws rnd → consonants p ≠ [] → vowels p ≠ [] → single_characters p →
  (∀ c, c ∈ structure → c = code "C" ∨ c = code "V") →
  ∃ word rnd', buildWord p structure rnd = Normal (word, rnd') ∧ unit_draws rnd' ∧
               length word = length structure.
Proof.
  intros Hr Hc Hv Hone Hcv.
  destruct (for_of_slot_length p structure [] rnd) as (w & rnd' & ? & ? & ?); try done.
  by exists w, rnd'.
Qed.

Lemma synthesize_length p rnd :
  unit_draws rnd → consonants p ≠ [] → vowels p ≠ [] → syllableStructures p ≠ [] →
  templates_over_CV p → single_characters p →
  ∃ structure word rnd',
    synthesize p rnd = Normal ((structure, word), rnd') ∧ unit_draws rnd' ∧
    structure ∈ syllableStructures p ∧ length word = length structure.
Proof.
  intros Hr Hc Hv Hs Hcv Hone.
  destruct (random_element_unit (syllableStructures p) rnd Hr Hs) as (st & Hst & Hrun).
  destruct (buildWord_length p st (advance 1 rnd)) as (w & rnd' & Hb & Hr' & Hlen); try done.
  { by apply unit_draws_advance. }
  { intros c. by apply Hcv. }
  exists st, w, rnd'. split; [|done].
  unfold synthesize, bind. rewrite Hrun, Hb. reflexivity.
Qed.

End Synthesis.

(** C2, as stated, fails on a template with a symbol other than C and V,
    which the loop skips (the preset of line 696 has the template CVN), and
    on an inventory symbol of more than one character. *)
Lemma synthesize_length_counterexample :
  unit_draws (draws []) ∧
  outcome (Phonology.synthesize
             (example_phonology ["p"]%string ["a"]%string ["CVN"]%string [] no_tones) (draws []))
  = Normal (str "CVN", str "pa") ∧
  outcome (Phonology.synthesize
             (example_phonology ["ts"]%string ["a"]%string ["CV"]%string [] no_tones) (draws []))
  = Normal (str "CV", str "tsa") ∧
  length (str "pa") ≠ length (str "CVN") ∧ length (str "tsa") ≠ length (str "CV").
Proof.
  split; [unit_draws_literals|].
  split; [vm_compute; reflexivity|]. split; [vm_compute; reflexivity|].
  split; vm_compute; lia.
Qed.

(** C2 (amended). When the inventories and the template set are not empty,
    every template is a string over C and V and every inventory symbol is
    one character, then for every draws the word built (before rules and
    tone) on the template drawn has as many characters as the template;
    and so has the word built on any template of the set. *)
Theorem synthesize_length_CV (p : PhonologyState) (rnd : Rng) :
  unit_draws rnd →
  consonants p ≠ [] → vowels p ≠ [] → syllableStructures p ≠ [] →
  templates_over_CV p → single_characters p →
  (∃ structure word rnd',
      Phonology.synthesize p rnd = Normal ((structure, word), rnd') ∧
      structure ∈ syllableStructures p ∧ length word = length structure) ∧
  (∀ structure, structure ∈ syllableStructures p →
      ∃ word rnd', Phonology.buildWord p structure rnd = Normal (word, rnd') ∧
                   length word = length structure).
Proof.
  intros Hr Hc Hv Hs Hcv Hone. split.
  - destruct (synthesize_length p rnd) as (st & w & rnd' & ? & _ & ? & ?); try done.
    by exists st, w, rnd'.
  - intros structure Hin.
    destruct (buildWord_length p structure rnd) as (w & rnd' & ? & _ & ?); try done.
    { intros c. by apply Hcv. }
    by exists w, rnd'.
Qed.

Lemma synthesize_length_CV_witness :
  ∃ structure word rnd',
    Phonology.synthesize (ptk_aiu ["CV"; "CVC"]%string [] no_tones)
      (draws [6 # 10; 1 # 10; 5 # 10; 9 # 10]%Q)
    = Normal ((structure, word), rnd') ∧
    structure ∈ syllableStructures (ptk_aiu ["CV"; "CVC"]%string [] no_tones) ∧
    length word = length structure.
Proof.
  apply (synthesize_length_CV (ptk_aiu ["CV"; "CVC"]%string [] no_tones)
           (draws [6 # 10; 1 # 10; 5 # 10; 9 # 10]%Q)).
  - unit_draws_literals.
  - discriminate.
  - discriminate.
  - discriminate.
  - intros structure c Hs Hc.
    repeat (apply elem_of_cons in Hs as [->|Hs]);
      [..|by apply elem_of_nil in Hs];
      repeat (apply elem_of_cons in Hc as [->|Hc]);
      try (by apply elem_of_nil in Hc); (by left) || (by right).
  - intros x Hx.
    repeat (apply elem_of_cons in Hx as [->|Hx]); [..|by apply elem_of_nil in Hx];
      reflexivity.
Defined.

(** ** Empty inventories, tones and rules *)

Section Words.
Import RegExp Phonology.

Lemma generateWord_empty {E : Engine} p rnd :
  consonants p = [] ∨ vowels p = [] ∨ syllableStructures p = [] →
  generateWord p rnd = Normal (None, rnd).
Proof.
  intros Hempty. unfold generateWord.
  destruct Hempty as [-> | [-> | ->]]; simpl; rewrite ?orb_true_r; reflexivity.
Qed.

(** With tones on and a count from 1 to 9, one code point is appended:
    U+2070 plus a tone index between 1 and the count. *)
Lemma addTone_marker t word rnd :
  tones_enabled t = true → 1 ≤ tones_count t ≤ 9 → unit_draws rnd →
  ∃ tone, 1 ≤ tone ≤ tones_count t ∧
          addTone t word rnd = Normal (word ++ [0x2070 + tone], advance 1 rnd).
Proof.
  intros Hon Hcount Hr. unfold addTone. rewrite Hon.
  pose proof (Qfloor_unit_range (rnd 0%nat) (tones_count t)
                (proj1 (Hr 0%nat)) (proj2 (Hr 0%nat))) as Hrange.
  exists (Qfloor (rnd 0%nat * inject_Z (tones_count t)) + 1). split; [lia|].
  unfold bind, floor_random_times, bind, Math_random, ret, fromCodePoint.
  set (q := Qfloor _) in *.
  replace ((0 <=? 0x2070 + (q + 1)) && (0x2070 + (q + 1) <=? 1114111)) with true; [done|].
  symmetry. apply andb_true_intro. split; apply Z.leb_le; lia.
Qed.

(** U+2070 plus a tone index is a key of the romanization table for the
    indices 4 to 9 only: the superscripts of 1, 2 and 3 are U+00B9, U+00B2
    and U+00B3. *)
Lemma tone_marker_in_table tone :
  1 ≤ tone ≤ 9 →
  ipaToRomanMap !! (0x2070 + tone) =
  if tone <? 4 then None else Some [0x2070 + tone].
Proof.
  intros Htone.
  assert (tone ∈ [1; 2; 3; 4; 5; 6; 7; 8; 9]) as Hin.
  { assert (tone = 1 ∨ tone = 2 ∨ tone = 3 ∨ tone = 4 ∨ tone = 5 ∨ tone = 6 ∨
            tone = 7 ∨ tone = 8 ∨ tone = 9) as Hcases by lia.
    repeat (destruct Hcases as [->|Hcases]; [apply (bool_decide_unpack _); exact I|]).
    subst tone. apply (bool_decide_unpack _). exact I. }
  clear Htone. revert tone Hin. apply Forall_forall.
  apply (bool_decide_unpack _). vm_compute. exact I.
Qed.

Lemma applyPhonologicalRules_app {E : Engine} p rules1 rules2 word :
  applyPhonologicalRules (with_rules p (rules1 ++ rules2)) word =
  applyPhonologicalRules (with_rules p rules2)
    (applyPhonologicalRules (with_rules p rules1) word).
Proof. unfold applyPhonologicalRules. simpl. apply foldl_app. Qed.

Lemma applyRule_malformed {E : Engine} vowels rule word :
  compile (rule_source vowels rule).1 = None → applyRule vowels word rule = word.
Proof.
  unfold applyRule. destruct (rule_source vowels rule) as [source replacement].
  simpl. by intros ->.
Qed.

Lemma applyPhonologicalRules_skip {E : Engine} p rules1 bad rules2 word :
  compile (rule_source (vowels p) bad).1 = None →
  applyPhonologicalRules (with_rules p (rules1 ++ bad :: rules2)) word =
  applyPhonologicalRules (with_rules p (rules1 ++ rules2)) word.
Proof.
  intros Hbad. rewrite !applyPhonologicalRules_app.
  change (bad :: rules2) with ([bad] ++ rules2). rewrite applyPhonologicalRules_app.
  f_equal. unfold applyPhonologicalRules at 1. simpl.
  by apply applyRule_malformed.
Qed.

(** X6. For every regular-expression engine: applying a list of rules
    gives the same word as applying only those of its rules whose source
    compiles, in the same order; the rules that [new RegExp] rejects (the
    exception is caught on line 138) change nothing, wherever they stand
    in the list. *)
Lemma applyPhonologicalRules_filter {E : Engine} p rules word :
  applyPhonologicalRules (with_rules p rules) word =
  applyPhonologicalRules
    (with_rules p (filter (fun rule => is_Some (compile (rule_source (vowels p) rule).1)) rules))
    word.
Proof.
  unfold applyPhonologicalRules. simpl. revert word.
  induction rules as [|rule rules IH]; intros word; [done|].
  rewrite filter_cons. destruct (decide _) as [Hok|Hbad]; simpl.
  - apply IH.
  - rewrite applyRule_malformed; [apply IH|].
    destruct (compile _); [|done]. by destruct Hbad.
Qed.

End Words.

(** C8. When the consonant inventory, the vowel inventory or the template
    set is empty, [generateWord] returns [null]: it completes normally (it
    does not throw), it draws nothing, and its value is not a string. *)
Theorem generateWord_null_on_empty (E : RegExp.Engine) (p : PhonologyState) (rnd : Rng) :
  consonants p = [] ∨ vowels p = [] ∨ syllableStructures p = [] →
  Phonology.generateWord p rnd = Normal (None, rnd) ∧
  ∀ word, outcome (Phonology.generateWord p rnd) ≠ Normal (Some word).
Proof.
  intros Hempty. rewrite generateWord_empty by done.
  split; [done|]. intros word. simpl. discriminate.
Qed.

Lemma generateWord_null_on_empty_witness :
  consonants (example_phonology [] ["a"]%string ["CV"]%string [] no_tones) = [] ∧
  Phonology.generateWord (E := RegExp.Fragment)
    (example_phonology [] ["a"]%string ["CV"]%string [] no_tones) (draws [(1 # 2)%Q])
  = Normal (None, draws [(1 # 2)%Q]).
Proof.
  split; [reflexivity|].
  apply (generateWord_null_on_empty RegExp.Fragment
           (example_phonology [] ["a"]%string ["CV"]%string [] no_tones) (draws [(1 # 2)%Q])).
  left. reflexivity.
Defined.

(** C3 fails on the code for the tone indices 1, 2 and 3.  With tones on
    and the count 3 of the initial state, the marker appended for the tone
    index 1 is U+2071 (for 2, U+2072; for 3, U+2073), while the superscript
    numerals of the romanization table are U+00B9, U+00B2 and U+00B3; the
    three markers are not keys of the table.  (From 4 to 9 the marker is
    the glyph of the table: [tone_marker_in_table].) *)
Theorem tone_marker_is_not_superscript_numeral :
  outcome (Phonology.generateWord (E := RegExp.Fragment) (ptk_aiu ["CV"]%string [] three_tones)
             (draws [0; 0; 0; 1 # 10]%Q)) = Normal (Some (str "pa" ++ [0x2071])) ∧
  outcome (Phonology.generateWord (E := RegExp.Fragment) (ptk_aiu ["CV"]%string [] three_tones)
             (draws [0; 0; 0; 5 # 10]%Q)) = Normal (Some (str "pa" ++ [0x2072])) ∧
  outcome (Phonology.generateWord (E := RegExp.Fragment) (ptk_aiu ["CV"]%string [] three_tones)
             (draws [0; 0; 0; 9 # 10]%Q)) = Normal (Some (str "pa" ++ [0x2073])) ∧
  Phonology.ipaToRomanMap !! 0x2071 = None ∧
  Phonology.ipaToRomanMap !! 0x2072 = None ∧
  Phonology.ipaToRomanMap !! 0x2073 = None ∧
  Phonology.ipaToRomanMap !! 0xb9 = Some [0xb9] ∧
  Phonology.ipaToRomanMap !! 0xb2 = Some [0xb2] ∧
  Phonology.ipaToRomanMap !! 0xb3 = Some [0xb3].
Proof. repeat split; vm_compute; reflexivity. Qed.

(** C4. Rules compose sequentially: applying a list of rules is applying
    its first part and then its second part to the result, so each rule
    works on what the rules before it produced; the rule n>m in the context
    _p turns "anpa" into "ampa" with the vowel inventory [a]; and after
    a>b the rule b>c turns "a" into "c", though b>c alone leaves "a". *)
Theorem rules_compose_sequentially :
  (∀ (E : RegExp.Engine) p rules1 rules2 word,
      Phonology.applyPhonologicalRules (with_rules p (rules1 ++ rules2)) word =
      Phonology.applyPhonologicalRules (with_rules p rules2)
        (Phonology.applyPhonologicalRules (with_rules p rules1) word)) ∧
  (∀ (E : RegExp.Engine) p rule rules word,
      Phonology.applyPhonologicalRules (with_rules p (rule :: rules)) word =
      Phonology.applyPhonologicalRules (with_rules p rules)
        (Phonology.applyRule (vowels p) word rule)) ∧
  Phonology.applyPhonologicalRules (E := RegExp.Fragment)
    (example_phonology [] ["a"]%string [] [n_to_m_before_p] no_tones) (str "anpa")
  = str "ampa" ∧
  Phonology.applyPhonologicalRules (E := RegExp.Fragment)
    (example_phonology [] ["a"]%string []
       [{| from := str "a>b"; to := str "_" |}; {| from := str "b>c"; to := str "_" |}] no_tones)
    (str "a")
  = str "c" ∧
  Phonology.applyPhonologicalRules (E := RegExp.Fragment)
    (example_phonology [] ["a"]%string [] [{| from := str "b>c"; to := str "_" |}] no_tones)
    (str "a")
  = str "a".
Proof.
  split; [intros; apply applyPhonologicalRules_app|].
  split; [reflexivity|].
  repeat split; vm_compute; reflexivity.
Qed.

(** More runs of the rule engine: the spaces of "n > m" are trimmed; V in
    the context stands for the class of the vowels; a rule without ">" has
    the replacement [undefined], which is written out; an empty replacement
    deletes. *)
Lemma applyPhonologicalRules_examples :
  let apply rule word :=
    Phonology.applyPhonologicalRules (E := RegExp.Fragment)
      (example_phonology [] ["a"; "i"]%string [] [rule] no_tones) (str word) in
  apply {| from := str "n > m"; to := str "_p" |} "anpan"%string = str "ampan" ∧
  apply {| from := str "t>d"; to := str "V_V" |} "atatita"%string = str "adadida" ∧
  apply {| from := str "t"; to := str "x" |} "ata"%string = str "aundefineda" ∧
  apply {| from := str "a>"; to := str "_#" |} "ata#"%string = str "at#".
Proof. repeat split; vm_compute; reflexivity. Qed.

(** C5. A rule whose source does not compile leaves the word as it is, and
    applying a list with such a rule equals applying the list without it:
    the rules after it are applied all the same.  Rule application is a
    total function to strings, so nothing is thrown. *)
Theorem malformed_rule_is_skipped (E : RegExp.Engine) (p : PhonologyState)
    (rules1 : list Rule) (bad : Rule) (rules2 : list Rule) (word : jsstring) :
  RegExp.compile (Phonology.rule_source (vowels p) bad).1 = None →
  Phonology.applyRule (vowels p) word bad = word ∧
  Phonology.applyPhonologicalRules (with_rules p (rules1 ++ bad :: rules2)) word =
  Phonology.applyPhonologicalRules (with_rules p (rules1 ++ rules2)) word.
Proof.
  intros Hbad. split.
  - by apply applyRule_malformed.
  - by apply applyPhonologicalRules_skip.
Qed.

Lemma malformed_rule_is_skipped_witness :
  RegExp.compile (Engine := RegExp.Fragment)
    (Phonology.rule_source (vowels (example_phonology [] ["a"]%string [] [] no_tones))
       unclosed_group).1 = None ∧
  Phonology.applyPhonologicalRules (E := RegExp.Fragment)
    (with_rules (example_phonology [] ["a"]%string [] [] no_tones)
       ([n_to_m_before_p] ++ unclosed_group :: [{| from := str "p>b"; to := str "_a" |}]))
    (str "anpa")
  = Phonology.applyPhonologicalRules (E := RegExp.Fragment)
      (with_rules (example_phonology [] ["a"]%string [] [] no_tones)
         ([n_to_m_before_p] ++ [{| from := str "p>b"; to := str "_a" |}]))
      (str "anpa").
Proof.
  split; [vm_compute; reflexivity|].
  apply (malformed_rule_is_skipped RegExp.Fragment
           (example_phonology [] ["a"]%string [] [] no_tones)
           [n_to_m_before_p] unclosed_group [{| from := str "p>b"; to := str "_a" |}]
           (str "anpa")).
  vm_compute. reflexivity.
Defined.

(** ** Sentence composition *)

Section Sentences.
Import MorphoSyntax.

Lemma generateSentence_insufficient fuel st rnd :
  ¬ enough_vocabulary st → generateSentence fuel st rnd = Normal (insufficient, rnd).
Proof.
  intros Hfew. unfold generateSentence, enough_vocabulary, len in *.
  destruct (Z.ltb_spec (Z.of_nat (length (by_pos "noun" (dictionary st)))) 2); [done|].
  destruct (Z.ltb_spec (Z.of_nat (length (by_pos "verb" (dictionary st)))) 1); [done|].
  exfalso. apply Hfew. lia.
Qed.

Lemma generateSentence_enough fuel st rnd :
  enough_vocabulary st →
  generateSentence fuel st rnd =
  bind (redraw_object fuel (by_pos "noun" (dictionary st)) (noun_drawn st (rnd 0%nat))
          (noun_drawn st (rnd 1%nat)))
       (compose st (noun_drawn st (rnd 0%nat))) (advance 2 rnd).
Proof.
  intros [Hn Hv]. unfold generateSentence, len.
  destruct (Z.ltb_spec (Z.of_nat (length (by_pos "noun" (dictionary st)))) 2); [lia|].
  destruct (Z.ltb_spec (Z.of_nat (length (by_pos "verb" (dictionary st)))) 1); [lia|].
  reflexivity.
Qed.

Lemma subject_phrase_inv st subject rnd :
  unit_draws rnd →
  ∃ phrase human rnd',
    subject_phrase (morphoSyntax st) (by_pos "adjective" (dictionary st)) subject rnd
    = Normal ((phrase, human), rnd') ∧
    unit_draws rnd' ∧ is_subject_phrase st subject (ToString phrase).
Proof.
  intros Hr. unfold subject_phrase.
  destruct (Z.ltb_spec 0 (len (by_pos "adjective" (dictionary st)))) as [Hadj|Hadj].
  2: { eexists _, _, _. split; [reflexivity|]. split; [done|by left]. }
  unfold bind at 1, Math_random.
  destruct (Qlt_le_dec (1 # 2) (rnd 0%nat)).
  2: { eexists _, _, _. split; [reflexivity|].
       split; [by apply unit_draws_advance|by left]. }
  unfold bind at 1.
  destruct (random_element_unit (by_pos "adjective" (dictionary st)) (advance 1 rnd))
    as (adjective & Hin & ->).
  { by apply unit_draws_advance. }
  { intros Hnil. rewrite Hnil in Hadj. unfold len in Hadj. simpl in Hadj. lia. }
  eexists _, _, _. split; [reflexivity|].
  split; [by do 2 apply unit_draws_advance|].
  right. exists adjective. split; [done|]. simpl.
  by destruct (bool_decide (adjectiveOrder (morphoSyntax st) = str "AN")).
Qed.

Lemma compose_total st subject object rnd :
  unit_draws rnd → ∃ s rnd', compose st subject object rnd = Normal (s, rnd').
Proof.
  intros Hr. unfold compose. unfold bind at 1. rewrite random_element_run.
  unfold bind at 1.
  destruct (subject_phrase_inv st subject (advance 1 rnd))
    as (phrase & human & rnd1 & -> & _); [by apply unit_draws_advance|].
  unfold bind at 1. rewrite random_element_run. by eexists _, _.
Qed.

Lemma tense_marker_in tenses key marker :
  tense_marker tenses (Some key) = Some marker → (key, marker) ∈ tenses.
Proof.
  unfold tense_marker.
  destruct (List.find _ tenses) as [[k m]|] eqn:Hfind; [|done].
  apply find_some in Hfind as [Hin Hk]. apply bool_decide_eq_true in Hk.
  simpl in *. intros [= <-]. subst k. by apply list_elem_of_In.
Qed.

Lemma tense_marker_of_key (tenses : list (jsstring * jsstring)) key :
  key ∈ tenses.*1 → ∃ marker, tense_marker tenses (Some key) = Some marker.
Proof.
  intros Hin. unfold tense_marker.
  destruct (List.find _ tenses) as [[k m]|] eqn:Hfind; [by eexists|].
  apply list_elem_of_fmap in Hin as ([k m] & -> & Hin).
  apply list_elem_of_In in Hin.
  pose proof (find_none _ _ Hfind _ Hin) as Hno. simpl in Hno.
  by apply bool_decide_eq_false in Hno.
Qed.

Lemma compose_SOV_suffix st subject object rnd s rnd' :
  unit_draws rnd → enough_vocabulary st → scenario_SOV_suffix st →
  compose st subject object rnd = Normal (s, rnd') →
  ∃ verb key marker phrase human,
    verb ∈ by_pos "verb" (dictionary st) ∧ (key, marker) ∈ tenses (grammar st) ∧
    is_subject_phrase st subject phrase ∧
    s = sentence_SOV_suffix phrase (ToString (roman object)) (ToString (roman verb)) marker
        ++ gloss human (ToString (meaning verb)) key (ToString (meaning object)).
Proof.
  intros Hr [_ Hverbs] (Hcase & Horder & Hga & Hwo & Htenses).
  unfold compose. unfold bind at 1.
  destruct (random_element_unit (by_pos "verb" (dictionary st)) rnd Hr) as (verb & Hverb & ->).
  { intros Hnil. rewrite Hnil in Hverbs. simpl in Hverbs. lia. }
  unfold bind at 1.
  destruct (subject_phrase_inv st subject (advance 1 rnd))
    as (phrase & human & rnd1 & -> & Hr1 & Hphrase); [by apply unit_draws_advance|].
  unfold bind at 1.
  destruct (random_element_unit ((tenses (grammar st)).*1) rnd1 Hr1) as (key & Hkey & ->).
  { by destruct (tenses (grammar st)). }
  destruct (tense_marker_of_key _ _ Hkey) as [marker Hmarker].
  rewrite Hmarker, Hcase, Horder, Hga, Hwo. unfold ret. intros [= <- _].
  exists verb, key, marker, (ToString phrase), (ToString human).
  split; [done|]. split; [by apply tense_marker_in|]. split; [done|].
  unfold sentence_SOV_suffix, gloss. literals. reflexivity.
Qed.

Lemma redraw_object_found nouns subject : ∀ fuel j object rnd,
  (j ≤ fuel)%nat → roman (candidate nouns object rnd j) ≠ roman subject →
  ∃ j', (j' ≤ j)%nat ∧
        redraw_object fuel nouns subject object rnd
        = Normal (candidate nouns object rnd j', advance j' rnd).
Proof.
  induction fuel as [|fuel IH]; intros j object rnd Hj Hdiff; simpl.
  - assert (j = 0%nat) as -> by lia. simpl in Hdiff.
    rewrite bool_decide_eq_false_2 by done. by exists 0%nat.
  - destruct (decide (roman object = roman subject)) as [Hsame|Hne].
    + rewrite bool_decide_eq_true_2 by done.
      destruct j as [|j]; [done|].
      unfold bind at 1. rewrite random_element_run.
      destruct (IH j (spread (at_ nouns (Qfloor (rnd 0%nat * inject_Z (len nouns)))))
                  (advance 1 rnd)) as (j' & Hj' & Hrun).
      * lia.
      * destruct j; exact Hdiff.
      * exists (S j'). split; [lia|]. rewrite Hrun. by destruct j'.
    + rewrite bool_decide_eq_false_2 by done. exists 0%nat. split; [lia|reflexivity].
Qed.

Lemma redraw_object_inv nouns subject : ∀ fuel object rnd o rnd',
  redraw_object fuel nouns subject object rnd = Normal (o, rnd') →
  ∃ j, (j ≤ fuel)%nat ∧ o = candidate nouns object rnd j ∧ rnd' = advance j rnd ∧
       roman o ≠ roman subject.
Proof.
  induction fuel as [|fuel IH]; intros object rnd o rnd'; simpl;
    destruct (decide (roman object = roman subject)) as [Hsame|Hne];
    rewrite ?(bool_decide_eq_true_2 _ Hsame), ?(bool_decide_eq_false_2 _ Hne); try done.
  - intros [= <- <-]. exists 0%nat. split; [lia|done].
  - unfold bind at 1. rewrite random_element_run. intros Hrun.
    apply IH in Hrun as (j & Hj & -> & -> & Hdiff).
    exists (S j). split; [lia|]. split; [by destruct j|]. split; [|done].
    by destruct j.
  - intros [= <- <-]. exists 0%nat. split; [lia|done].
Qed.

Lemma redraw_object_same nouns subject : ∀ fuel object rnd,
  (∀ j, (j ≤ fuel)%nat → roman (candidate nouns object rnd j) = roman subject) →
  redraw_object fuel nouns subject object rnd = OutOfFuel.
Proof.
  induction fuel as [|fuel IH]; intros object rnd Hsame; simpl;
    (rewrite bool_decide_eq_true_2 by exact (Hsame 0%nat ltac:(lia))); [done|].
  unfold bind at 1. rewrite random_element_run. apply IH.
  intros j Hj. specialize (Hsame (S j) ltac:(lia)).
  destruct j; exact Hsame.
Qed.

Lemma candidate_noun_drawn st rnd j :
  candidate (by_pos "noun" (dictionary st)) (noun_drawn st (rnd 1%nat)) (advance 2 rnd) j
  = noun_drawn st (rnd (S j)).
Proof. by destruct j. Qed.

Lemma noun_drawn_in st r :
  enough_vocabulary st → (0 <= r)%Q → (r < 1)%Q →
  noun_drawn st r ∈ by_pos "noun" (dictionary st).
Proof.
  intros [Hn _] H0 H1. unfold noun_drawn.
  destruct (at_in_range (by_pos "noun" (dictionary st))
              (Qfloor (r * inject_Z (len (by_pos "noun" (dictionary st))))))
    as (x & -> & Hx); [|done].
  apply Qfloor_unit_range; [done..|]. unfold len. lia.
Qed.

(** The loop exits at the first candidate that differs, and the rest of
    the call returns. *)
Lemma generateSentence_terminates st rnd k fuel :
  enough_vocabulary st → unit_draws rnd → object_differs st rnd k → (k ≤ fuel)%nat →
  ∃ s rnd', generateSentence fuel st rnd = Normal (s, rnd').
Proof.
  intros Henough Hr Hdiff Hk. rewrite generateSentence_enough by done.
  destruct (redraw_object_found (by_pos "noun" (dictionary st)) (noun_drawn st (rnd 0%nat))
              fuel k (noun_drawn st (rnd 1%nat)) (advance 2 rnd)) as (j & Hj & Hrun).
  { done. }
  { by rewrite candidate_noun_drawn. }
  unfold bind. rewrite Hrun. apply compose_total.
  by do 2 apply unit_draws_advance.
Qed.

Lemma generateSentence_diverges st rnd fuel :
  enough_vocabulary st → (∀ k, ¬ object_differs st rnd k) →
  generateSentence fuel st rnd = OutOfFuel.
Proof.
  intros Henough Hsame. rewrite generateSentence_enough by done.
  unfold bind. rewrite redraw_object_same; [done|].
  intros j _. rewrite candidate_noun_drawn.
  destruct (decide (roman (noun_drawn st (rnd (S j))) = roman (noun_drawn st (rnd 0%nat))))
    as [|Hne]; [done|]. by destruct (Hsame j).
Qed.

Lemma generateSentence_normal_inv st rnd fuel s rnd' :
  enough_vocabulary st →
  generateSentence fuel st rnd = Normal (s, rnd') →
  ∃ j, (j ≤ fuel)%nat ∧ object_differs st rnd j ∧
       compose st (noun_drawn st (rnd 0%nat)) (noun_drawn st (rnd (S j)))
         (advance (S (S j)) rnd) = Normal (s, rnd').
Proof.
  intros Henough. rewrite generateSentence_enough by done. unfold bind.
  destruct (redraw_object _ _ _ _ _) as [[o rnd1]| |] eqn:Hrun; [|done..].
  apply redraw_object_inv in Hrun as (j & Hj & -> & -> & Hdiff).
  rewrite candidate_noun_drawn in *. intros Hc. by exists j.
Qed.

Lemma generateSentence_never_throws st rnd fuel :
  unit_draws rnd → generateSentence fuel st rnd ≠ Throw.
Proof.
  intros Hr.
  destruct (decide (enough_vocabulary st)) as [Henough|Hfew].
  - rewrite generateSentence_enough by done. unfold bind.
    destruct (redraw_object _ _ _ _ _) as [[o rnd1]| |] eqn:Hrun; [| |done].
    + apply redraw_object_inv in Hrun as (j & Hj & -> & -> & Hdiff).
      destruct (compose_total st (noun_drawn st (rnd 0%nat))
                  (candidate (by_pos "noun" (dictionary st)) (noun_drawn st (rnd 1%nat))
                     (advance 2 rnd) j) (advance j (advance 2 rnd))) as (s & r & ->); [|done].
      by do 2 apply unit_draws_advance.
    + exfalso. revert Hrun. generalize (noun_drawn st (rnd 1%nat)) (advance 2 rnd).
      induction fuel as [|fuel IH]; intros o r; simpl; case_bool_decide; try done.
      unfold bind at 1. rewrite random_element_run. apply IH.
  - by rewrite generateSentence_insufficient.
Qed.

(** More fuel does not change what a call returned. *)
Lemma redraw_object_more_fuel nouns subject : ∀ fuel extra object rnd result,
  redraw_object fuel nouns subject object rnd = Normal result →
  redraw_object (fuel + extra) nouns subject object rnd = Normal result.
Proof.
  induction fuel as [|fuel IH]; intros extra object rnd result; simpl.
  - case_bool_decide as Hsame; [done|]. intros <-.
    destruct extra; simpl; by rewrite bool_decide_eq_false_2.
  - case_bool_decide as Hsame; [|done].
    unfold bind. rewrite random_element_run. apply IH.
Qed.

Lemma generateSentence_more_fuel st rnd fuel extra result :
  generateSentence fuel st rnd = Normal result →
  generateSentence (fuel + extra) st rnd = Normal result.
Proof.
  destruct (decide (enough_vocabulary st)) as [Henough|Hfew].
  - rewrite !generateSentence_enough by done. unfold bind.
    destruct (redraw_object fuel _ _ _ _) as [[o rnd1]| |] eqn:Hrun; [|done..].
    by rewrite (redraw_object_more_fuel _ _ _ extra _ _ _ Hrun).
  - by rewrite !generateSentence_insufficient.
Qed.

(** When all nouns share one romanized form, no candidate ever differs. *)
Lemma same_roman_never_differs st rnd :
  enough_vocabulary st → unit_draws rnd →
  (∀ n1 n2, n1 ∈ by_pos "noun" (dictionary st) → n2 ∈ by_pos "noun" (dictionary st) →
            roman n1 = roman n2) →
  ∀ k, ¬ object_differs st rnd k.
Proof.
  intros Henough Hr Hsame k Hdiff. apply Hdiff.
  apply Hsame; apply noun_drawn_in; try done; apply Hr.
Qed.

Lemma Qfloor_window (x : Q) (i : Z) :
  (inject_Z i <= x)%Q → (x < inject_Z (i + 1))%Q → Qfloor x = i.
Proof.
  intros Hlo Hhi. apply Z.le_antisymm.
  - apply Z.lt_succ_r. unfold Z.succ. rewrite Zlt_Qlt.
    eapply Qle_lt_trans; [apply Qfloor_le|done].
  - rewrite <- (Qfloor_Z i). by apply Qfloor_resp_le.
Qed.

(** Every noun is drawn on a window of draws of width 1/n. *)
Lemma noun_drawn_window st noun :
  noun ∈ by_pos "noun" (dictionary st) →
  ∃ i, 0 ≤ i < len (by_pos "noun" (dictionary st)) ∧
       ∀ r, (inject_Z i <= r * inject_Z (len (by_pos "noun" (dictionary st))))%Q →
            (r * inject_Z (len (by_pos "noun" (dictionary st))) < inject_Z (i + 1))%Q →
            noun_drawn st r = noun.
Proof.
  intros Hin. apply list_elem_of_lookup in Hin as [i Hi].
  exists (Z.of_nat i). split.
  - apply lookup_lt_Some in Hi. unfold len. lia.
  - intros r Hlo Hhi. unfold noun_drawn. rewrite (Qfloor_window _ _ Hlo Hhi).
    unfold at_. destruct (Z.ltb_spec (Z.of_nat i) 0); [lia|].
    by rewrite Nat2Z.id, Hi.
Qed.

(** The draw [i/n] is in the window of the index [i]. *)
Lemma window_draw (n i : Z) :
  0 ≤ i < n →
  (0 <= i # Z.to_pos n)%Q ∧ (i # Z.to_pos n < 1)%Q ∧ in_window n i (i # Z.to_pos n).
Proof.
  intros [Hi Hn]. unfold in_window, Qle, Qlt, Qmult, inject_Z. simpl.
  rewrite Pos.mul_1_r, Z2Pos.id by lia. repeat split; nia.
Qed.

(** With two nouns of different romanized forms, whatever the subject
    drawn, the draws of some window of width 1/n give an object that
    differs from it. *)
Lemma exit_window st r0 :
  distinct_nouns st →
  ∃ i, 0 ≤ i < len (by_pos "noun" (dictionary st)) ∧
       ∀ r, in_window (len (by_pos "noun" (dictionary st))) i r →
            roman (noun_drawn st r) ≠ roman (noun_drawn st r0).
Proof.
  intros (n1 & n2 & Hn1 & Hn2 & Hne).
  assert (∃ n, n ∈ by_pos "noun" (dictionary st) ∧ roman n ≠ roman (noun_drawn st r0))
    as (n & Hn & Hdiff).
  { destruct (decide (roman n1 = roman (noun_drawn st r0))) as [Heq|Hne1].
    - exists n2. split; [done|]. by rewrite <- Heq.
    - by exists n1. }
  destruct (noun_drawn_window st n Hn) as (i & Hi & Hwin).
  exists i. split; [done|]. intros r [Hlo Hhi]. by rewrite (Hwin r Hlo Hhi).
Qed.

(** A stream that gives the same value at every call gives the subject
    again at every redraw. *)
Lemma generateSentence_constant_draws st r fuel :
  enough_vocabulary st → generateSentence fuel st (constant_draws r) = OutOfFuel.
Proof.
  intros Henough. apply generateSentence_diverges; [done|].
  intros k Hdiff. by apply Hdiff.
Qed.

Lemma draws_snoc (l : list Q) (r : Q) : draws (l ++ [r]) (length l) = r.
Proof. unfold draws. by rewrite nth_middle. Qed.

(** Whatever was drawn so far, one more draw can end the loop. *)
Lemma generateSentence_next_draw_returns st (l : list Q) :
  enough_vocabulary st → distinct_nouns st →
  Forall (fun q => (0 <= q)%Q ∧ (q < 1)%Q) l →
  ∃ r, (0 <= r)%Q ∧ (r < 1)%Q ∧
       ∃ s rnd', generateSentence (length l) st (draws (l ++ [r])) = Normal (s, rnd').
Proof.
  intros Henough Hdistinct Hl.
  destruct l as [|r0 objects].
  - destruct (exit_window st 0%Q Hdistinct) as (i & Hi & Hwin).
    destruct (window_draw _ _ Hi) as (H0 & H1 & Hin).
    eexists. split; [exact H0|]. split; [exact H1|].
    apply (generateSentence_terminates st _ 0 0); [done| |..|done].
    + apply unit_draws_draws. apply Forall_cons_2; [done|apply Forall_nil_2].
    + unfold object_differs. simpl. intros Heq. by apply (Hwin _ Hin).
  - destruct (exit_window st r0 Hdistinct) as (i & Hi & Hwin).
    destruct (window_draw _ _ Hi) as (H0 & H1 & Hin).
    eexists. split; [exact H0|]. split; [exact H1|].
    apply (generateSentence_terminates st _ (length objects)); [done| |..|simpl; lia].
    + apply unit_draws_draws. apply Forall_app. split; [done|].
      apply Forall_cons_2; [done|apply Forall_nil_2].
    + unfold object_differs.
      change ((r0 :: objects) ++ [?r]) with (r0 :: (objects ++ [r])).
      change (draws (r0 :: ?t) (S ?k)) with (draws t k).
      rewrite draws_snoc. by apply Hwin.
Qed.

Lemma generateSentence_normal_distinct st rnd fuel s rnd' :
  enough_vocabulary st → unit_draws rnd →
  generateSentence fuel st rnd = Normal (s, rnd') → distinct_nouns st.
Proof.
  intros Henough Hr Hrun.
  apply generateSentence_normal_inv in Hrun as (j & _ & Hdiff & _); [|done].
  exists (noun_drawn st (rnd (S j))), (noun_drawn st (rnd 0%nat)).
  split; [|split; [|done]]; apply noun_drawn_in; try done; apply Hr.
Qed.

End Sentences.

(** ** How often the redraw loop goes on *)

Section Looping.
Import MorphoSyntax.

Lemma length_bind_cons (l : list nat) (T : list (list nat)) :
  length (i ← l; (cons i) <$> T) = (length l * length T)%nat.
Proof.
  induction l as [|i l IH]; [done|].
  rewrite bind_cons, length_app, length_fmap, IH. simpl. lia.
Qed.

Lemma length_index_tuples n k : length (index_tuples n k) = (n ^ k)%nat.
Proof.
  induction k as [|k IH]; [done|]. simpl.
  by rewrite length_bind_cons, length_seq, IH.
Qed.

Lemma filter_Forall_cons_tuples (P : nat → Prop) `{∀ i, Decision (P i)} i (T : list (list nat)) :
  length (filter (Forall P) ((cons i) <$> T)) =
  if decide (P i) then length (filter (Forall P) T) else 0%nat.
Proof.
  induction T as [|t T IH]; [by destruct (decide (P i))|].
  rewrite fmap_cons, !filter_cons. destruct (decide (P i)) as [Hi|Hi].
  - destruct (decide (Forall P t)) as [Ht|Ht].
    + rewrite decide_True by (by apply Forall_cons_2). simpl. by rewrite IH.
    + rewrite decide_False; [done|]. intros Hc. apply Ht. by apply Forall_cons in Hc as [_ ?].
  - rewrite decide_False; [done|]. intros Hc. apply Hi. by apply Forall_cons in Hc as [? _].
Qed.

Lemma filter_Forall_bind_tuples (P : nat → Prop) `{∀ i, Decision (P i)}
    (l : list nat) (T : list (list nat)) :
  length (filter (Forall P) (i ← l; (cons i) <$> T)) =
  (length (filter P l) * length (filter (Forall P) T))%nat.
Proof.
  induction l as [|i l IH]; [done|].
  rewrite bind_cons, filter_app, length_app, filter_Forall_cons_tuples, IH, filter_cons.
  destruct (decide (P i)); simpl; lia.
Qed.

(** Of the [n ^ k] sequences of [k] indices below [n], those whose
    indices all satisfy [P] are [m ^ k], where [m] indices satisfy [P]. *)
Lemma looping_tuples_count (P : nat → Prop) `{∀ i, Decision (P i)} n k :
  length (filter (Forall P) (index_tuples n k)) = (length (filter P (seq 0 n)) ^ k)%nat.
Proof.
  induction k as [|k IH].
  - change (index_tuples n 0) with [[] : list nat].
    rewrite filter_cons, decide_True by apply Forall_nil_2. done.
  - change (index_tuples n (S k)) with (i ← seq 0 n; (cons i) <$> index_tuples n k).
    rewrite filter_Forall_bind_tuples, IH. simpl. lia.
Qed.

(** With two nouns of different romanized forms, whatever the subject,
    fewer than [n] of the [n] nouns keep the loop going. *)
Lemma shares_roman_lt st subject :
  distinct_nouns st →
  (length (filter (shares_roman st subject) (seq 0 (length (by_pos "noun" (dictionary st)))))
   < length (by_pos "noun" (dictionary st)))%nat.
Proof.
  intros (n1 & n2 & Hn1 & Hn2 & Hne).
  assert (∃ n, n ∈ by_pos "noun" (dictionary st) ∧ roman n ≠ roman subject)
    as (n & Hn & Hdiff).
  { destruct (decide (roman n1 = roman subject)) as [Heq|Hne1].
    - exists n2. split; [done|]. by rewrite <- Heq.
    - by exists n1. }
  apply list_elem_of_lookup in Hn as [i Hi].
  eapply Nat.lt_le_trans; [apply (length_filter_lt _ _ i)|by rewrite length_seq].
  - apply elem_of_seq. apply lookup_lt_Some in Hi. lia.
  - unfold shares_roman. by rewrite Hi.
Qed.

(** A call runs out of fuel exactly when none of the candidates it had the
    fuel to look at differs from the subject. *)
Lemma generateSentence_out_of_fuel_iff st rnd fuel :
  enough_vocabulary st → unit_draws rnd →
  generateSentence fuel st rnd = OutOfFuel ↔
  ∀ j, (j < S fuel)%nat → ¬ object_differs st rnd j.
Proof.
  intros Henough Hr. split.
  - intros Hout j Hj Hdiff.
    destruct (generateSentence_terminates st rnd j fuel) as (s & rnd' & Hrun);
      [done..|lia|]. by rewrite Hrun in Hout.
  - intros Hsame. rewrite generateSentence_enough by done.
    unfold bind. rewrite redraw_object_same; [done|].
    intros j Hj. rewrite candidate_noun_drawn.
    destruct (decide (roman (noun_drawn st (rnd (S j))) = roman (noun_drawn st (rnd 0%nat))))
      as [|Hne]; [done|]. destruct (Hsame j); [lia|done].
Qed.

Lemma noun_drawn_index st r :
  (0 <= r)%Q →
  noun_drawn st r =
  spread (by_pos "noun" (dictionary st)
            !! Z.to_nat (Qfloor (r * inject_Z (len (by_pos "noun" (dictionary st)))))).
Proof.
  intros Hr. unfold noun_drawn, at_.
  destruct (Z.ltb_spec (Qfloor (r * inject_Z (len (by_pos "noun" (dictionary st))))) 0)
    as [Hneg|]; [|done].
  exfalso. revert Hneg. apply Z.le_ngt. change 0 with (Qfloor 0). apply Qfloor_resp_le.
  apply Qmult_le_0_compat; [done|]. change 0%Q with (inject_Z 0). rewrite <- Zle_Qle.
  unfold len. lia.
Qed.

(** The call depends on the draws only through the nouns they pick: it is
    still in the loop after [fuel] redraws exactly when all the nouns
    picked so far have the romanized form of the subject's, and it returns
    otherwise.  Every noun is picked by some draw. *)
Lemma generateSentence_by_picks st :
  enough_vocabulary st →
  let nouns := by_pos "noun" (dictionary st) in
  ∃ pick : Q → nat,
    (∀ r, (0 <= r)%Q → (r < 1)%Q → (pick r < length nouns)%nat) ∧
    (∀ i, (i < length nouns)%nat → ∃ r, (0 <= r)%Q ∧ (r < 1)%Q ∧ pick r = i) ∧
    ∀ rnd fuel, unit_draws rnd →
      (generateSentence fuel st rnd = OutOfFuel ↔
       Forall (shares_roman st (spread (nouns !! pick (rnd 0%nat))))
         ((fun j => pick (rnd j)) <$> seq 1 (S fuel))) ∧
      (generateSentence fuel st rnd ≠ OutOfFuel →
       ∃ s rnd', generateSentence fuel st rnd = Normal (s, rnd')).
Proof.
  intros Henough. cbv zeta. set (nouns := by_pos "noun" (dictionary st)).
  exists (fun r => Z.to_nat (Qfloor (r * inject_Z (len nouns)))). split_and!.
  - intros r H0 H1.
    destruct (Qfloor_unit_range r (len nouns) H0 H1); [|unfold len in *; lia].
    destruct Henough. unfold len, nouns. lia.
  - intros i Hi.
    destruct (window_draw (len nouns) (Z.of_nat i)) as (H0 & H1 & Hlo & Hhi);
      [unfold len; lia|].
    eexists. split; [exact H0|]. split; [exact H1|].
    by rewrite (Qfloor_window _ _ Hlo Hhi), Nat2Z.id.
  - intros rnd fuel Hr. split.
    + rewrite generateSentence_out_of_fuel_iff by done.
      rewrite Forall_fmap, Forall_seq. unfold object_differs, shares_roman, nouns. split.
      * intros Hsame j Hj. unfold Basics.compose.
        rewrite <- !noun_drawn_index by apply Hr.
        destruct j as [|j]; [lia|].
        destruct (decide (roman (noun_drawn st (rnd (S j))) = roman (noun_drawn st (rnd 0%nat))))
          as [|Hne]; [done|]. destruct (Hsame j); [lia|done].
      * intros Hsame j Hj Hdiff. apply Hdiff.
        specialize (Hsame (S j) ltac:(lia)). unfold Basics.compose in Hsame.
        by rewrite <- !noun_drawn_index in Hsame by apply Hr.
    + intros Hfuel.
      destruct (generateSentence fuel st rnd) as [[s rnd']| |] eqn:Hrun; [by eexists _, _| |done].
      by destruct (generateSentence_never_throws st rnd fuel Hr).
Qed.

End Looping.

(** C6. When the dictionary has fewer than two nouns or no verb,
    [generateSentence] returns the sentinel of line 396: it completes
    normally, it draws nothing, and the result is the same whatever the
    grammar table holds, which is not read. *)
Theorem generateSentence_insufficient_vocabulary
    (fuel : nat) (st : LanguageState) (g : Grammar) (rnd : Rng) :
  (length (MorphoSyntax.by_pos "noun" (dictionary st)) < 2)%nat ∨
  (length (MorphoSyntax.by_pos "verb" (dictionary st)) < 1)%nat →
  MorphoSyntax.generateSentence fuel (with_grammar st g) rnd
  = Normal (MorphoSyntax.insufficient, rnd).
Proof.
  intros Hfew. apply generateSentence_insufficient.
  unfold enough_vocabulary. simpl. lia.
Qed.

Lemma generateSentence_insufficient_vocabulary_witness :
  (length (MorphoSyntax.by_pos "verb" (dictionary poor_state)) < 1)%nat ∧
  MorphoSyntax.generateSentence 3
    (with_grammar poor_state
       {| subjectMarker := []; objectMarker := []; pluralMarker := []; tenses := [] |})
    small_draws
  = Normal (MorphoSyntax.insufficient, small_draws).
Proof.
  assert (length (MorphoSyntax.by_pos "verb" (dictionary poor_state)) < 1)%nat as Hverbs.
  { vm_compute. lia. }
  split; [exact Hverbs|].
  apply (generateSentence_insufficient_vocabulary 3 poor_state
           {| subjectMarker := []; objectMarker := []; pluralMarker := []; tenses := [] |}
           small_draws).
  right. exact Hverbs.
Defined.

(** A run of the scenario on a dictionary of two nouns and a verb. *)
Lemma generateSentence_example :
  outcome (MorphoSyntax.generateSentence 0 small_state small_draws)
  = Normal (str "ta-ga ti-wo pa-ru. ('The sun see (present) the moon')").
Proof. vm_compute. reflexivity. Qed.

(** C7. With suffix case marking, the markers "ga" and "wo", the word order
    SOV and a dictionary that passes the guard, every sentence returned is
    the subject phrase with "-ga", a space, the romanized form of the
    object with "-wo", a space, the romanized form of the verb with "-" and
    the marker of a tense of the table, a period, and then the gloss; the
    subject and the object are nouns of the dictionary with different
    romanized forms and the verb is one of its verbs.  A sentence is
    returned as soon as a draw gives an object that differs from the
    subject. *)
Theorem generateSentence_SOV_suffix (st : LanguageState) (rnd : Rng) :
  unit_draws rnd → enough_vocabulary st → scenario_SOV_suffix st →
  (∀ fuel s rnd',
      MorphoSyntax.generateSentence fuel st rnd = Normal (s, rnd') →
      ∃ subject object verb key marker phrase human,
        subject ∈ MorphoSyntax.by_pos "noun" (dictionary st) ∧
        object ∈ MorphoSyntax.by_pos "noun" (dictionary st) ∧
        roman object ≠ roman subject ∧
        verb ∈ MorphoSyntax.by_pos "verb" (dictionary st) ∧
        (key, marker) ∈ tenses (grammar st) ∧
        is_subject_phrase st subject phrase ∧
        s = sentence_SOV_suffix phrase (ToString (roman object)) (ToString (roman verb)) marker
            ++ gloss human (ToString (meaning verb)) key (ToString (meaning object))) ∧
  (∀ k, object_differs st rnd k →
        ∃ s rnd', MorphoSyntax.generateSentence k st rnd = Normal (s, rnd')).
Proof.
  intros Hr Henough Hscenario. split.
  - intros fuel s rnd' Hrun.
    apply generateSentence_normal_inv in Hrun as (j & _ & Hdiff & Hcompose); [|done].
    apply compose_SOV_suffix in Hcompose
        as (verb & key & marker & phrase & human & Hverb & Hkey & Hphrase & ->);
      [|by apply unit_draws_advance|done..].
    exists (noun_drawn st (rnd 0%nat)), (noun_drawn st (rnd (S j))),
      verb, key, marker, phrase, human.
    repeat split; try done; apply noun_drawn_in; try done; apply Hr.
  - intros k Hdiff. by apply (generateSentence_terminates st rnd k k).
Qed.

Lemma generateSentence_SOV_suffix_witness :
  unit_draws small_draws ∧ enough_vocabulary small_state ∧ scenario_SOV_suffix small_state ∧
  object_differs small_state small_draws 0 ∧
  ∃ s rnd', MorphoSyntax.generateSentence 0 small_state small_draws = Normal (s, rnd').
Proof.
  assert (unit_draws small_draws) as Hr by unit_draws_literals.
  assert (enough_vocabulary small_state) as Henough by (split; vm_compute; lia).
  assert (scenario_SOV_suffix small_state) as Hscenario by (repeat split; discriminate).
  assert (object_differs small_state small_draws 0) as Hdiff by (vm_compute; discriminate).
  repeat (split; [assumption|]).
  exact (proj2 (generateSentence_SOV_suffix small_state small_draws Hr Henough Hscenario)
           0%nat Hdiff).
Defined.

(** C10, as stated, fails on the code: the dictionary of [small_state] has
    two nouns with the romanized forms "ta" and "ti" and a verb, and when
    [Math.random] returns 0 at every call the subject and every object
    drawn are the first noun: the loop of lines 400-402 never ends. *)
Theorem generateSentence_loops_with_distinct_nouns :
  enough_vocabulary small_state ∧ distinct_nouns small_state ∧
  unit_draws (constant_draws 0) ∧
  ∀ fuel, MorphoSyntax.generateSentence fuel small_state (constant_draws 0) = OutOfFuel.
Proof.
  assert (enough_vocabulary small_state) as Henough by (split; vm_compute; lia).
  split; [done|]. split.
  { exists (entry "/ta/" "ta" "noun" "sun"), (entry "/ti/" "ti" "noun" "moon").
    assert (MorphoSyntax.by_pos "noun" (dictionary small_state) =
            [entry "/ta/" "ta" "noun" "sun"; entry "/ti/" "ti" "noun" "moon"])
      as -> by (vm_compute; reflexivity).
    split; [left|]. split; [right; left|done]. }
  split; [by intros n|].
  intros fuel. apply generateSentence_diverges; [done|].
  intros k Hdiff. by apply Hdiff.
Qed.

(** C10 (amended). For a dictionary that passes the guard of line 396.
    On a stream that gives the same value at every call, the call never
    returns, whatever the dictionary.  The call depends on the draws only
    through the nouns they pick, and every noun is picked by some draw: it
    is still in the loop after its redraws exactly when all the nouns
    picked for the object have the romanized form of the subject's, and it
    returns otherwise.  When two nouns have different romanized forms,
    then after any draws in [0,1) there is a next draw on which the call
    returns, and for every subject fewer than n of the n nouns send the
    loop round again, so that of the n ^ k sequences of k noun indices
    m ^ k keep it going, with m < n.  Every call that returns shows two
    nouns with different romanized forms; and when all nouns share one
    romanized form, no call returns, whatever the draws, although the
    guard was passed. *)
Theorem generateSentence_termination (st : LanguageState) :
  enough_vocabulary st →
  (∀ r fuel, MorphoSyntax.generateSentence fuel st (constant_draws r) = OutOfFuel) ∧
  (∃ pick : Q → nat,
     (∀ r, (0 <= r)%Q → (r < 1)%Q →
           (pick r < length (MorphoSyntax.by_pos "noun" (dictionary st)))%nat) ∧
     (∀ i, (i < length (MorphoSyntax.by_pos "noun" (dictionary st)))%nat →
           ∃ r, (0 <= r)%Q ∧ (r < 1)%Q ∧ pick r = i) ∧
     ∀ rnd fuel, unit_draws rnd →
       (MorphoSyntax.generateSentence fuel st rnd = OutOfFuel ↔
        Forall (shares_roman st
                  (MorphoSyntax.spread
                     (MorphoSyntax.by_pos "noun" (dictionary st) !! pick (rnd 0%nat))))
          ((fun j => pick (rnd j)) <$> seq 1 (S fuel))) ∧
       (MorphoSyntax.generateSentence fuel st rnd ≠ OutOfFuel →
        ∃ s rnd', MorphoSyntax.generateSentence fuel st rnd = Normal (s, rnd'))) ∧
  (distinct_nouns st →
   (∀ l, Forall (fun q => (0 <= q)%Q ∧ (q < 1)%Q) l →
         ∃ r, (0 <= r)%Q ∧ (r < 1)%Q ∧
              ∃ s rnd', MorphoSyntax.generateSentence (length l) st (draws (l ++ [r]))
                        = Normal (s, rnd')) ∧
   (∀ subject,
      let n := length (MorphoSyntax.by_pos "noun" (dictionary st)) in
      let m := length (filter (shares_roman st subject) (seq 0 n)) in
      (m < n)%nat ∧
      ∀ k, length (index_tuples n k) = (n ^ k)%nat ∧
           length (filter (Forall (shares_roman st subject)) (index_tuples n k))
           = (m ^ k)%nat)) ∧
  (∀ rnd fuel s rnd',
     unit_draws rnd → MorphoSyntax.generateSentence fuel st rnd = Normal (s, rnd') →
     distinct_nouns st) ∧
  (¬ distinct_nouns st →
   ∀ rnd fuel, unit_draws rnd → MorphoSyntax.generateSentence fuel st rnd = OutOfFuel).
Proof.
  intros Henough. split_and!.
  - intros r fuel. by apply generateSentence_constant_draws.
  - by apply generateSentence_by_picks.
  - intros Hdistinct. split.
    + intros l Hl. by apply generateSentence_next_draw_returns.
    + intros subject n m. split; [by apply shares_roman_lt|].
      intros k. split; [apply length_index_tuples|apply looping_tuples_count].
  - intros rnd fuel s rnd' Hr Hrun.
    by apply (generateSentence_normal_distinct st rnd fuel s rnd').
  - intros Hsame rnd fuel Hr. apply generateSentence_diverges; [done|].
    apply same_roman_never_differs; [done..|].
    intros n1 n2 Hn1 Hn2.
    destruct (decide (roman n1 = roman n2)) as [|Hne]; [done|].
    destruct Hsame. by exists n1, n2.
Qed.

Lemma generateSentence_termination_witness :
  enough_vocabulary small_state ∧ distinct_nouns small_state ∧
  (∀ fuel, MorphoSyntax.generateSentence fuel small_state (constant_draws (1 # 2)) = OutOfFuel) ∧
  (∃ r, (0 <= r)%Q ∧ (r < 1)%Q ∧
        ∃ s rnd', MorphoSyntax.generateSentence 3 small_state (draws ([0; 0; 0] ++ [r]))%Q
                  = Normal (s, rnd')) ∧
  (enough_vocabulary homophone_state ∧ ¬ distinct_nouns homophone_state ∧
   MorphoSyntax.generateSentence 100 homophone_state small_draws = OutOfFuel).
Proof.
  assert (unit_draws small_draws) as Hr by unit_draws_literals.
  assert (enough_vocabulary small_state) as Henough by (split; vm_compute; lia).
  assert (distinct_nouns small_state) as Hdistinct.
  { exists (entry "/ta/" "ta" "noun" "sun"), (entry "/ti/" "ti" "noun" "moon").
    assert (MorphoSyntax.by_pos "noun" (dictionary small_state) =
            [entry "/ta/" "ta" "noun" "sun"; entry "/ti/" "ti" "noun" "moon"])
      as -> by (vm_compute; reflexivity).
    split; [left|]. split; [right; left|done]. }
  repeat (split; [assumption|]). split; [|split].
  - exact (proj1 (generateSentence_termination small_state Henough) (1 # 2)%Q).
  - apply (proj1 (proj1 (proj2 (proj2 (generateSentence_termination small_state Henough)))
                    Hdistinct) [0; 0; 0]%Q).
    repeat (apply Forall_cons_2; [split; [unfold Qle | unfold Qlt]; simpl; lia|]).
    apply Forall_nil_2.
  - assert (enough_vocabulary homophone_state) as Henough' by (split; vm_compute; lia).
    assert (¬ distinct_nouns homophone_state) as Hsame.
    { intros (n1 & n2 & Hn1 & Hn2 & Hne). apply Hne.
      assert (MorphoSyntax.by_pos "noun" (dictionary homophone_state) =
              [entry "/pa/" "pa" "noun" "sun"; entry "/pa/" "pa" "noun" "sun (irregular noun)"])
        as Hnouns by (vm_compute; reflexivity).
      rewrite Hnouns in Hn1, Hn2.
      repeat (apply elem_of_cons in Hn1 as [->|Hn1]); [..|by apply elem_of_nil in Hn1];
        repeat (apply elem_of_cons in Hn2 as [->|Hn2]); try (by apply elem_of_nil in Hn2);
        reflexivity. }
    repeat (split; [assumption|]).
    exact (proj2 (proj2 (proj2 (proj2 (generateSentence_termination homophone_state Henough'))))
             Hsame small_draws 100%nat Hr).
Defined.

(** ** Lexicon generation *)

Section Generation.
Import RegExp Phonology Lexicon.
Context {E : Engine}.

Lemma has_fuel_ret {A} (a : A) : has_fuel (ret a).
Proof. by intros rnd. Qed.

Lemma has_fuel_throw {A} : has_fuel (@throw A).
Proof. by intros rnd. Qed.

Lemma has_fuel_bind {A B} (c : M A) (k : A → M B) :
  has_fuel c → (∀ a, has_fuel (k a)) → has_fuel (bind c k).
Proof.
  intros Hc Hk rnd. unfold bind. specialize (Hc rnd).
  destruct (c rnd) as [[a rnd']| |]; [apply Hk|done..].
Qed.

Lemma has_fuel_for_of {A S} (body : S → A → M S) arr :
  (∀ acc x, has_fuel (body acc x)) → ∀ acc, has_fuel (for_of body arr acc).
Proof.
  intros Hbody. induction arr as [|x arr IH]; intros acc; simpl.
  - apply has_fuel_ret.
  - apply has_fuel_bind; [apply Hbody|apply IH].
Qed.

Lemma has_fuel_Math_random : has_fuel Math_random.
Proof. by intros rnd. Qed.

Lemma has_fuel_random_element {A} (arr : list A) : has_fuel (random_element arr).
Proof. by intros rnd. Qed.

Create HintDb fuel_db.
#[local] Hint Resolve has_fuel_ret has_fuel_throw has_fuel_Math_random has_fuel_random_element
  : fuel_db.

Ltac solve_fuel :=
  repeat first
    [ progress auto with fuel_db
    | apply has_fuel_bind; [|intros ?]
    | apply has_fuel_for_of; intros ? ?
    | match goal with
      | |- has_fuel (match ?x with _ => _ end) => destruct x
      | |- has_fuel (if ?b then _ else _) => destruct b
      | |- has_fuel (let '(_, _) := ?x in _) => destruct x
      end ].

Lemma has_fuel_generateWord p : has_fuel (generateWord p).
Proof.
  unfold generateWord, synthesize, buildWord, addTone, floor_random_times. solve_fuel.
  unfold slot. solve_fuel.
Qed.

(** Ten turns are enough for the [do ... while] of lines 289-294. *)
Lemma has_fuel_mint p generatedRomans : ∀ fuel attempts,
  9 ≤ attempts + Z.of_nat fuel → has_fuel (mint fuel p generatedRomans attempts).
Proof.
  induction fuel as [|fuel IH]; intros attempts Hfuel; simpl;
    (apply has_fuel_bind; [apply has_fuel_generateWord|]);
    (intros [ipa|]; [|apply has_fuel_ret]);
    (destruct (truthy ipa); [|apply has_fuel_ret]).
  - destruct (Z.ltb_spec (attempts + 1) 10); [lia|].
    rewrite andb_false_r. destruct (bool_decide _); apply has_fuel_ret.
  - destruct (_ && _); [apply IH; lia|].
    destruct (bool_decide _); apply has_fuel_ret.
Qed.

Lemma select_one_normal semanticFields s rnd :
  ∃ s' rnd', select_one semanticFields s rnd = Normal (s', rnd') ∧
             fieldIndex s' = fieldIndex s + 1.
Proof.
  unfold select_one.
  destruct (field_words _) as [words|].
  - destruct (0 <? len _).
    + unfold bind at 1 2. rewrite random_element_run. by eexists _, _.
    + by eexists _, _.
  - destruct (bool_decide _); by eexists _, _.
Qed.

(** The loop of lines 265-284 makes at most [2 * rootCount + 1] turns. *)
Lemma has_fuel_select semanticFields rootCount : ∀ fuel s,
  (len (meaningsToGenerate s) < rootCount → fieldIndex s ≤ rootCount * 2) →
  rootCount * 2 + 1 - fieldIndex s ≤ Z.of_nat fuel →
  has_fuel (select fuel semanticFields rootCount s).
Proof.
  induction fuel as [|fuel IH]; intros s Hinv Hfuel rnd; simpl;
    destruct (Z.ltb_spec (len (meaningsToGenerate s)) rootCount) as [Hlt|Hge]; try done.
  - specialize (Hinv Hlt). lia.
  - unfold bind.
    destruct (select_one_normal semanticFields s rnd) as (s' & rnd' & -> & Hindex).
    destruct (Z.ltb_spec (rootCount * 2) (fieldIndex s')) as [Hlate|Hearly];
      destruct (Z.ltb_spec (len (meaningsToGenerate s')) rootCount); simpl; try done;
      apply IH; lia.
Qed.

Lemma has_fuel_generate st : has_fuel (generate st).
Proof.
  unfold generate. apply has_fuel_bind.
  { apply has_fuel_select; unfold len; cbn [meaningsToGenerate fieldIndex length]; lia. }
  intros meanings. apply has_fuel_bind.
  { apply has_fuel_for_of. intros [newDictionary generatedRomans] meaning.
    unfold add_root. apply has_fuel_bind; [apply has_fuel_mint; lia|].
    intros [[ipa roman]|]; solve_fuel. }
  intros [newDictionary generatedRomans]. apply has_fuel_bind.
  { apply has_fuel_for_of. intros derivedWords morpheme.
    apply has_fuel_for_of. intros derived word. unfold derive, irregular. solve_fuel. }
  intros derivedWords. destruct (loanwords_enabled _); [|solve_fuel].
  apply has_fuel_for_of. intros dictionary i. unfold add_loanword. solve_fuel.
Qed.


Lemma for_of_invariant {A S} (I : S → Prop) (body : S → A → M S) arr :
  (∀ acc x rnd acc' rnd', I acc → body acc x rnd = Normal (acc', rnd') → I acc') →
  ∀ acc rnd acc' rnd', I acc → for_of body arr acc rnd = Normal (acc', rnd') → I acc'.
Proof.
  intros Hstep. induction arr as [|x arr IH]; simpl; intros acc rnd acc' rnd' HI Hrun.
  - by injection Hrun as <- _.
  - unfold bind in Hrun.
    destruct (body acc x rnd) as [[acc1 rnd1]| |] eqn:Hbody; [|done..].
    eapply IH; [|done]. by eapply Hstep.
Qed.

(** A pair kept by the loop of lines 289-296 has a romanized form that was
    not generated before. *)
Lemma mint_fresh p generatedRomans : ∀ fuel attempts rnd ipa roman rnd',
  mint fuel p generatedRomans attempts rnd = Normal (Some (ipa, roman), rnd') →
  roman ∉ generatedRomans.
Proof.
  induction fuel as [|fuel IH]; intros attempts rnd ipa roman rnd'; simpl; unfold bind;
    (destruct (generateWord p rnd) as [[[word|] rnd1]| |]; [|done..]);
    (destruct (truthy word); [|done]);
    case_bool_decide as Hin; simpl;
    destruct (attempts + 1 <? 10); simpl; try done;
    try (intros [= _ <- _]; done).
  apply IH.
Qed.

Lemma roots_invariant_snoc newDictionary generatedRomans word r :
  roots_invariant (newDictionary, generatedRomans) →
  roman word = Some r → r ∉ generatedRomans →
  roots_invariant (newDictionary ++ [word], {[ r ]} ∪ generatedRomans).
Proof.
  intros [Hnodup Hrecorded] Hword Hfresh. unfold roots_invariant in *. simpl in *.
  rewrite fmap_app. simpl. rewrite Hword. split.
  - apply NoDup_app. split; [done|]. split; [|apply NoDup_singleton].
    intros x Hx Hx'. apply list_elem_of_singleton in Hx'. subst x.
    destruct (Hrecorded _ Hx) as (s & Hs & Hin). injection Hs as <-. done.
  - intros x Hx. apply elem_of_app in Hx as [Hx|Hx].
    + destruct (Hrecorded _ Hx) as (s & Hs & Hin). exists s. split; [done|].
      apply elem_of_union. by right.
    + apply list_elem_of_singleton in Hx. exists r. split; [done|].
      apply elem_of_union. left. by apply elem_of_singleton.
Qed.

Lemma add_root_invariant st acc meaning rnd acc' rnd' :
  roots_invariant acc → add_root st acc meaning rnd = Normal (acc', rnd') →
  roots_invariant acc'.
Proof.
  destruct acc as [newDictionary generatedRomans]. intros Hinv.
  unfold add_root, bind.
  destruct (mint 10 _ _ 0 rnd) as [[[[ipa roman]|] rnd1]| |] eqn:Hmint; [| |done..].
  2: { by intros [= <- _]. }
  apply mint_fresh in Hmint. rewrite random_element_run.
  destruct (_ && _); simpl; unfold bind; rewrite ?random_element_run; unfold ret;
    intros [= <- _]; by apply roots_invariant_snoc.
Qed.

Lemma loanwords_invariant_snoc before loans word :
  loanwords_invariant before (before ++ loans) →
  NoDup (roman <$> loans) → (∀ r, r ∈ roman <$> loans → r ∉ roman <$> before) →
  roman word ∉ roman <$> (before ++ loans) →
  loanwords_invariant before ((before ++ loans) ++ [word]).
Proof.
  intros _ Hnodup Hfresh Hnew. rewrite fmap_app in Hnew.
  apply not_elem_of_app in Hnew as [Hnew1 Hnew2].
  exists (loans ++ [word]). split; [by rewrite app_assoc|]. rewrite fmap_app. split.
  - apply NoDup_app. split; [done|]. split; [|apply NoDup_singleton].
    intros x Hx Hx'. apply list_elem_of_singleton in Hx'. by subst x.
  - intros x Hx. apply elem_of_app in Hx as [Hx|Hx]; [by apply Hfresh|].
    apply list_elem_of_singleton in Hx. by subst x.
Qed.

Lemma add_loanword_invariant st before dictionary i rnd dictionary' rnd' :
  loanwords_invariant before dictionary →
  add_loanword st dictionary i rnd = Normal (dictionary', rnd') →
  loanwords_invariant before dictionary'.
Proof.
  intros Hinv. pose proof Hinv as (loans & -> & Hnodup & Hfresh).
  unfold add_loanword, bind.
  rewrite random_element_run. destruct (at_ _ _) as [sourceWord|]; [|done].
  destruct (truthy _); simpl; [|by intros [= <- _]].
  destruct (existsb _ _) eqn:Hsome; simpl; intros [= <- _]; [done|].
  apply loanwords_invariant_snoc; try done. simpl.
  intros Hin. apply list_elem_of_fmap in Hin as (w & Heq & Hw).
  apply not_true_iff_false in Hsome. apply Hsome.
  apply existsb_exists. exists w. split; [by apply list_elem_of_In|].
  by apply bool_decide_eq_true.
Qed.

Lemma generate_by_passes st rnd :
  generate st rnd =
  bind (generate_roots st)
    (fun '(newDictionary, _) =>
       bind (generate_derivedWords st newDictionary)
         (fun derivedWords => generate_loanwords st (newDictionary ++ derivedWords))) rnd.
Proof.
  unfold generate, generate_roots, generate_derivedWords, generate_loanwords, bind.
  destruct (select _ _ _ _ rnd) as [[meanings rnd1]| |]; [|done..].
  destruct (for_of (add_root st) meanings _ rnd1) as [[[roots romans] rnd2]| |]; [|done..].
  reflexivity.
Qed.

Lemma generate_loanwords_appends st dictionary rnd dictionary' rnd' :
  generate_loanwords st dictionary rnd = Normal (dictionary', rnd') →
  loanwords_invariant dictionary dictionary'.
Proof.
  assert (loanwords_invariant dictionary dictionary) as Hinit.
  { exists []. rewrite app_nil_r. split; [done|]. split; [apply NoDup_nil_2|].
    by intros r ?%elem_of_nil. }
  unfold generate_loanwords. destruct (loanwords_enabled _).
  - intros Hloans.
    apply (for_of_invariant (loanwords_invariant dictionary)) in Hloans; [done| |done].
    intros. by eapply add_loanword_invariant.
  - by intros [= <- _].
Qed.

(** A call of [generate] that returns went through the three loops. *)
Lemma generate_passes_inv st rnd dictionary rnd' :
  generate st rnd = Normal (dictionary, rnd') →
  ∃ roots derived loans,
    generate_passes st rnd roots derived loans ∧ dictionary = roots ++ derived ++ loans.
Proof.
  rewrite generate_by_passes. unfold bind.
  destruct (generate_roots st rnd) as [[[roots romans] rnd1]| |] eqn:Hroots; [|done..].
  destruct (generate_derivedWords st roots rnd1) as [[derived rnd2]| |] eqn:Hderived;
    [|done..].
  intros Hloans. pose proof Hloans as (loans & -> & _)%generate_loanwords_appends.
  exists roots, derived, loans. split; [|by rewrite app_assoc].
  by exists romans, rnd1, rnd2, rnd'.
Qed.

Lemma generate_roots_unique st rnd roots generatedRomans rnd' :
  generate_roots st rnd = Normal ((roots, generatedRomans), rnd') →
  roots_invariant (roots, generatedRomans).
Proof.
  unfold generate_roots, bind.
  destruct (select _ _ _ _ rnd) as [[meanings rnd1]| |]; [|done..].
  intros Hroots. apply (for_of_invariant roots_invariant) in Hroots; [done| |].
  - intros. by eapply add_root_invariant.
  - split; simpl; [apply NoDup_nil_2|]. by intros r ?%elem_of_nil.
Qed.

(** X8. What [generate] does keep of the uniqueness of romanized forms,
    whatever the draws.  A call that returns went through its three loops:
    the dictionary is the roots that the first loop built, then the
    entries that the second derived from these roots, then the loanwords
    that the third added.  The roots have distinct romanized forms, and so
    have the loanwords, none of which repeats a form of a root or of a
    derived entry. *)
Theorem generate_structure st rnd dictionary :
  outcome (generate st rnd) = Normal dictionary →
  ∃ roots derived loans,
    generate_passes st rnd roots derived loans ∧
    dictionary = roots ++ derived ++ loans ∧
    NoDup (roman <$> roots) ∧ NoDup (roman <$> loans) ∧
    ∀ r, r ∈ roman <$> loans → r ∉ roman <$> (roots ++ derived).
Proof.
  intros Hrun. destruct (generate st rnd) as [[d rnd']| |] eqn:Hgenerate; [|done..].
  injection Hrun as ->.
  apply generate_passes_inv in Hgenerate as (roots & derived & loans & Hpasses & ->).
  exists roots, derived, loans. split; [done|]. split; [done|].
  destruct Hpasses as (romans & rnd1 & rnd2 & rnd3 & Hroots & _ & Hloans).
  apply generate_roots_unique in Hroots as [Hnodup _].
  apply generate_loanwords_appends in Hloans as (loans' & Heq & Hnodup' & Hfresh).
  apply app_inv_head in Heq as ->. done.
Qed.

End Generation.

(** C1 fails on the code: the derived entries are added without the check
    that the roots and the loanwords go through.  With the inventories
    p t k / a i u, the templates CV and CVCV, two roots and the suffix -ka,
    the draws below give the roots "pa" and "paka" and derive "paka" from
    "pa": the dictionary returned has two entries with the romanized form
    "paka". *)
Theorem generate_repeats_a_roman :
  unit_draws suffix_ka_draws ∧
  outcome (Lexicon.generate (E := RegExp.Fragment) suffix_ka_state suffix_ka_draws)
  = Normal [entry "/pa/" "pa" "noun" "sun";
            entry "/paka/" "paka" "verb" "moon";
            {| ipa := Some (str "/paka/"); roman := Some (str "paka"); pos := Some (str "pl");
               meaning := Some (str "sun (pl)"); gender := gender_undefined |}] ∧
  ¬ NoDup [Some (str "pa"); Some (str "paka"); Some (str "paka")].
Proof.
  split; [unit_draws_literals|]. split; [vm_compute; reflexivity|].
  intros Hnodup. apply NoDup_cons in Hnodup as [_ Hnodup].
  apply NoDup_cons in Hnodup as [Hnotin _]. apply Hnotin. left.
Qed.

(** The same gap reaches sentence composition: an irregular derivation that
    draws the vowel the root already has gives a second noun with the
    romanized form of the first, and on the dictionary returned no call of
    [generateSentence] returns. *)
Lemma generate_homophone_nouns :
  unit_draws homophone_draws ∧
  outcome (Lexicon.generate (E := RegExp.Fragment) homophone_source homophone_draws)
  = Normal (dictionary homophone_state) ∧
  ∀ rnd fuel, unit_draws rnd →
              MorphoSyntax.generateSentence fuel homophone_state rnd = OutOfFuel.
Proof.
  split; [unit_draws_literals|]. split; [vm_compute; reflexivity|].
  intros rnd fuel Hr.
  assert (enough_vocabulary homophone_state) as Henough by (split; vm_compute; lia).
  apply generateSentence_diverges; [done|].
  apply same_roman_never_differs; [done..|].
  assert (MorphoSyntax.by_pos "noun" (dictionary homophone_state) =
          [entry "/pa/" "pa" "noun" "sun"; entry "/pa/" "pa" "noun" "sun (irregular noun)"])
    as -> by (vm_compute; reflexivity).
  intros n1 n2 Hn1 Hn2.
  repeat (apply elem_of_cons in Hn1 as [->|Hn1]); [..|by apply elem_of_nil in Hn1];
    repeat (apply elem_of_cons in Hn2 as [->|Hn2]); try (by apply elem_of_nil in Hn2);
    reflexivity.
Qed.

(** * Further properties *)

(** ** The length of a romanized form *)

Section RomanizeLength.
Import Phonology.

Lemma table_values_length :
  Forall (fun kv => (1 ≤ length kv.2 ≤ 2)%nat) ipaToRomanTable.
Proof. apply (bool_decide_unpack _). vm_compute. exact I. Qed.

Lemma romanize_char_length c : (1 ≤ length (romanize_char c) ≤ 2)%nat.
Proof.
  unfold romanize_char. destruct (ipaToRomanMap !! c) as [v|] eqn:Hv; [|simpl; lia].
  apply ipaToRomanMap_Some in Hv.
  pose proof (proj1 (Forall_forall _ _) table_values_length _ Hv) as Hlen. simpl in Hlen.
  destruct (truthy v); simpl; lia.
Qed.

(** X1. [romanize] writes one or two characters for each character of its
    argument: the romanized form is at least as long as the argument and
    at most twice as long, and it is empty for the empty string only (so
    the test of line 354 on the romanized loanword is a test on the
    assimilated word). *)
Theorem romanize_length ipaStr :
  (length ipaStr ≤ length (romanize ipaStr) ≤ 2 * length ipaStr)%nat ∧
  (romanize ipaStr = [] ↔ ipaStr = []).
Proof.
  assert (length ipaStr ≤ length (romanize ipaStr) ≤ 2 * length ipaStr)%nat as Hlen.
  { induction ipaStr as [|c s IH]; [simpl; lia|].
    rewrite romanize_cons, length_app. pose proof (romanize_char_length c).
    cbn [length]. lia. }
  split; [done|]. split.
  - intros Hempty. rewrite Hempty in Hlen. destruct ipaStr; [done|].
    cbn [length] in Hlen. lia.
  - by intros ->.
Qed.

End RomanizeLength.

(** ** The symbols of a synthesized word, and the tone marker *)

Section SynthesisSymbols.
Import RegExp Phonology.
Context {E : Engine}.

Lemma slot_symbol_run p word c rnd :
  unit_draws rnd → consonants p ≠ [] → vowels p ≠ [] →
  (is_slot c ∧ ∃ symbol, slot_symbol p c symbol ∧
                         slot p word c rnd = Normal (word ++ symbol, advance 1 rnd)) ∨
  (¬ is_slot c ∧ slot p word c rnd = Normal (word, rnd)).
Proof.
  intros Hr Hc Hv. unfold slot.
  destruct (Z.eqb_spec c (code "C")) as [->|HC];
    [|destruct (Z.eqb_spec c (code "V")) as [->|HV]].
  - left. split; [by left|]. unfold bind.
    destruct (random_element_unit (consonants p) rnd Hr Hc) as (x & Hx & ->).
    exists x. split; [by left|done].
  - left. split; [by right|]. unfold bind.
    destruct (random_element_unit (vowels p) rnd Hr Hv) as (x & Hx & ->).
    exists x. split; [by right|done].
  - right. split; [by intros [?|?]|done].
Qed.

Lemma for_of_slot_symbols p structure : ∀ word rnd,
  unit_draws rnd → consonants p ≠ [] → vowels p ≠ [] →
  ∃ symbols,
    Forall2 (slot_symbol p) (filter is_slot structure) symbols ∧
    for_of (slot p) structure word rnd =
    Normal (word ++ join_empty symbols, advance (length symbols) rnd).
Proof.
  induction structure as [|c structure IH]; intros word rnd Hr Hc Hv.
  - exists []. split; [apply Forall2_nil_2|]. simpl. by rewrite app_nil_r.
  - cbn [for_of]. unfold bind at 1.
    destruct (slot_symbol_run p word c rnd Hr Hc Hv)
      as [(Hslot & x & Hx & ->)|(Hslot & ->)].
    + destruct (IH (word ++ x) (advance 1 rnd)) as (symbols & Hsymbols & ->);
        [by apply unit_draws_advance|done..|].
      exists (x :: symbols). split.
      * rewrite (filter_cons_True is_slot) by done. by apply Forall2_cons_2.
      * unfold join_empty. cbn [concat length]. by rewrite <- app_assoc.
    + destruct (IH word rnd) as (symbols & Hsymbols & ->); [done..|].
      exists symbols. split; [|done]. by rewrite (filter_cons_False is_slot).
Qed.

(** X2. With draws in [0,1) and two non-empty inventories, the loop of
    lines 103-110 returns the concatenation of one inventory symbol for
    each C and each V of the template, in order: a consonant for a C, a
    vowel for a V, whole, whatever its length; every other character of
    the template gives nothing; and one draw is used per symbol. *)
Theorem buildWord_symbols p structure rnd :
  unit_draws rnd → consonants p ≠ [] → vowels p ≠ [] →
  ∃ symbols,
    Forall2 (slot_symbol p) (filter is_slot structure) symbols ∧
    buildWord p structure rnd = Normal (join_empty symbols, advance (length symbols) rnd).
Proof.
  intros Hr Hc Hv. unfold buildWord.
  destruct (for_of_slot_symbols p structure [] rnd Hr Hc Hv) as (symbols & Hsymbols & Hrun).
  exists symbols. split; [done|]. by rewrite Hrun.
Qed.

Lemma synthesize_run p rnd :
  unit_draws rnd → consonants p ≠ [] → vowels p ≠ [] → syllableStructures p ≠ [] →
  ∃ structure word rnd' k,
    synthesize p rnd = Normal ((structure, word), rnd') ∧
    ∀ n, rnd' n = rnd (k + n)%nat.
Proof.
  intros Hr Hc Hv Hs. unfold synthesize, bind.
  destruct (random_element_unit (syllableStructures p) rnd Hr Hs) as (structure & _ & ->).
  destruct (for_of_slot_symbols p structure [] (advance 1 rnd)) as (symbols & _ & Hrun);
    [by apply unit_draws_advance|done..|].
  unfold buildWord. rewrite Hrun.
  exists structure, (join_empty symbols), (advance (length symbols) (advance 1 rnd)),
    (S (length symbols)).
  split; [done|]. intros n. unfold advance. f_equal; lia.
Qed.

Lemma nonempty_guard p :
  consonants p ≠ [] → vowels p ≠ [] → syllableStructures p ≠ [] →
  (len (consonants p) =? 0) || (len (vowels p) =? 0) || (len (syllableStructures p) =? 0)
  = false.
Proof.
  intros Hc Hv Hs. unfold len.
  destruct (consonants p), (vowels p), (syllableStructures p); done.
Qed.

Lemma addTone_run t word rnd :
  tones_enabled t = true →
  addTone t word rnd =
  let tone := Qfloor (rnd 0%nat * inject_Z (tones_count t)) + 1 in
  if (0 <=? 0x2070 + tone) && (0x2070 + tone <=? 0x10FFFF)
  then Normal (word ++ [0x2070 + tone], advance 1 rnd) else Throw.
Proof.
  intros Hon. unfold addTone. rewrite Hon.
  unfold bind, floor_random_times, bind, Math_random, ret, fromCodePoint. cbn zeta.
  by destruct (_ && _).
Qed.

Lemma Qfloor_times (a : Z) (b : positive) (n : Z) :
  Qfloor ((a # b) * inject_Z n) = (a * n) `div` Z.pos b.
Proof. unfold Qfloor, Qmult, inject_Z. simpl. by rewrite Pos.mul_1_r. Qed.

(** With a draw in [0,1), [Math.floor(Math.random() * n)] lies between 0
    and [n - 1] for a positive [n], and between [n] and 0 otherwise. *)
Lemma Qfloor_unit_bounds (r : Q) (n : Z) :
  (0 <= r)%Q → (r < 1)%Q → Z.min n 0 ≤ Qfloor (r * inject_Z n) ≤ Z.max (n - 1) 0.
Proof.
  destruct r as [a b]. intros H0 H1. unfold Qle, Qlt in H0, H1. simpl in H0, H1.
  rewrite Qfloor_times.
  split.
  - apply Z.div_le_lower_bound; [lia|]. nia.
  - apply Z.lt_succ_r. apply Z.div_lt_upper_bound; [lia|]. nia.
Qed.

Lemma generateWord_run p rnd :
  unit_draws rnd → consonants p ≠ [] → vowels p ≠ [] → syllableStructures p ≠ [] →
  ∃ word rnd' k,
    (∀ n, rnd' n = rnd (k + n)%nat) ∧
    generateWord p rnd =
    match addTone (tones p) word rnd' with
    | Normal (finalWord, rnd'') => Normal (Some finalWord, rnd'')
    | Throw => Throw
    | OutOfFuel => OutOfFuel
    end.
Proof.
  intros Hr Hc Hv Hs. unfold generateWord. rewrite nonempty_guard by done.
  destruct (synthesize_run p rnd Hr Hc Hv Hs) as (structure & word & rnd' & k & Hrun & Hk).
  exists (applyPhonologicalRules p word), rnd', k. split; [done|].
  unfold bind at 1. rewrite Hrun. unfold bind.
  by destruct (addTone _ _ _) as [[finalWord rnd'']| |].
Qed.

Lemma unit_draws_shift rnd rnd' k :
  unit_draws rnd → (∀ n, rnd' n = rnd (k + n)%nat) → unit_draws rnd'.
Proof. intros Hr Hk n. rewrite Hk. apply Hr. Qed.

Lemma addTone_in_range t word rnd :
  unit_draws rnd → tone_in_range t →
  ∃ finalWord,
    addTone t word rnd = Normal (finalWord, advance (if tones_enabled t then 1 else 0) rnd).
Proof.
  intros Hr Hrange. destruct (tones_enabled t) eqn:Hon.
  - rewrite addTone_run by done. cbn zeta.
    pose proof (Qfloor_unit_bounds (rnd 0%nat) (tones_count t)
                  (proj1 (Hr 0%nat)) (proj2 (Hr 0%nat))) as Hfloor.
    specialize (Hrange Hon).
    replace (_ && _) with true; [by eexists|].
    symmetry. apply andb_true_intro. split; apply Z.leb_le; lia.
  - unfold addTone. rewrite Hon. by exists word.
Qed.

Lemma extreme_draw_unit count :
  count ≠ 0 → (0 <= extreme_draw count)%Q ∧ (extreme_draw count < 1)%Q.
Proof.
  intros Hcount. unfold extreme_draw, Qle, Qlt.
  destruct (Z.ltb_spec 0 count); simpl; rewrite ?Z2Pos.id by lia; lia.
Qed.

Lemma extreme_draw_floor count :
  count ≠ 0 →
  Qfloor (extreme_draw count * inject_Z count) = if 0 <? count then count - 1 else count.
Proof.
  intros Hcount. unfold extreme_draw.
  destruct (Z.ltb_spec 0 count); rewrite Qfloor_times, Z2Pos.id by lia; symmetry.
  - apply (Z.div_unique _ _ _ 0); lia.
  - apply (Z.div_unique _ _ _ (- count)); lia.
Qed.

(** X3. With non-empty inventories and a non-empty template set,
    [generateWord] returns a word (never [null], never an exception) for
    every stream of draws in [0,1) when the tones are off or the tone
    count lies between -8305 and 1105807; for any other count, there is a
    draw in [0,1) on which [String.fromCodePoint] (line 116) throws its
    RangeError out of [generateWord], whatever the rules. *)
Theorem generateWord_word_or_RangeError p :
  consonants p ≠ [] → vowels p ≠ [] → syllableStructures p ≠ [] →
  (tone_in_range (tones p) →
   ∀ rnd, unit_draws rnd →
          ∃ word rnd', generateWord p rnd = Normal (Some word, rnd') ∧ unit_draws rnd') ∧
  (¬ tone_in_range (tones p) →
   ∃ r, unit_draws (constant_draws r) ∧ generateWord p (constant_draws r) = Throw).
Proof.
  intros Hc Hv Hs. split.
  - intros Hrange rnd Hr.
    destruct (generateWord_run p rnd Hr Hc Hv Hs) as (word & rnd' & k & Hk & ->).
    pose proof (unit_draws_shift rnd rnd' k Hr Hk) as Hr'.
    destruct (addTone_in_range (tones p) word rnd' Hr' Hrange) as (finalWord & ->).
    exists finalWord. eexists. split; [done|]. by apply unit_draws_advance.
  - intros Hrange. unfold tone_in_range in Hrange.
    destruct (tones_enabled (tones p)) eqn:Hon; [|by destruct Hrange].
    assert (tones_count (tones p) < - 0x2071 ∨ 0x10FFFF - 0x2070 < tones_count (tones p))
      as Hcount by lia.
    set (count := tones_count (tones p)) in *.
    assert (count ≠ 0) as Hnonzero by lia.
    exists (extreme_draw count).
    assert (unit_draws (constant_draws (extreme_draw count))) as Hr.
    { intros n. by apply extreme_draw_unit. }
    split; [done|].
    destruct (generateWord_run p _ Hr Hc Hv Hs) as (word & rnd' & k & Hk & ->).
    rewrite addTone_run by done. cbn zeta. rewrite Hk. unfold constant_draws.
    fold count. rewrite extreme_draw_floor by done.
    replace (_ && _) with false; [done|]. symmetry. apply andb_false_iff.
    destruct (Z.ltb_spec 0 count); [right|left]; apply Z.leb_gt; lia.
Qed.

End SynthesisSymbols.

Lemma buildWord_symbols_witness :
  unit_draws small_draws ∧
  consonants (ptk_aiu ["CVN"]%string [] no_tones) ≠ [] ∧
  vowels (ptk_aiu ["CVN"]%string [] no_tones) ≠ [] ∧
  ∃ symbols,
    Forall2 (slot_symbol (ptk_aiu ["CVN"]%string [] no_tones))
      (filter is_slot (str "CVN")) symbols ∧
    Phonology.buildWord (ptk_aiu ["CVN"]%string [] no_tones) (str "CVN") small_draws =
    Normal (join_empty symbols, advance (length symbols) small_draws).
Proof.
  assert (unit_draws small_draws) as Hr by unit_draws_literals.
  assert (consonants (ptk_aiu ["CVN"]%string [] no_tones) ≠ []) as Hc by done.
  assert (vowels (ptk_aiu ["CVN"]%string [] no_tones) ≠ []) as Hv by done.
  repeat (split; [assumption|]).
  exact (buildWord_symbols (ptk_aiu ["CVN"]%string [] no_tones) (str "CVN") small_draws
           Hr Hc Hv).
Defined.

Lemma generateWord_word_or_RangeError_witness :
  consonants (ptk_aiu ["CV"]%string [] three_tones) ≠ [] ∧
  vowels (ptk_aiu ["CV"]%string [] three_tones) ≠ [] ∧
  syllableStructures (ptk_aiu ["CV"]%string [] three_tones) ≠ [] ∧
  tone_in_range three_tones ∧
  ∀ rnd, unit_draws rnd →
         ∃ word rnd',
           Phonology.generateWord (E := RegExp.Fragment) (ptk_aiu ["CV"]%string [] three_tones)
             rnd = Normal (Some word, rnd') ∧ unit_draws rnd'.
Proof.
  assert (consonants (ptk_aiu ["CV"]%string [] three_tones) ≠ []) as Hc by done.
  assert (vowels (ptk_aiu ["CV"]%string [] three_tones) ≠ []) as Hv by done.
  assert (syllableStructures (ptk_aiu ["CV"]%string [] three_tones) ≠ []) as Hs by done.
  assert (tone_in_range three_tones) as Hrange by (intros _; simpl; lia).
  repeat (split; [assumption|]).
  exact (proj1 (generateWord_word_or_RangeError (E := RegExp.Fragment)
                  (ptk_aiu ["CV"]%string [] three_tones) Hc Hv Hs) Hrange).
Defined.

(** ** Loanword assimilation *)

Ltac codes :=
  repeat match goal with
         | |- context [code ?s] =>
             let v := eval vm_compute in (code s) in change (code s) with v
         end.

Ltac own_inventory H :=
  unfold inventory_of in H;
  repeat match type of H with
         | context [bool_decide ?P] =>
             let b := eval vm_compute in (bool_decide P) in
             change (bool_decide P) with b in H
         end;
  cbn iota in H.

Section Sounds.
Import Phonology.

Lemma findClosestSound_in sound candidates inventory :
  inventory ≠ [] → _findClosestSound sound candidates inventory ∈ inventory.
Proof.
  intros Hinv. unfold _findClosestSound.
  destruct (List.find _ candidates) as [candidate|] eqn:Hfind.
  - apply find_some in Hfind as [_ Hin]. by apply bool_decide_eq_true in Hin.
  - destruct inventory; [done|]. apply list_elem_of_here.
Qed.

Lemma findClosestSound_first sound candidate candidates inventory :
  candidate ∈ inventory →
  _findClosestSound sound (candidate :: candidates) inventory = candidate.
Proof.
  intros Hin. unfold _findClosestSound. simpl. by rewrite bool_decide_eq_true_2.
Qed.

Lemma soundMap_in p c sound :
  consonants p ≠ [] → vowels p ≠ [] →
  soundMap (consonants p) (vowels p) !! c = Some sound → sound ∈ inventory_of p c.
Proof.
  intros Hc Hv Hlookup. apply elem_of_list_to_map_2 in Hlookup.
  assert (consonants p ++ vowels p ≠ []) as Hcv by (by destruct (consonants p)).
  repeat (apply elem_of_cons in Hlookup as [Hlookup|Hlookup];
          [injection Hlookup as -> ->; by apply findClosestSound_in|]).
  by apply elem_of_nil in Hlookup.
Qed.

(** The keys of [soundMap] are the twenty-six letters. *)
Lemma soundMap_None p c :
  soundMap (consonants p) (vowels p) !! c = None ↔ ¬ is_letter c.
Proof.
  unfold soundMap, is_letter. rewrite <- not_elem_of_list_to_map.
  cbn [fmap list_fmap fst]. rewrite !not_elem_of_cons. codes.
  split; [lia|]. intros Hc. repeat (split; [lia|]). apply not_elem_of_nil.
Qed.

Lemma lower_char_own c : c ∈ own_sound → lower_char c = [c].
Proof.
  intros Hc. repeat (apply elem_of_cons in Hc as [->|Hc]; [done|]).
  by apply elem_of_nil in Hc.
Qed.

Lemma own_sound_letter c : c ∈ own_sound → is_letter c.
Proof.
  intros Hc. repeat (apply elem_of_cons in Hc as [->|Hc]; [by vm_compute|]).
  by apply elem_of_nil in Hc.
Qed.

Lemma soundMap_own p c :
  c ∈ own_sound → [c] ∈ inventory_of p c →
  soundMap (consonants p) (vowels p) !! c = Some [c].
Proof.
  intros Hc Hin.
  destruct (soundMap (consonants p) (vowels p) !! c) as [sound|] eqn:Hsound.
  2: { apply soundMap_None in Hsound. by apply own_sound_letter in Hc. }
  f_equal. apply elem_of_list_to_map_2 in Hsound.
  repeat (apply elem_of_cons in Hc as [->|Hc];
    [own_inventory Hin;
     repeat (apply elem_of_cons in Hsound as [Hsound|Hsound];
       [apply pair_equal_spec in Hsound as [Hkey ->];
        first [by vm_compute in Hkey | by apply findClosestSound_first]|]);
     by apply elem_of_nil in Hsound|]).
  by apply elem_of_nil in Hc.
Qed.

Lemma assimilate_letters p (word : list Z) :
  consonants p ≠ [] → vowels p ≠ [] →
  ∃ sounds,
    Forall2 (fun c sound => sound ∈ inventory_of p c) (filter is_letter word) sounds ∧
    join_empty ((fun char => default [] (soundMap (consonants p) (vowels p) !! char)) <$> word)
    = join_empty sounds.
Proof.
  intros Hc Hv. induction word as [|c word (sounds & Hsounds & IH)].
  - exists []. split; [apply Forall2_nil_2|done].
  - rewrite fmap_cons. unfold join_empty in *. cbn [concat]. rewrite IH.
    destruct (soundMap (consonants p) (vowels p) !! c) as [sound|] eqn:Hsound.
    + exists (sound :: sounds). split; [|done].
      rewrite (filter_cons_True is_letter).
      * apply Forall2_cons_2; [by apply soundMap_in|done].
      * destruct (decide (is_letter c)) as [|Hno]; [done|].
        apply (soundMap_None p) in Hno.
        pose proof (eq_trans (eq_sym Hsound) Hno). discriminate.
    + exists sounds. split; [|done].
      rewrite (filter_cons_False is_letter); [done|]. by apply (soundMap_None p).
Qed.

(** X4. With two non-empty inventories, [assimilate] returns the
    concatenation of one sound of the language for each letter a to z of
    the lower-cased word, in order, and nothing for any other character:
    a vowel of the inventory for a, e, i, o and u, a consonant or a vowel
    for y and w, a consonant for every other letter. *)
Theorem assimilate_sounds p word :
  consonants p ≠ [] → vowels p ≠ [] →
  ∃ sounds,
    Forall2 (fun c sound => sound ∈ inventory_of p c) (filter is_letter (toLowerCase word))
      sounds ∧
    assimilate p word = join_empty sounds.
Proof.
  intros Hc Hv. unfold assimilate.
  replace ((len (consonants p) =? 0) || (len (vowels p) =? 0)) with false.
  - by apply assimilate_letters.
  - symmetry. apply orb_false_intro; apply Z.eqb_neq; unfold len;
      [destruct (consonants p)|destruct (vowels p)]; simpl; done || lia.
Qed.

(** X5. [assimilate] returns unchanged a word written with the letters
    p b t d k g f v s z m n l r h w a e i o u only, each of them a sound of
    the inventory in which the source looks for it. *)
Theorem assimilate_native p word :
  (∀ c, c ∈ word → c ∈ own_sound ∧ [c] ∈ inventory_of p c) →
  assimilate p word = word.
Proof.
  intros Hword. unfold assimilate. destruct (_ || _); [done|].
  assert (toLowerCase word = word) as ->.
  { unfold toLowerCase. induction word as [|c word IH]; [done|].
    rewrite bind_cons, IH by (intros d Hd; apply Hword; by right).
    rewrite lower_char_own; [done|]. apply Hword. by left. }
  induction word as [|c word IH]; [done|].
  rewrite fmap_cons. unfold join_empty in *. cbn [concat].
  rewrite IH by (intros d Hd; apply Hword; by right).
  destruct (Hword c) as [Hown Hin]; [by left|].
  by rewrite soundMap_own.
Qed.

End Sounds.

Lemma assimilate_sounds_witness :
  consonants (ptk_aiu ["CV"]%string [] no_tones) ≠ [] ∧
  vowels (ptk_aiu ["CV"]%string [] no_tones) ≠ [] ∧
  ∃ sounds,
    Forall2 (fun c sound => sound ∈ inventory_of (ptk_aiu ["CV"]%string [] no_tones) c)
      (filter is_letter (toLowerCase (str "phone"))) sounds ∧
    Phonology.assimilate (ptk_aiu ["CV"]%string [] no_tones) (str "phone") = join_empty sounds.
Proof.
  assert (consonants (ptk_aiu ["CV"]%string [] no_tones) ≠ []) as Hc by done.
  assert (vowels (ptk_aiu ["CV"]%string [] no_tones) ≠ []) as Hv by done.
  repeat (split; [assumption|]).
  exact (assimilate_sounds (ptk_aiu ["CV"]%string [] no_tones) (str "phone") Hc Hv).
Defined.

Lemma assimilate_native_witness :
  (∀ c, c ∈ str "radio" → c ∈ own_sound ∧ [c] ∈ inventory_of rdt_aio c) ∧
  Phonology.assimilate rdt_aio (str "radio") = str "radio".
Proof.
  assert (∀ c, c ∈ str "radio" → c ∈ own_sound ∧ [c] ∈ inventory_of rdt_aio c) as Hword.
  { intros c Hc.
    repeat (apply elem_of_cons in Hc as [->|Hc];
            [split; apply (bool_decide_unpack _); vm_compute; exact I|]).
    by apply elem_of_nil in Hc. }
  split; [assumption|]. exact (assimilate_native rdt_aio (str "radio") Hword).
Defined.

(** ** What Lexicon.generate returns *)

Section GenerationEntries.
Import RegExp Phonology MorphoSyntax Lexicon.
Context {E : Engine}.














End GenerationEntries.

(** ** Invariants of Lexicon.generate *)

Section GenerationInvariants.
Import RegExp Phonology MorphoSyntax Lexicon.
Context {E : Engine}.

Lemma for_of_invariant_elem {A S} (I : S → Prop) (body : S → A → M S) arr :
  (∀ acc x rnd acc' rnd', x ∈ arr → I acc → body acc x rnd = Normal (acc', rnd') → I acc') →
  ∀ acc rnd acc' rnd', I acc → for_of body arr acc rnd = Normal (acc', rnd') → I acc'.
Proof.
  induction arr as [|x arr IH]; simpl; intros Hstep acc rnd acc' rnd' HI Hrun.
  - by injection Hrun as <- _.
  - unfold bind in Hrun.
    destruct (body acc x rnd) as [[acc1 rnd1]| |] eqn:Hbody; [|done..].
    eapply IH; [|by eapply Hstep; [left|..]|done].
    intros ? y ? ? ? Hy. apply Hstep. by right.
Qed.

Lemma slice_between_slashes (x : list Z) : slice_1_m1 (str "/" ++ x ++ str "/") = x.
Proof.
  change (str "/") with [47]. cbn [app slice_1_m1].
  rewrite length_app. cbn [length]. rewrite Nat.add_sub. by rewrite take_app_length.
Qed.

Lemma mint_roman p generatedRomans : ∀ fuel attempts rnd x roman rnd',
  mint fuel p generatedRomans attempts rnd = Normal (Some (x, roman), rnd') →
  roman = romanize x.
Proof.
  induction fuel as [|fuel IH]; intros attempts rnd x roman rnd'; simpl; unfold bind;
    (destruct (generateWord p rnd) as [[[word|] rnd1]| |]; [|done..]);
    (destruct (truthy word); [|done]);
    case_bool_decide as Hin; simpl;
    destruct (attempts + 1 <? 10); simpl; try done;
    try (intros [= <- <- _]; done).
  apply IH.
Qed.

Lemma add_root_romanized st acc chosen rnd acc' rnd' :
  Forall romanized acc.1 → add_root st acc chosen rnd = Normal (acc', rnd') →
  Forall romanized acc'.1.
Proof.
  destruct acc as [newDictionary generatedRomans]. intros Hinv.
  unfold add_root, bind.
  destruct (mint 10 _ _ 0 rnd) as [[[[x roman]|] rnd1]| |] eqn:Hmint; [| |done..].
  2: { by intros [= <- _]. }
  apply mint_roman in Hmint as ->. rewrite random_element_run.
  destruct (_ && _); simpl; unfold bind; rewrite ?random_element_run; unfold ret;
    intros [= <- _]; simpl; (apply Forall_app; split; [done|]);
    (apply Forall_cons_2; [by exists x|apply Forall_nil_2]).
Qed.

Lemma applyDerivation_romanized word morpheme w :
  romanized word → applyDerivation word morpheme = Some w → romanized w.
Proof.
  intros (x & Hipa & Hroman). unfold applyDerivation. rewrite Hipa, Hroman.
  cbn [mbind option_bind]. rewrite (slice_between_slashes x).
  destruct (bool_decide _); intros [= <-]; eexists; (split; [reflexivity|]); simpl;
    by rewrite romanize_app.
Qed.

Lemma irregular_romanized vowels word morpheme rnd w rnd' :
  irregular vowels word morpheme rnd = Normal (Some w, rnd') → romanized w.
Proof.
  unfold irregular. destruct (0 <? len vowels); [|done].
  destruct (ipa word); [|done]. unfold bind. rewrite random_element_run.
  destruct (lastVowelIndex _ _); [|done]. intros [= <- _]. by eexists.
Qed.

Lemma derive_romanized st morpheme derivedWords word rnd derivedWords' rnd' :
  romanized word → Forall romanized derivedWords →
  derive st morpheme derivedWords word rnd = Normal (derivedWords', rnd') →
  Forall romanized derivedWords'.
Proof.
  intros Hword Hinv. unfold derive, bind, Math_random.
  destruct (Qlt_le_dec _ _); [|by intros [= <- _]].
  destruct (Qlt_le_dec _ _).
  - destruct (irregular _ _ _ _) as [[[w|] rnd1]| |] eqn:Hrun; [| |done..];
      intros [= <- _]; simpl; [|by rewrite app_nil_r].
    apply Forall_app. split; [done|].
    apply Forall_cons_2; [by eapply irregular_romanized|apply Forall_nil_2].
  - destruct (applyDerivation word morpheme) as [w|] eqn:Hw; [|done].
    intros [= <- _]. apply Forall_app. split; [done|].
    apply Forall_cons_2; [by eapply applyDerivation_romanized|apply Forall_nil_2].
Qed.

Lemma add_loanword_romanized st dictionary i rnd dictionary' rnd' :
  Forall romanized dictionary →
  add_loanword st dictionary i rnd = Normal (dictionary', rnd') →
  Forall romanized dictionary'.
Proof.
  intros Hinv. unfold add_loanword, bind. rewrite random_element_run.
  destruct (at_ _ _) as [sourceWord|]; [|done].
  destruct (_ && _); intros [= <- _]; [|done].
  apply Forall_app. split; [done|]. apply Forall_cons_2; [by eexists|apply Forall_nil_2].
Qed.

(** X9. In every dictionary that [generate] returns, whatever the draws,
    each entry (root, regular or irregular derivation, loanword) has a
    word between two slashes as [ipa], and the romanized form of exactly
    that word as [roman]: [applyDerivation] romanizes the affix and the
    root apart, which gives the romanized form of the whole. *)
Theorem generate_roman_of_ipa st rnd dictionary :
  outcome (generate st rnd) = Normal dictionary → Forall romanized dictionary.
Proof.
  intros Hrun. destruct (generate st rnd) as [[d rnd']| |] eqn:Hgenerate; [|done..].
  injection Hrun as ->. revert Hgenerate. unfold generate, bind.
  destruct (select _ _ _ _ rnd) as [[meanings rnd1]| |]; [|done..].
  destruct (for_of (add_root st) meanings _ rnd1) as [[[roots romans] rnd2]| |] eqn:Hroots;
    [|done..].
  apply (for_of_invariant (fun acc => Forall romanized acc.1)) in Hroots.
  2: { intros. by eapply add_root_romanized. }
  2: { apply Forall_nil_2. }
  simpl in Hroots.
  destruct (for_of _ (derivationalMorphemes _) _ rnd2) as [[derived rnd3]| |] eqn:Hderived;
    [|done..].
  apply (for_of_invariant (Forall romanized)) in Hderived.
  2: { intros derivedWords morpheme r derivedWords' r' Hinv Hwords.
       apply (for_of_invariant_elem (Forall romanized)) in Hwords; [done| |done].
       intros acc word ? ? ? Hword Hacc. apply derive_romanized; [|done].
       by apply (proj1 (Forall_forall _ _) Hroots). }
  2: { apply Forall_nil_2. }
  assert (Forall romanized (roots ++ derived)) as Hboth by (by apply Forall_app).
  destruct (loanwords_enabled _).
  - intros Hloans. apply (for_of_invariant (Forall romanized)) in Hloans; [done| |done].
    intros. by eapply add_loanword_romanized.
  - by intros [= <- _].
Qed.

Lemma for_of_grows {A S} (size : S → nat) (step : nat) (body : S → A → M S) arr :
  (∀ acc x rnd acc' rnd', body acc x rnd = Normal (acc', rnd') →
                          (size acc' ≤ size acc + step)%nat) →
  ∀ acc rnd acc' rnd', for_of body arr acc rnd = Normal (acc', rnd') →
                       (size acc' ≤ size acc + step * length arr)%nat.
Proof.
  intros Hstep. induction arr as [|x arr IH]; simpl; intros acc rnd acc' rnd' Hrun.
  - injection Hrun as <- _. lia.
  - unfold bind in Hrun.
    destruct (body acc x rnd) as [[acc1 rnd1]| |] eqn:Hbody; [|done..].
    apply IH in Hrun. apply Hstep in Hbody. lia.
Qed.

Lemma select_one_length fields s rnd s' rnd' :
  select_one fields s rnd = Normal (s', rnd') →
  (length (meaningsToGenerate s') ≤ length (meaningsToGenerate s) + 1)%nat.
Proof.
  unfold select_one.
  destruct (field_words _) as [words|].
  - destruct (0 <? len _).
    + unfold bind at 1 2. rewrite random_element_run. intros [= <- _].
      cbn [meaningsToGenerate]. rewrite length_app. simpl. lia.
    + intros [= <- _]. cbn [meaningsToGenerate]. lia.
  - destruct (bool_decide _); intros [= <- _]; cbn [meaningsToGenerate];
      rewrite ?length_app; simpl; lia.
Qed.

Lemma select_length fields rootCount : ∀ fuel s rnd meanings rnd',
  len (meaningsToGenerate s) ≤ Z.max 0 rootCount →
  select fuel fields rootCount s rnd = Normal (meanings, rnd') →
  len meanings ≤ Z.max 0 rootCount.
Proof.
  induction fuel as [|fuel IH]; intros s rnd meanings rnd' Hlen; simpl;
    destruct (Z.ltb_spec (len (meaningsToGenerate s)) rootCount) as [Hlt|Hge]; try done;
    try (by intros [= <- _]).
  unfold bind.
  destruct (select_one fields s rnd) as [[s' rnd1]| |] eqn:Hone; [|done..].
  apply select_one_length in Hone.
  assert (len (meaningsToGenerate s') ≤ Z.max 0 rootCount) by (unfold len in *; lia).
  destruct (_ && _); [by intros [= <- _]|]. by apply IH.
Qed.

Lemma add_root_length st acc chosen rnd acc' rnd' :
  add_root st acc chosen rnd = Normal (acc', rnd') →
  (length acc'.1 ≤ length acc.1 + 1)%nat.
Proof.
  destruct acc as [newDictionary generatedRomans]. unfold add_root, bind.
  destruct (mint 10 _ _ 0 rnd) as [[[[x roman]|] rnd1]| |]; [| |done..].
  2: { intros [= <- _]. simpl. lia. }
  rewrite random_element_run.
  destruct (_ && _); simpl; unfold bind; rewrite ?random_element_run; unfold ret;
    intros [= <- _]; simpl; rewrite length_app; simpl; lia.
Qed.

Lemma derive_length st morpheme derivedWords word rnd derivedWords' rnd' :
  derive st morpheme derivedWords word rnd = Normal (derivedWords', rnd') →
  (length derivedWords' ≤ length derivedWords + 1)%nat.
Proof.
  unfold derive, bind, Math_random.
  destruct (Qlt_le_dec _ _); [|intros [= <- _]; lia].
  destruct (Qlt_le_dec _ _).
  - destruct (irregular _ _ _ _) as [[[w|] rnd1]| |]; [| |done..];
      intros [= <- _]; rewrite length_app; simpl; lia.
  - destruct (applyDerivation word morpheme) as [w|]; [|done].
    intros [= <- _]. rewrite length_app. simpl. lia.
Qed.

Lemma add_loanword_length st dictionary i rnd dictionary' rnd' :
  add_loanword st dictionary i rnd = Normal (dictionary', rnd') →
  (length dictionary' ≤ length dictionary + 1)%nat.
Proof.
  unfold add_loanword, bind. rewrite random_element_run.
  destruct (at_ _ _) as [sourceWord|]; [|done].
  destruct (_ && _); intros [= <- _]; rewrite ?length_app; simpl; lia.
Qed.

Lemma Qfloor_five_percent (n : Z) : Qfloor (inject_Z n * (5 # 100)) = n `div` 20.
Proof.
  unfold Qfloor, Qmult, inject_Z. cbn [Qnum Qden Pos.mul].
  change (Z.pos (1 * 100)) with (20 * 5). by rewrite Z.div_mul_cancel_r.
Qed.

Lemma generate_roots_length st rnd roots generatedRomans rnd' :
  generate_roots st rnd = Normal ((roots, generatedRomans), rnd') →
  len roots ≤ Z.max 0 (rootCount (lexicon st)).
Proof.
  unfold generate_roots, bind.
  destruct (select _ _ _ _ rnd) as [[meanings rnd1]| |] eqn:Hselect; [|done..].
  apply select_length in Hselect; [|unfold len; simpl; lia].
  intros Hroots. apply (for_of_grows (fun acc => length acc.1) 1) in Hroots.
  2: { intros. by eapply add_root_length. }
  simpl in Hroots. unfold len in *. lia.
Qed.

Lemma derive_adds st morpheme derivedWords word rnd derivedWords' rnd' :
  derive st morpheme derivedWords word rnd = Normal (derivedWords', rnd') →
  ∃ new, derivedWords' = derivedWords ++ new ∧ (length new ≤ 1)%nat ∧
         Forall (fun w => pos w = Some (func morpheme)) new.
Proof.
  unfold derive, bind, Math_random.
  destruct (Qlt_le_dec _ _).
  2: { intros [= <- _]. exists []. rewrite app_nil_r.
       split_and!; [done|simpl; lia|apply Forall_nil_2]. }
  destruct (Qlt_le_dec _ _).
  - destruct (irregular _ _ _ _) as [[[w|] rnd1]| |] eqn:Hrun; [| |done..];
      intros [= <- _].
    + exists [w]. split; [done|]. split; [done|].
      apply Forall_cons_2; [|apply Forall_nil_2].
      revert Hrun. unfold irregular. destruct (0 <? len _); [|done].
      destruct (ipa word); [|done]. unfold bind. rewrite random_element_run.
      destruct (lastVowelIndex _ _); [|done]. by intros [= <- _].
    + exists []. split_and!; [done|simpl; lia|apply Forall_nil_2].
  - destruct (applyDerivation word morpheme) as [w|] eqn:Hw; [|done].
    intros [= <- _]. exists [w]. split; [done|]. split; [done|].
    apply Forall_cons_2; [|apply Forall_nil_2].
    revert Hw. unfold applyDerivation. destruct (ipa word); [|done]. simpl.
    destruct (bool_decide _); by intros [= <-].
Qed.

Lemma derive_words_group st morpheme : ∀ words derivedWords rnd derivedWords' rnd',
  for_of (derive st morpheme) words derivedWords rnd = Normal (derivedWords', rnd') →
  ∃ group, derivedWords' = derivedWords ++ group ∧ derived_group words morpheme group.
Proof.
  induction words as [|word words IH]; simpl; intros derivedWords rnd derivedWords' rnd'.
  - intros [= <- _]. exists []. rewrite app_nil_r. split; [done|]. split; [done|].
    apply Forall_nil_2.
  - unfold bind.
    destruct (derive st morpheme derivedWords word rnd) as [[acc rnd1]| |] eqn:Hone; [|done..].
    apply derive_adds in Hone as (new & -> & Hlen & Hpos).
    intros (group & -> & Hlen' & Hpos')%IH.
    exists (new ++ group). split; [by rewrite app_assoc|]. split.
    + rewrite length_app. simpl. lia.
    + by apply Forall_app.
Qed.

Lemma derive_morphemes_groups st roots : ∀ morphemes derivedWords rnd derivedWords' rnd',
  for_of (fun derivedWords morpheme => for_of (derive st morpheme) roots derivedWords)
    morphemes derivedWords rnd = Normal (derivedWords', rnd') →
  ∃ groups, derivedWords' = derivedWords ++ concat groups ∧
            Forall2 (derived_group roots) morphemes groups.
Proof.
  induction morphemes as [|morpheme morphemes IH]; simpl;
    intros derivedWords rnd derivedWords' rnd'.
  - intros [= <- _]. exists []. simpl. rewrite app_nil_r. split; [done|]. apply Forall2_nil_2.
  - unfold bind.
    destruct (for_of (derive st morpheme) roots derivedWords rnd) as [[acc rnd1]| |] eqn:Hone;
      [|done..].
    apply derive_words_group in Hone as (group & -> & Hgroup).
    intros (groups & -> & Hgroups)%IH.
    exists (group :: groups). simpl. split; [by rewrite app_assoc|].
    by apply Forall2_cons_2.
Qed.

Lemma concat_groups_length roots : ∀ morphemes groups,
  Forall2 (derived_group roots) morphemes groups →
  (length (concat groups) ≤ length morphemes * length roots)%nat.
Proof.
  intros morphemes groups Hgroups.
  induction Hgroups as [|morpheme group morphemes groups [Hlen _] _ IH]; [done|].
  simpl. rewrite length_app. lia.
Qed.

Lemma generate_loanwords_length st dictionary rnd loans rnd' :
  generate_loanwords st dictionary rnd = Normal (dictionary ++ loans, rnd') →
  len loans ≤
    if loanwords_enabled (lexicon st) then Z.max 1 (rootCount (lexicon st) `div` 20) else 0.
Proof.
  unfold generate_loanwords. rewrite Qfloor_five_percent.
  destruct (loanwords_enabled _).
  - intros Hloans. apply (for_of_grows length 1) in Hloans.
    2: { intros. by eapply add_loanword_length. }
    rewrite length_seq, length_app in Hloans. unfold len. lia.
  - intros [= Heq _]. rewrite <- (app_nil_r dictionary) in Heq at 1.
    apply app_inv_head in Heq as <-. done.
Qed.

(** X10. The size of a dictionary that [generate] returns, whatever the
    draws.  The first loop builds at most n roots, with n the root count
    (0 when it is negative); the second derives, for each morpheme in
    turn, at most one entry per root, each with the function of the
    morpheme as part of speech; the third adds at most
    max(1, floor(rootCount / 20)) loanwords when they are on, and none
    when they are off.  So the dictionary has at most
    n + morphemes * n entries and the loanwords. *)
Theorem generate_size st rnd dictionary :
  outcome (generate st rnd) = Normal dictionary →
  ∃ roots groups loans,
    generate_passes st rnd roots (concat groups) loans ∧
    dictionary = roots ++ concat groups ++ loans ∧
    len roots ≤ Z.max 0 (rootCount (lexicon st)) ∧
    Forall2 (derived_group roots) (derivationalMorphemes (morphoSyntax st)) groups ∧
    len loans ≤
      (if loanwords_enabled (lexicon st) then Z.max 1 (rootCount (lexicon st) `div` 20) else 0) ∧
    len dictionary ≤
      Z.max 0 (rootCount (lexicon st)) +
      len (derivationalMorphemes (morphoSyntax st)) * Z.max 0 (rootCount (lexicon st)) +
      (if loanwords_enabled (lexicon st) then Z.max 1 (rootCount (lexicon st) `div` 20) else 0).
Proof.
  intros Hrun. destruct (generate st rnd) as [[d rnd']| |] eqn:Hgenerate; [|done..].
  injection Hrun as ->.
  apply generate_passes_inv in Hgenerate as (roots & derived & loans & Hpasses & ->).
  pose proof Hpasses as (romans & rnd1 & rnd2 & rnd3 & Hroots & Hderived & Hloans).
  apply generate_roots_length in Hroots.
  apply derive_morphemes_groups in Hderived as (groups & Heq & Hgroups).
  simpl in Heq. subst derived.
  apply generate_loanwords_length in Hloans.
  exists roots, groups, loans. split_and!; try done.
  apply concat_groups_length in Hgroups. unfold len in *.
  assert (Z.of_nat (length (concat groups)) ≤
          Z.of_nat (length (derivationalMorphemes (morphoSyntax st))) *
          Z.max 0 (rootCount (lexicon st))) as Hderived.
  { etrans; [apply Nat2Z.inj_le, Hgroups|]. rewrite Nat2Z.inj_mul.
    apply Z.mul_le_mono_nonneg_l; lia. }
  rewrite !length_app, !Nat2Z.inj_add.
  set (most := Z.max 0 _) in *. set (borrowed := if loanwords_enabled _ then _ else _) in *.
  lia.
Qed.

End GenerationInvariants.

(** ** The irregular variant *)

Section Irregular.
Import Phonology Lexicon.

Lemma vowel_indices_none (vowels : list jsstring) (after : list Z) : ∀ (index : nat → nat),
  Forall (fun d => [d] ∉ vowels) after →
  omap (fun ci : nat * Z => if bool_decide ([ci.2] ∈ vowels) then Some ci.1 else None)
       (imap (fun i c => (index i, c)) after) = [].
Proof.
  induction after as [|d after IH]; intros index Hafter; [done|].
  apply Forall_cons in Hafter as [Hd Hafter]. cbn [imap omap list_omap].
  cbn [snd]. rewrite bool_decide_eq_false_2 by done. apply (IH (index ∘ S) Hafter).
Qed.

Lemma lastVowelIndex_None (vowels : list jsstring) (x : list Z) :
  Forall (fun d => [d] ∉ vowels) x → lastVowelIndex vowels x = None.
Proof.
  intros Hx. unfold lastVowelIndex.
  replace (omap _ _) with (@nil nat); [done|].
  symmetry. exact (vowel_indices_none vowels x id Hx).
Qed.

Lemma lastVowelIndex_Some (vowels : list jsstring) (before : list Z) c after :
  [c] ∈ vowels → Forall (fun d => [d] ∉ vowels) after →
  lastVowelIndex vowels (before ++ c :: after) = Some (length before).
Proof.
  intros Hc Hafter. unfold lastVowelIndex.
  rewrite imap_app, omap_app. cbn [imap omap list_omap]. cbn [snd fst].
  rewrite bool_decide_eq_true_2 by done.
  replace (omap _ (imap _ after)) with (@nil nat).
  - rewrite last_snoc. f_equal. lia.
  - symmetry. exact (vowel_indices_none vowels after (fun i => length before + S i)%nat Hafter).
Qed.

Lemma join_characters (x : list Z) :
  join_empty (default [] <$> ((fun c => Some [c]) <$> x)) = x.
Proof.
  unfold join_empty. induction x as [|c x IH]; [done|].
  rewrite !fmap_cons. cbn [concat default app]. f_equal. exact IH.
Qed.

Lemma join_replaced (before : list Z) c after (v : jsstring) :
  join_empty (default [] <$> <[length before := Some v]>
                ((fun c => Some [c]) <$> before ++ c :: after)) =
  before ++ v ++ after.
Proof.
  rewrite fmap_app, fmap_cons.
  rewrite insert_app_r_alt by (rewrite length_fmap; lia).
  rewrite length_fmap, Nat.sub_diag. cbn [insert list_insert].
  unfold join_empty. rewrite fmap_app, concat_app, fmap_cons. cbn [concat default].
  fold (join_empty (default [] <$> ((fun c => Some [c]) <$> before))).
  fold (join_empty (default [] <$> ((fun c => Some [c]) <$> after))).
  by rewrite !join_characters.
Qed.

(** X11. The irregular branch of lines 319-336, on an entry whose [ipa]
    is a word between slashes, with draws in [0,1) and a non-empty vowel
    inventory: when no character of the word is a vowel of the inventory,
    no entry is made; otherwise the entry made has the word with its last
    such character replaced by a vowel of the inventory (whole, and maybe
    the same one), the romanized form of the new word, the function of the
    morpheme as part of speech, and the gender of the entry it comes
    from. *)
Theorem irregular_replaces_last_vowel (vowels : list jsstring) word morpheme x rnd :
  unit_draws rnd → vowels ≠ [] → ipa word = Some (str "/" ++ x ++ str "/") →
  (Forall (fun d => [d] ∉ vowels) x →
   irregular vowels word morpheme rnd = Normal (None, advance 1 rnd)) ∧
  (∀ before c after,
     x = before ++ c :: after → [c] ∈ vowels → Forall (fun d => [d] ∉ vowels) after →
     ∃ v, v ∈ vowels ∧
          irregular vowels word morpheme rnd =
          Normal (Some {| ipa := Some (str "/" ++ (before ++ v ++ after) ++ str "/");
                          roman := Some (romanize (before ++ v ++ after));
                          pos := Some (func morpheme);
                          meaning := Some (ToString (meaning word) ++ str " (irregular " ++
                                           func morpheme ++ str ")");
                          gender := gender word |}, advance 1 rnd)).
Proof.
  intros Hr Hvowels Hipa.
  assert ((0 <? len vowels) = true) as Hlen.
  { apply Z.ltb_lt. unfold len. destruct vowels; [done|simpl; lia]. }
  destruct (random_element_unit vowels rnd Hr Hvowels) as (v & Hv & Hrun).
  unfold irregular. rewrite Hlen, Hipa, (slice_between_slashes x).
  unfold bind. rewrite Hrun. split.
  - intros Hx. by rewrite lastVowelIndex_None.
  - intros before c after -> Hc Hafter. exists v. split; [done|].
    rewrite lastVowelIndex_Some by done. unfold ret. by rewrite join_replaced.
Qed.

End Irregular.


Lemma generate_structure_witness :
  ∃ dictionary,
    outcome (Lexicon.generate (E := RegExp.Fragment) loanwords_state suffix_ka_draws) =
    Normal dictionary ∧
    ∃ roots derived loans,
      generate_passes (E := RegExp.Fragment) loanwords_state suffix_ka_draws roots derived loans ∧
      dictionary = roots ++ derived ++ loans ∧
      NoDup (roman <$> roots) ∧ NoDup (roman <$> loans) ∧
      ∀ r, r ∈ roman <$> loans → r ∉ roman <$> (roots ++ derived).
Proof.
  eexists. split; [vm_compute; reflexivity|].
  apply (generate_structure (E := RegExp.Fragment) loanwords_state suffix_ka_draws).
  vm_compute. reflexivity.
Defined.

Lemma generate_roman_of_ipa_witness :
  ∃ dictionary,
    outcome (Lexicon.generate (E := RegExp.Fragment) suffix_ka_state suffix_ka_draws) =
    Normal dictionary ∧
    Forall romanized dictionary.
Proof.
  eexists. split; [vm_compute; reflexivity|].
  apply (generate_roman_of_ipa (E := RegExp.Fragment) suffix_ka_state suffix_ka_draws).
  vm_compute. reflexivity.
Defined.

Lemma generate_size_witness :
  ∃ dictionary,
    outcome (Lexicon.generate (E := RegExp.Fragment) loanwords_state suffix_ka_draws) =
    Normal dictionary ∧
    ∃ roots groups loans,
      generate_passes (E := RegExp.Fragment) loanwords_state suffix_ka_draws
        roots (concat groups) loans ∧
      dictionary = roots ++ concat groups ++ loans ∧
      len roots ≤ 2 ∧
      Forall2 (derived_group roots) [suffix_ka] groups ∧
      len loans ≤ 1 ∧
      len dictionary ≤ 2 + 1 * 2 + 1.
Proof.
  eexists. split; [vm_compute; reflexivity|].
  apply (generate_size (E := RegExp.Fragment) loanwords_state suffix_ka_draws).
  vm_compute. reflexivity.
Defined.

Lemma irregular_replaces_last_vowel_witness :
  unit_draws small_draws ∧ str <$> ["a"; "i"; "u"]%string ≠ [] ∧
  ipa (entry "/pata/" "pata" "noun" "sun") = Some (str "/" ++ str "pata" ++ str "/") ∧
  ∃ v, v ∈ str <$> ["a"; "i"; "u"]%string ∧
       Lexicon.irregular (str <$> ["a"; "i"; "u"]%string) (entry "/pata/" "pata" "noun" "sun")
         suffix_ka small_draws =
       Normal (Some {| ipa := Some (str "/" ++ (str "pat" ++ v ++ []) ++ str "/");
                       roman := Some (Phonology.romanize (str "pat" ++ v ++ []));
                       pos := Some (str "pl");
                       meaning := Some (str "sun (irregular pl)");
                       gender := gender_null |}, advance 1 small_draws).
Proof.
  assert (unit_draws small_draws) as Hr by unit_draws_literals.
  assert (str <$> ["a"; "i"; "u"]%string ≠ []) as Hvowels by done.
  assert (ipa (entry "/pata/" "pata" "noun" "sun") = Some (str "/" ++ str "pata" ++ str "/"))
    as Hipa by reflexivity.
  repeat (split; [assumption|]).
  apply (proj2 (irregular_replaces_last_vowel (str <$> ["a"; "i"; "u"]%string)
                  (entry "/pata/" "pata" "noun" "sun") suffix_ka (str "pata") small_draws
                  Hr Hvowels Hipa) (str "pat") (code "a") []).
  - reflexivity.
  - apply (bool_decide_unpack _). vm_compute. exact I.
  - apply Forall_nil_2.
Defined.

(** ** The constituents of a sentence *)

Section Constituents.
Import MorphoSyntax.

Lemma subject_phrase_gloss st subject rnd :
  unit_draws rnd →
  ∃ phrase human rnd',
    subject_phrase (morphoSyntax st) (by_pos "adjective" (dictionary st)) subject rnd
    = Normal ((phrase, human), rnd') ∧
    unit_draws rnd' ∧
    subject_and_gloss st subject (ToString phrase) (ToString human) ∧
    (roman subject ≠ None → phrase ≠ None).
Proof.
  intros Hr. unfold subject_phrase.
  destruct (Z.ltb_spec 0 (len (by_pos "adjective" (dictionary st)))) as [Hadj|Hadj].
  2: { eexists _, _, _. split; [reflexivity|]. split; [done|]. split; [by left|done]. }
  unfold bind at 1, Math_random.
  destruct (Qlt_le_dec (1 # 2) (rnd 0%nat)).
  2: { eexists _, _, _. split; [reflexivity|].
       split; [by apply unit_draws_advance|]. split; [by left|done]. }
  unfold bind at 1.
  destruct (random_element_unit (by_pos "adjective" (dictionary st)) (advance 1 rnd))
    as (adjective & Hin & ->).
  { by apply unit_draws_advance. }
  { intros Hnil. rewrite Hnil in Hadj. unfold len in Hadj. simpl in Hadj. lia. }
  eexists _, _, _. split; [reflexivity|].
  split; [by do 2 apply unit_draws_advance|]. split; [|done].
  right. exists adjective. split; [done|]. simpl.
  by destruct (bool_decide (adjectiveOrder (morphoSyntax st) = str "AN")).
Qed.

Lemma mark_case_marked caseMarking marker x :
  case_marked caseMarking marker (ToString x) (default [] (mark caseMarking marker x)).
Proof.
  unfold case_marked, mark.
  split_and!; intros ->.
  - by rewrite bool_decide_eq_true_2.
  - rewrite ?(bool_decide_eq_false_2 (_ = _)) by (vm_compute; discriminate).
    by rewrite bool_decide_eq_true_2.
  - rewrite ?(bool_decide_eq_false_2 (_ = _)) by (vm_compute; discriminate).
    by rewrite bool_decide_eq_true_2.
Qed.

Lemma mark_unmarked caseMarking marker x :
  caseMarking ∉ [str "suffix"; str "prefix"; str "postposition"] → x ≠ None →
  default [] (mark caseMarking marker x) = ToString x.
Proof.
  intros Hnone Hx. unfold mark.
  assert (caseMarking ≠ str "suffix") by (intros ->; apply Hnone; set_solver).
  assert (caseMarking ≠ str "prefix") by (intros ->; apply Hnone; set_solver).
  assert (caseMarking ≠ str "postposition") by (intros ->; apply Hnone; set_solver).
  rewrite !bool_decide_eq_false_2 by done. by destruct x.
Qed.

Lemma component_arranged wordOrder (s_final o_final : option jsstring) (v_final : jsstring) :
  arranged wordOrder (default [] s_final) (default [] o_final) v_final
    (join_space (component s_final o_final (Some v_final) <$> wordOrder)).
Proof.
  unfold arranged. split_and!; intros ->; literals; reflexivity.
Qed.

Lemma compose_layout st subject object rnd s rnd' :
  unit_draws rnd → enough_vocabulary st → tenses (grammar st) ≠ [] →
  compose st subject object rnd = Normal (s, rnd') →
  ∃ verb key marker phrase human s_final o_final sentence,
    verb ∈ by_pos "verb" (dictionary st) ∧ (key, marker) ∈ tenses (grammar st) ∧
    subject_and_gloss st subject phrase human ∧
    case_marked (caseMarking (morphoSyntax st)) (subjectMarker (grammar st)) phrase s_final ∧
    case_marked (caseMarking (morphoSyntax st)) (objectMarker (grammar st))
      (ToString (roman object)) o_final ∧
    (caseMarking (morphoSyntax st) ∉ [str "suffix"; str "prefix"; str "postposition"] →
     roman subject ≠ None → roman object ≠ None →
     s_final = phrase ∧ o_final = ToString (roman object)) ∧
    arranged (wordOrder (morphoSyntax st)) s_final o_final (ToString (roman verb) ++ str "-" ++ marker)
      sentence ∧
    s = sentence ++ str "." ++
        gloss human (ToString (meaning verb)) key (ToString (meaning object)).
Proof.
  intros Hr [_ Hverbs] Htenses.
  unfold compose. unfold bind at 1.
  destruct (random_element_unit (by_pos "verb" (dictionary st)) rnd Hr) as (verb & Hverb & ->).
  { intros Hnil. rewrite Hnil in Hverbs. simpl in Hverbs. lia. }
  unfold bind at 1.
  destruct (subject_phrase_gloss st subject (advance 1 rnd))
    as (phrase & human & rnd1 & -> & Hr1 & Hphrase & Hdefined);
    [by apply unit_draws_advance|].
  unfold bind at 1.
  destruct (random_element_unit ((tenses (grammar st)).*1) rnd1 Hr1) as (key & Hkey & ->).
  { by destruct (tenses (grammar st)). }
  destruct (tense_marker_of_key _ _ Hkey) as [marker Hmarker].
  rewrite Hmarker. unfold ret. intros [= <- _].
  eexists verb, key, marker, (ToString phrase), (ToString human), _, _, _.
  split; [done|]. split; [by apply tense_marker_in|]. split; [done|].
  split; [apply mark_case_marked|]. split; [apply mark_case_marked|].
  split; [|split; [apply component_arranged|]].
  - intros Hnone Hsubject Hobject.
    split; apply mark_unmarked; try done. by apply Hdefined.
  - unfold gloss. literals. reflexivity.
Qed.

(** X13. Every sentence that [generateSentence] returns, with draws in
    [0,1), a dictionary that passes the guard of line 396 and a non-empty
    tense table.  The subject and the object are two nouns of the
    dictionary with different romanized forms, the verb is a verb of the
    dictionary, and the tense is one of the table.  The subject phrase is
    the romanized form of the subject, glossed by its meaning, or that
    form with the form of an adjective of the dictionary before it (AN) or
    after it, glossed by the meaning of the adjective and then that of the
    subject.  The subject phrase and the romanized form of the object
    carry their marker after a hyphen (suffix), before a hyphen (prefix)
    or after a space (postposition), and none for another value of
    [caseMarking] when both forms are defined; the verb carries the tense
    marker after a hyphen.  For each of the six orders of S, O and V, the
    sentence is the three constituents in that order with single spaces
    between them, then the period and the gloss. *)
Theorem generateSentence_constituents st rnd fuel s :
  unit_draws rnd → enough_vocabulary st → tenses (grammar st) ≠ [] →
  outcome (generateSentence fuel st rnd) = Normal s →
  ∃ subject object verb key marker phrase human s_final o_final sentence,
    subject ∈ by_pos "noun" (dictionary st) ∧
    object ∈ by_pos "noun" (dictionary st) ∧
    roman object ≠ roman subject ∧
    verb ∈ by_pos "verb" (dictionary st) ∧
    (key, marker) ∈ tenses (grammar st) ∧
    subject_and_gloss st subject phrase human ∧
    case_marked (caseMarking (morphoSyntax st)) (subjectMarker (grammar st)) phrase s_final ∧
    case_marked (caseMarking (morphoSyntax st)) (objectMarker (grammar st))
      (ToString (roman object)) o_final ∧
    (caseMarking (morphoSyntax st) ∉ [str "suffix"; str "prefix"; str "postposition"] →
     roman subject ≠ None → roman object ≠ None →
     s_final = phrase ∧ o_final = ToString (roman object)) ∧
    arranged (wordOrder (morphoSyntax st)) s_final o_final (ToString (roman verb) ++ str "-" ++ marker)
      sentence ∧
    s = sentence ++ str "." ++
        gloss human (ToString (meaning verb)) key (ToString (meaning object)).
Proof.
  intros Hr Henough Htenses Hrun.
  destruct (generateSentence fuel st rnd) as [[s' rnd']| |] eqn:Hsentence; [|done..].
  injection Hrun as ->.
  apply generateSentence_normal_inv in Hsentence as (j & _ & Hdiff & Hcompose); [|done].
  apply compose_layout in Hcompose
      as (verb & key & marker & phrase & human & s_final & o_final & sentence &
          Hverb & Hkey & Hphrase & Hs & Ho & Hnone & Horder & ->);
    [|by apply unit_draws_advance|done..].
  exists (noun_drawn st (rnd 0%nat)), (noun_drawn st (rnd (S j))),
    verb, key, marker, phrase, human, s_final, o_final, sentence.
  split_and!; try done; apply noun_drawn_in; try done; apply Hr.
Qed.

End Constituents.

(** A run with postpositions, the order OVS and an adjective after the
    noun. *)
Lemma generateSentence_postposition_example :
  outcome (MorphoSyntax.generateSentence 0 postposition_OVS_state adjective_draws)
  = Normal (str "ta wo pa-ru ti ku ga. ('The big moon see (present) the sun')").
Proof. vm_compute. reflexivity. Qed.

Lemma generateSentence_constituents_witness :
  unit_draws adjective_draws ∧ enough_vocabulary postposition_OVS_state ∧
  tenses (grammar postposition_OVS_state) ≠ [] ∧
  ∃ s,
    outcome (MorphoSyntax.generateSentence 0 postposition_OVS_state adjective_draws) = Normal s ∧
    ∃ subject object verb key marker phrase human s_final o_final sentence,
      subject ∈ MorphoSyntax.by_pos "noun" (dictionary postposition_OVS_state) ∧
      object ∈ MorphoSyntax.by_pos "noun" (dictionary postposition_OVS_state) ∧
      roman object ≠ roman subject ∧
      verb ∈ MorphoSyntax.by_pos "verb" (dictionary postposition_OVS_state) ∧
      (key, marker) ∈ tenses (grammar postposition_OVS_state) ∧
      subject_and_gloss postposition_OVS_state subject phrase human ∧
      case_marked (str "postposition") (str "ga") phrase s_final ∧
      case_marked (str "postposition") (str "wo") (ToString (roman object)) o_final ∧
      (str "postposition" ∉ [str "suffix"; str "prefix"; str "postposition"] →
       roman subject ≠ None → roman object ≠ None →
       s_final = phrase ∧ o_final = ToString (roman object)) ∧
      arranged (str "OVS") s_final o_final (ToString (roman verb) ++ str "-" ++ marker)
        sentence ∧
      s = sentence ++ str "." ++
          gloss human (ToString (meaning verb)) key (ToString (meaning object)).
Proof.
  assert (unit_draws adjective_draws) as Hr by unit_draws_literals.
  assert (enough_vocabulary postposition_OVS_state) as Henough by (split; vm_compute; lia).
  assert (tenses (grammar postposition_OVS_state) ≠ []) as Htenses by done.
  repeat (split; [assumption|]).
  eexists. split; [vm_compute; reflexivity|].
  apply (generateSentence_constituents postposition_OVS_state adjective_draws 0 _
           Hr Henough Htenses).
  vm_compute. reflexivity.
Defined.

(** ** The interface: inventories, typology, export *)

Section Inventory.
Import UIManager.

Lemma trimStart_filter s : filter black (trimStart s) = filter black s.
Proof.
  induction s as [|c s IH]; [done|]. cbn [trimStart].
  destruct (is_whitespace c) eqn:Hc; [|done].
  rewrite (filter_cons_False black); [done|]. unfold black. by rewrite Hc.
Qed.

Lemma trim_filter s : filter black (trim s) = filter black s.
Proof.
  unfold trim, jsstring.
  rewrite filter_reverse. fold jsstring. rewrite trimStart_filter. unfold jsstring.
  rewrite filter_reverse, reverse_involutive. apply trimStart_filter.
Qed.

Lemma trimStart_head s : head (trimStart s) = None ∨ ∃ c, head (trimStart s) = Some c ∧ black c.
Proof.
  induction s as [|c s IH]; [by left|]. simpl.
  destruct (is_whitespace c) eqn:Hc; [done|]. right. by exists c.
Qed.

Lemma trimStart_suffix s : trimStart s `suffix_of` s.
Proof.
  induction s as [|c s IH]; [done|]. simpl.
  destruct (is_whitespace c); [by apply suffix_cons_r|done].
Qed.

Lemma trim_trimmed s : trimmed (trim s).
Proof.
  unfold trim. set (u := trimStart s). set (t := trimStart (reverse u)).
  destruct t as [|d t'] eqn:Ht; [by left|]. right.
  destruct (trimStart_head (reverse u)) as [H|(d' & H & Hd)]; fold t in H; rewrite Ht in H;
    [done|]. injection H as <-.
  pose proof (trimStart_suffix (reverse u)) as [pre Hpre]. fold t in Hpre. rewrite Ht in Hpre.
  assert (last (reverse u) = last (d :: t')) as Hlast.
  { rewrite Hpre. apply last_app_cons. }
  rewrite last_reverse in Hlast.
  destruct (trimStart_head s) as [H|(c & H & Hc)]; fold u in H.
  { rewrite H in Hlast. destruct u; [|done]. by rewrite reverse_nil in Hpre; destruct pre. }
  exists c, d. rewrite head_reverse, last_reverse. simpl.
  by rewrite <- Hlast, H.
Qed.

Lemma split_whitespace_from_join s : ∀ in_separator current,
  join_empty (split_whitespace_from in_separator current s) =
  reverse current ++ filter black s.
Proof.
  unfold join_empty.
  induction s as [|c s IH]; intros b current; cbn [split_whitespace_from].
  - reflexivity.
  - destruct (is_whitespace c) eqn:Hc.
    + rewrite (filter_cons_False black) by (unfold black; by rewrite Hc).
      destruct b; [apply IH|]. cbn [concat]. by rewrite IH.
    + rewrite (filter_cons_True black) by done. rewrite IH, reverse_cons, <- app_assoc. done.
Qed.

Lemma split_whitespace_from_black s : ∀ in_separator current,
  Forall black current →
  Forall (Forall black) (split_whitespace_from in_separator current s).
Proof.
  induction s as [|c s IH]; intros b current Hcur; simpl.
  - apply Forall_cons_2; [|apply Forall_nil_2]. by apply Forall_reverse.
  - destruct (is_whitespace c) eqn:Hc.
    + destruct b; [by apply IH|].
      apply Forall_cons_2; [by apply Forall_reverse|]. apply IH. apply Forall_nil_2.
    + apply IH. by apply Forall_cons_2.
Qed.

Lemma split_whitespace_from_nonempty s : ∀ (in_separator : bool) (current : jsstring),
  (∀ d, last s = Some d → black d) →
  (if in_separator then s ≠ [] else current ≠ []) →
  Forall (fun symbol => symbol ≠ []) (split_whitespace_from in_separator current s).
Proof.
  assert (∀ current : jsstring, current ≠ [] → reverse current ≠ []) as Hrev.
  { intros current Hcur H. apply (f_equal reverse) in H.
    by rewrite reverse_involutive in H. }
  induction s as [|c s IH]; intros b current Hlast Hb; simpl.
  - destruct b; [done|]. apply Forall_cons_2; [by apply Hrev|apply Forall_nil_2].
  - assert (∀ d, last s = Some d → black d) as Hlast'.
    { intros d Hd. apply Hlast. destruct s; [done|]. by rewrite last_cons_cons. }
    destruct (is_whitespace c) eqn:Hc.
    + assert (s ≠ []) as Hs.
      { intros ->. specialize (Hlast c eq_refl). unfold black in Hlast. congruence. }
      destruct b; [by apply IH|].
      apply Forall_cons_2; [by apply Hrev|by apply IH].
    + by apply IH.
Qed.

Lemma split_whitespace_from_not_nil s : ∀ in_separator current,
  split_whitespace_from in_separator current s ≠ [].
Proof.
  induction s as [|c s IH]; intros b current; simpl; [done|].
  destruct (is_whitespace c); [|apply IH]. destruct b; [apply IH|done].
Qed.

(** X14. The inventory that lines 517-518 read from a text field is never
    the empty array (so the guard of line 92 on the inventories lets every
    inventory of the interface through); its symbols, put together, are
    the characters of the field that are not white space, and no symbol
    holds white space; and either every symbol is non-empty, or the field
    was blank and the inventory is the single empty string. *)
Theorem parse_inventory_symbols value :
  let symbols := parse_inventory value in
  symbols ≠ [] ∧
  join_empty symbols = filter black value ∧
  Forall (Forall black) symbols ∧
  (symbols = [[]] ∨ Forall (fun symbol => symbol ≠ []) symbols).
Proof.
  intros symbols. unfold symbols, parse_inventory, split_whitespace.
  split; [|split; [|split]].
  - apply split_whitespace_from_not_nil.
  - rewrite split_whitespace_from_join. apply trim_filter.
  - apply split_whitespace_from_black, Forall_nil_2.
  - destruct (trim_trimmed value) as [->|(c & d & Hhead & Hlast & Hc & Hd)]; [by left|].
    right. destruct (trim value) as [|c' s]; [done|]. injection Hhead as ->.
    simpl. rewrite Hc. apply split_whitespace_from_nonempty; [|done].
    intros d' Hd'. destruct s; [done|]. rewrite last_cons_cons, Hd' in Hlast.
    by injection Hlast as <-.
Qed.

End Inventory.

Section Typology.
Import UIManager.

Lemma Qltb_lt a b : Qltb a b = true ↔ (a < b)%Q.
Proof.
  unfold Qltb. destruct (Qlt_le_dec a b) as [H|H]; split; try done.
  intros H'. by apply Qlt_not_le in H'.
Qed.

Lemma Qltb_ge a b : Qltb a b = false ↔ (b <= a)%Q.
Proof.
  unfold Qltb. destruct (Qlt_le_dec a b) as [H|H]; split; try done.
  intros H'. by apply Qlt_not_le in H.
Qed.

(** X15. The four answers of [getMorphologicalTypology] are distinct and
    cover every setting: isolating exactly when there is no derivational
    morpheme; agglutinative exactly when there are three or more and the
    irregularity rate is below 0.08; fusional exactly when there is at
    least one and the rate is 0.08 or more; analytic, the answer of the
    last line, exactly when there are one or two and the rate is below
    0.08. *)
Theorem getMorphologicalTypology_classes ms :
  let count := length (derivationalMorphemes ms) in
  let rate := irregularityRate ms in
  (getMorphologicalTypology ms = isolating ↔ count = 0%nat) ∧
  (getMorphologicalTypology ms = agglutinative ↔ (3 ≤ count)%nat ∧ (rate < 8 # 100)%Q) ∧
  (getMorphologicalTypology ms = fusional ↔ (1 ≤ count)%nat ∧ (8 # 100 <= rate)%Q) ∧
  (getMorphologicalTypology ms = analytic ↔ (1 ≤ count ≤ 2)%nat ∧ (rate < 8 # 100)%Q).
Proof.
  intros count rate. unfold getMorphologicalTypology, len. fold count. fold rate.
  destruct (Z.eqb_spec (Z.of_nat count) 0) as [H0|H0];
    destruct (Z.ltb_spec 2 (Z.of_nat count)) as [H2|H2];
    destruct (Z.ltb_spec 0 (Z.of_nat count)) as [H1|H1]; try lia;
    destruct (Qltb rate (8 # 100)) eqn:Hrate; simpl;
    try apply Qltb_lt in Hrate; try apply Qltb_ge in Hrate;
    repeat split; try done; try lia;
    try (intros [_ Hr]; exfalso; first [by apply Qlt_not_le in Hr | by apply Qle_not_lt in Hr]);
    try (intros [? ?]; lia).
Qed.

End Typology.

Section CsvExport.
Import UIManager.

Lemma read_csv_quoted value : ∀ r rest,
  read_csv quoted r ((value ≫= fun c => if c =? 34 then [34; 34] else [c]) ++ 34 :: rest) =
  read_csv quote_seen
    {| csv_records := csv_records r; csv_fields := csv_fields r;
       csv_field := reverse value ++ csv_field r |} rest.
Proof.
  induction value as [|c value IH]; intros r rest.
  - by destruct r.
  - rewrite bind_cons, <- app_assoc, reverse_cons, <- app_assoc.
    destruct (Z.eqb_spec c 34) as [->|Hc].
    + simpl. by rewrite IH.
    + simpl. apply Z.eqb_neq in Hc. rewrite Hc. by rewrite IH.
Qed.

Lemma read_csv_values values : ∀ r rest,
  values ≠ [] → csv_field r = [] →
  read_csv field_start r (join_comma (csv_quote <$> values) ++ 10 :: rest) =
  read_csv field_start
    {| csv_records := (reverse (csv_fields r) ++ values) :: csv_records r;
       csv_fields := []; csv_field := [] |} rest.
Proof.
  induction values as [|value values IH]; intros r rest Hvalues Hfield; [done|].
  destruct values as [|value' values].
  - simpl. unfold csv_quote. rewrite <- !app_assoc. simpl.
    rewrite read_csv_quoted. simpl. unfold end_record. simpl.
    rewrite Hfield, app_nil_r, reverse_involutive.
    by rewrite reverse_cons.
  - assert (join_comma (csv_quote <$> value :: value' :: values) =
            csv_quote value ++ 44 :: join_comma (csv_quote <$> value' :: values)) as ->
      by done.
    set (tail := join_comma (csv_quote <$> value' :: values)) in *.
    unfold csv_quote. rewrite <- !app_assoc.
    cbn [app read_csv Z.eqb Pos.eqb]. rewrite read_csv_quoted.
    cbn [app read_csv Z.eqb Pos.eqb]. rewrite IH by done.
    cbn [end_field csv_fields csv_field csv_records].
    rewrite Hfield, app_nil_r, reverse_involutive, reverse_cons, <- app_assoc. done.
Qed.

Lemma read_csv_rows dictionary : ∀ records,
  read_csv field_start {| csv_records := records; csv_fields := []; csv_field := [] |}
    (concat (csv_row <$> dictionary)) =
  Some (reverse records ++ (csv_values <$> dictionary)).
Proof.
  induction dictionary as [|word dictionary IH]; intros records.
  - simpl. by rewrite app_nil_r.
  - rewrite fmap_cons. cbn [concat]. unfold csv_row at 1. rewrite <- app_assoc.
    cbn [app]. rewrite read_csv_values by done. cbn [csv_fields csv_records].
    rewrite IH, reverse_cons, <- app_assoc. done.
Qed.

Lemma read_csv_header rest :
  parse_csv (csv_header ++ rest) =
  read_csv field_start
    {| csv_records := [str <$> ["ipa"; "roman"; "pos"; "meaning"; "gender"]%string];
       csv_fields := []; csv_field := [] |} rest.
Proof. reflexivity. Qed.

(** X16. The text that [exportCSV] hands to [download] reads back, as
    comma-separated values, as the header record ipa, roman, pos, meaning,
    gender followed by one record of five fields per entry of the
    dictionary, in order, each field being exactly the value written: no
    quotation mark, comma or line feed in a value breaks the records.  A
    property that is [undefined] is written as the text "undefined", and a
    gender that is [null], [undefined] or empty as the empty field. *)
Theorem exportCSV_parses dictionary :
  parse_csv (exportCSV dictionary) =
  Some ((str <$> ["ipa"; "roman"; "pos"; "meaning"; "gender"]%string)
          :: (csv_values <$> dictionary)).
Proof.
  unfold exportCSV. rewrite read_csv_header.
  rewrite (read_csv_rows dictionary [_]). reflexivity.
Qed.

End CsvExport.

(** ** Rules without replacement, rules with a context *)

Section Rules.
Import RegExp Phonology.

Lemma split_absent sep (s : jsstring) : sep ∉ s → split sep s = (s, []).
Proof.
  induction s as [|c s IH]; [done|]. rewrite not_elem_of_cons. intros [Hc Hs].
  cbn [split]. rewrite (IH Hs).
  destruct (Z.eqb_spec c sep) as [->|_]; [done|reflexivity].
Qed.

Lemma rule_source_without_arrow vowels rule :
  code ">" ∉ from rule → (rule_source vowels rule).2 = None.
Proof.
  intros Harrow. unfold rule_source. rewrite (split_absent _ _ Harrow).
  cbn [lookup list_lookup fmap option_fmap option_map].
  destruct (includes _ _); [|done]. by destruct (split _ _).
Qed.

(** For every engine, a rule whose [from] has no [>] has [undefined] as
    replacement, and [String.prototype.replace] writes the text of it. *)
Lemma applyRule_without_arrow {E : Engine} vowels rule word :
  code ">" ∉ from rule →
  applyRule vowels word rule =
  match compile (rule_source vowels rule).1 with
  | Some regex => replace word regex (str "undefined")
  | None => word
  end.
Proof.
  intros Harrow. unfold applyRule.
  pose proof (rule_source_without_arrow vowels rule Harrow) as Hreplacement.
  destruct (rule_source vowels rule) as [source replacement]. simpl in *.
  by rewrite Hreplacement.
Qed.

Lemma replace_letter c (template : jsstring) :
  (∀ matched before after, GetSubstitution matched before after template = template) →
  ∀ s before,
    replace_from [Atom (Chr c)] template before s 0 =
    s ≫= fun d => if d =? c then template else [d].
Proof.
  intros Htemplate. induction s as [|d s IH]; intros before; [done|].
  cbn [replace_from match_items atom_matches]. rewrite bind_cons.
  destruct (d =? c); cbn [length]; rewrite ?Htemplate, IH; done.
Qed.

Lemma rule_source_letter vowels c :
  is_whitespace c = false → c ≠ code ">" →
  (rule_source vowels {| from := [c]; to := str "_" |}).1 = [c].
Proof.
  intros Hspace Harrow. unfold rule_source. cbn [from to].
  rewrite split_absent by (intros Hin; apply list_elem_of_singleton in Hin; done).
  change (includes (code "_") (str "_")) with true.
  change (split (code "_") (str "_")) with (@nil Z, [@nil Z]).
  cbn [truthy app fst]. rewrite app_nil_r.
  unfold trim. cbn [trimStart]. rewrite Hspace. cbn [reverse rev_append trimStart].
  by rewrite Hspace.
Qed.

Lemma parse_letter c : is_syntax_char c = false → parse [c] = Some [Atom (Chr c)].
Proof.
  intros Hsyntax. unfold parse. cbn [length parse_items]. rewrite Hsyntax.
  unfold is_syntax_char in Hsyntax. apply bool_decide_eq_false in Hsyntax.
  rewrite !not_elem_of_cons in Hsyntax.
  destruct (Z.eqb_spec c 91); [lia|]. destruct (Z.eqb_spec c 40); [lia|]. done.
Qed.

(** X17. A rule whose [from] has no [>] has no replacement: [split]
    gives one piece, [replacement] is [undefined], and
    [String.prototype.replace] writes the text of it, for every engine
    ([applyRule_without_arrow]).  So with a pattern of one ordinary
    character and the context "_", every occurrence of the character in
    the word becomes the nine characters of undefined. *)
Theorem rule_without_arrow_writes_undefined p c word :
  is_syntax_char c = false → is_whitespace c = false → c ≠ code ">" →
  applyPhonologicalRules (E := Fragment)
    (with_rules p [{| from := [c]; to := str "_" |}]) word =
  word ≫= fun d => if d =? c then str "undefined" else [d].
Proof.
  intros Hsyntax Hspace Harrow.
  unfold applyPhonologicalRules. cbn [phonologicalRules with_rules foldl vowels].
  rewrite applyRule_without_arrow
    by (cbn [from]; intros Hin; apply list_elem_of_singleton in Hin; done).
  rewrite rule_source_letter by done.
  cbn [compile Fragment replace]. rewrite parse_letter by done.
  by apply replace_letter.
Qed.

Lemma trim_plain c : is_whitespace c = false → trim [c] = [c].
Proof.
  intros Hspace. unfold trim. cbn [trimStart]. rewrite Hspace.
  cbn [reverse rev_append trimStart]. by rewrite Hspace.
Qed.

Lemma rule_source_before vowels c d e :
  plain c → plain d → plain e →
  rule_source vowels {| from := [c] ++ str ">" ++ [d]; to := str "_" ++ [e] |} =
  ([c] ++ str "(?=" ++ [e] ++ str ")", Some [d]).
Proof.
  intros (_ & Hc & Hc' & _) (_ & Hd & Hd' & _) (_ & He & _ & He' & HV & _).
  unfold rule_source. cbn [from to].
  change (str ">") with [code ">"]. change (str "_") with [code "_"]. cbn [app split].
  change (code ">" =? code ">") with true. change (code "_" =? code "_") with true.
  destruct (Z.eqb_spec d (code ">")); [done|].
  destruct (Z.eqb_spec c (code ">")); [done|].
  destruct (Z.eqb_spec e (code "_")); [done|].
  cbn [includes existsb]. change (code "_" =? code "_") with true.
  cbn [orb truthy app lookup list_lookup fmap option_fmap option_map].
  rewrite !trim_plain by done.
  unfold replace_first. cbn [replace_first_from].
  destruct (Z.eqb_spec e (code "V")); [done|]. done.
Qed.

Lemma parse_before c e :
  is_syntax_char c = false → is_syntax_char e = false →
  parse ([c] ++ str "(?=" ++ [e] ++ str ")") = Some [Atom (Chr c); LookAhead [Chr e]].
Proof.
  intros Hc He.
  assert (∀ x, is_syntax_char x = false → x ≠ 91 ∧ x ≠ 40 ∧ x ≠ 41) as Hplain.
  { intros x Hx. unfold is_syntax_char in Hx. apply bool_decide_eq_false in Hx.
    rewrite !not_elem_of_cons in Hx. lia. }
  destruct (Hplain c Hc) as (? & ? & ?). destruct (Hplain e He) as (? & ? & ?).
  unfold parse. change (str "(?=") with [40; 63; 61]. change (str ")") with [41].
  cbn [app length parse_items parse_group].
  destruct (Z.eqb_spec c 91); [lia|]. destruct (Z.eqb_spec c 40); [lia|]. rewrite Hc.
  cbn [Z.eqb Pos.eqb mbind option_bind].
  destruct (Z.eqb_spec e 41); [lia|]. destruct (Z.eqb_spec e 91); [lia|]. rewrite He.
  reflexivity.
Qed.

Lemma replace_from_before c d e :
  d ≠ code "$" →
  ∀ s before,
    replace_from [Atom (Chr c); LookAhead [Chr e]] [d] before s 0 = replace_before c d e s.
Proof.
  intros Hd. induction s as [|x s IH]; intros before; [done|].
  cbn [replace_from match_items atom_matches replace_before].
  destruct (x =? c); cbn [andb].
  - destruct s as [|y s'].
    + cbn [match_atoms head]. rewrite bool_decide_eq_false_2 by done. by rewrite IH.
    + cbn [match_atoms atom_matches head].
      destruct (Z.eqb_spec y e) as [->|Hy].
      * rewrite bool_decide_eq_true_2 by done. cbn [length reverse GetSubstitution].
        destruct (Z.eqb_spec d 36); [done|]. cbn [app]. by rewrite IH.
      * rewrite bool_decide_eq_false_2 by congruence. by rewrite IH.
  - by rewrite IH.
Qed.

(** X18. The rule c > d in the context _e, for three ordinary characters
    (the interface suggests n > m in the context _p): in every word each c
    that stands immediately before an e becomes d and nothing else
    changes; the e is looked at and not consumed, so it can itself be
    replaced by the next match. *)
Theorem rule_before_a_letter p c d e word :
  plain c → plain d → plain e →
  applyPhonologicalRules (E := Fragment)
    (with_rules p [{| from := [c] ++ str ">" ++ [d]; to := str "_" ++ [e] |}]) word =
  replace_before c d e word.
Proof.
  intros Hc Hd He.
  unfold applyPhonologicalRules, applyRule. cbn [phonologicalRules with_rules foldl vowels].
  rewrite rule_source_before by done. cbn [compile Fragment replace ToString].
  rewrite parse_before by (by destruct Hc, He).
  apply replace_from_before. by destruct Hd as (_ & _ & _ & _ & _ & ?).
Qed.

End Rules.

Lemma rule_without_arrow_writes_undefined_witness :
  RegExp.is_syntax_char (code "n") = false ∧ is_whitespace (code "n") = false ∧
  code "n" ≠ code ">" ∧
  Phonology.applyPhonologicalRules (E := RegExp.Fragment)
    (with_rules (ptk_aiu ["CV"]%string [] no_tones) [{| from := str "n"; to := str "_" |}])
    (str "pan") = str "paundefined".
Proof.
  assert (RegExp.is_syntax_char (code "n") = false) as Hsyntax by reflexivity.
  assert (is_whitespace (code "n") = false) as Hspace by reflexivity.
  assert (code "n" ≠ code ">") as Harrow by discriminate.
  repeat (split; [assumption|]).
  exact (rule_without_arrow_writes_undefined (ptk_aiu ["CV"]%string [] no_tones) (code "n")
           (str "pan") Hsyntax Hspace Harrow).
Defined.

Lemma rule_before_a_letter_witness :
  plain (code "n") ∧ plain (code "m") ∧ plain (code "p") ∧
  Phonology.applyPhonologicalRules (E := RegExp.Fragment)
    (with_rules (ptk_aiu ["CV"]%string [] no_tones)
       [{| from := [code "n"] ++ str ">" ++ [code "m"]; to := str "_" ++ [code "p"] |}])
    (str "anpan") = str "ampan".
Proof.
  assert (plain (code "n")) as Hn by (repeat split; done).
  assert (plain (code "m")) as Hm by (repeat split; done).
  assert (plain (code "p")) as Hp by (repeat split; done).
  repeat (split; [assumption|]).
  exact (rule_before_a_letter (ptk_aiu ["CV"]%string [] no_tones) (code "n") (code "m")
           (code "p") (str "anpan") Hn Hm Hp).
Defined.
